(** * AnkifyAI: the card-generation back end ([app/app.py])

    A shallow embedding of the text helpers, the usage ledger, the mode
    table, the completion-response parser and the [build_apkg] orchestrator
    of [app/app.py], with the properties the specification states about
    them.

    Modelling conventions.
    - A Python [str] is a list of Unicode code points ([N]).  Whitespace
      ([str.isspace], the regex class [\s], [str.strip], [str.split]) is
      CPython's table.  The regex class [\d] and [int(str)] are modelled
      on the ASCII digits and [str.lower] on ASCII and Latin-1 letters:
      the model is exact on strings whose code points are below 256.
    - A Python [int] is a [Z]; a Python [float] that enters arithmetic
      (the yield level, densities) is a rational ([Q]) and [round] is
      round-half-to-even on rationals: the arithmetic of the model is
      exact, the rounding of binary64 operations is not modelled.
    - The external completion service, the clock and the environment
      variables are parameters of the model; the clock is read anew at
      every save of the usage record.  [build_apkg] takes the
      lookup of a subscription as a parameter; the SQLite table behind it
      is a list of rows keyed by the address, and Stripe's creation of a
      checkout session is a parameter of [api_checkout].  The SHA-1
      digest of the deck title is a parameter of the identifiers. *)

From Stdlib Require Import String Ascii.
From Stdlib Require Import List ZArith NArith QArith Qround Bool Lia ZifyBool Lqa.
Import ListNotations.

Set Implicit Arguments.

(** ** Python strings *)

(** A character is its code point, a string the list of its characters. *)
Abbreviation char := N (only parsing).
Abbreviation str := (list N) (only parsing).

(** A string literal of the source, as code points. *)
Definition lit (s : string) : str := map N_of_ascii (list_ascii_of_string s).

Fixpoint str_eqb (a b : str) : bool :=
  match a, b with
  | [], [] => true
  | x :: a', y :: b' => N.eqb x y && str_eqb a' b'
  | _, _ => false
  end.

(** [x in xs] on a list or a set of strings. *)
Definition str_mem (x : str) (xs : list str) : bool := existsb (str_eqb x) xs.

Section Characters.
Local Open Scope N_scope.

(** [Py_UNICODE_ISSPACE]: the class [\s] of [re] on [str] patterns, and the
    characters [str.strip()] and [str.split()] remove. *)
Definition is_space (c : char) : bool :=
  ((9 <=? c) && (c <=? 13)) || ((28 <=? c) && (c <=? 32))
  || (c =? 133) || (c =? 160) || (c =? 5760)
  || ((8192 <=? c) && (c <=? 8202))
  || (c =? 8232) || (c =? 8233) || (c =? 8239) || (c =? 8287) || (c =? 12288).

(** The class [\d], on the ASCII digits. *)
Definition is_digit (c : char) : bool := (48 <=? c) && (c <=? 57).

Definition digit_val (c : char) : Z := Z.of_N (c - 48).

(** [str.lower()] per character: ASCII and Latin-1 capital letters. *)
Definition lower_char (c : char) : char :=
  if (65 <=? c) && (c <=? 90) then c + 32
  else if (192 <=? c) && (c <=? 222) && negb (c =? 215) then c + 32
  else c.

Definition SPACE : char := 32.
Definition NBSP : char := 160.
Definition LBRACKET : char := 91.
Definition RBRACKET : char := 93.
Definition PERIOD : char := 46.

End Characters.

Definition lower (s : str) : str := map lower_char s.

Fixpoint drop_while (p : char -> bool) (s : str) : str :=
  match s with
  | [] => []
  | c :: r => if p c then drop_while p r else s
  end.

Fixpoint take_while (p : char -> bool) (s : str) : str :=
  match s with
  | [] => []
  | c :: r => if p c then c :: take_while p r else []
  end.

(** [s.lstrip()], [s.rstrip()], [s.strip()]. *)
Definition lstrip (s : str) : str := drop_while is_space s.

Fixpoint rstrip (s : str) : str :=
  match s with
  | [] => []
  | c :: r =>
      match rstrip r with
      | [] => if is_space c then [] else [c]
      | r' => c :: r'
      end
  end.

Definition strip (s : str) : str := lstrip (rstrip s).

(** [s.split()]: the maximal runs of non-whitespace characters. *)
Definition starts_word (s : str) : bool :=
  match s with
  | c :: _ => negb (is_space c)
  | [] => false
  end.

Definition cons_head (c : char) (ws : list str) : list str :=
  match ws with
  | w :: ws' => (c :: w) :: ws'
  | [] => [[c]]
  end.

Fixpoint split (s : str) : list str :=
  match s with
  | [] => []
  | c :: r =>
      if is_space c then split r
      else if starts_word r then cons_head c (split r)
      else [c] :: split r
  end.

(** [" ".join(ws)]. *)
Fixpoint join (ws : list str) : str :=
  match ws with
  | [] => []
  | w :: ws' =>
      match ws' with
      | [] => w
      | _ :: _ => w ++ SPACE :: join ws'
      end
  end.

(** ** Text helpers *)

(** One match of [\[\s*\d+\s*\]] anchored at the head of [s]: the number
    of characters it consumes.  The four classes are disjoint, so the
    greedy match is the only one. *)
Definition match_citation (s : str) : option nat :=
  match s with
  | [] => None
  | c :: r =>
      if N.eqb c LBRACKET then
        let sp1 := take_while is_space r in
        let r1 := drop_while is_space r in
        let ds := take_while is_digit r1 in
        let r2 := drop_while is_digit r1 in
        let sp2 := take_while is_space r2 in
        let r3 := drop_while is_space r2 in
        match ds, r3 with
        | _ :: _, d :: _ =>
            if N.eqb d RBRACKET
            then Some (S (length sp1 + length ds + length sp2 + 1))
            else None
        | _, _ => None
        end
      else None
  end.

(** [CITATION_BRACKETS.sub("", s)]: scan left to right; where a match
    starts, skip its characters and go on after it. *)
Fixpoint sub_citations_from (skip : nat) (s : str) : str :=
  match s with
  | [] => []
  | c :: r =>
      match skip with
      | S k => sub_citations_from k r
      | O =>
          match match_citation s with
          | Some n => sub_citations_from (Nat.pred n) r
          | None => c :: sub_citations_from 0 r
          end
      end
  end.

Definition sub_citations (s : str) : str := sub_citations_from 0 s.

(** [text.replace(" ", " ")]. *)
Definition replace_nbsp (s : str) : str :=
  map (fun c => if N.eqb c NBSP then SPACE else c) s.

(** [MULTI_SPACE.sub(" ", s)]: every maximal run of whitespace becomes one
    space; [in_run] tells that the run was already replaced. *)
Fixpoint collapse_from (in_run : bool) (s : str) : str :=
  match s with
  | [] => []
  | c :: r =>
      if is_space c
      then (if in_run then collapse_from true r else SPACE :: collapse_from true r)
      else c :: collapse_from false r
  end.

Definition collapse_ws (s : str) : str := collapse_from false s.

Definition clean_text (text : str) : str :=
  let text := sub_citations text in
  let text := replace_nbsp text in
  strip (collapse_ws text).

(** Some position of [s] starts a citation marker. *)
Fixpoint has_citation (s : str) : bool :=
  match s with
  | [] => false
  | _ :: r =>
      match match_citation s with
      | Some _ => true
      | None => has_citation r
      end
  end.

(** [words[i:j]] for Python integers [i] and [j]: a negative index counts
    from the end, and both are clamped to the list. *)
Definition slice_index (n k : Z) : Z :=
  if (k <? 0)%Z then Z.max 0 (k + n) else Z.min k n.

Definition py_slice (A : Type) (l : list A) (i j : Z) : list A :=
  let n := Z.of_nat (length l) in
  let lo := slice_index n i in
  let hi := slice_index n j in
  firstn (Z.to_nat (hi - lo)) (skipn (Z.to_nat lo) l).

Definition nonempty (A : Type) (l : list A) : bool :=
  match l with
  | [] => false
  | _ :: _ => true
  end.

(** The [while i < n] loop of [chunk_by_words]; [i] grows by at least one
    in every round, so [n] rounds of fuel are never used up
    ([chunk_loop_fuel] below). *)
Fixpoint chunk_loop (fuel : nat) (words : list str) (target_words overlap i : Z)
  : list str :=
  match fuel with
  | O => []
  | S fuel' =>
      if (i <? Z.of_nat (length words))%Z then
        let chunk := join (py_slice words i (i + target_words)) in
        let step := Z.max 1 (target_words - overlap) in
        let chunks := chunk_loop fuel' words target_words overlap (i + step) in
        if nonempty (strip chunk) then chunk :: chunks else chunks
      else []
  end.

Definition chunk_by_words (text : str) (target_words overlap : Z) : list str :=
  let words := split (clean_text text) in
  match words with
  | [] => []
  | _ :: _ => chunk_loop (length words) words target_words overlap 0
  end.

(** ** Yield model *)

Definition Qltb (a b : Q) : bool := negb (Qle_bool b a).

(** Python's two-argument [min] and [max]: the first argument unless the
    second is strictly smaller (larger). *)
Definition py_minQ (a b : Q) : Q := if Qltb b a then b else a.
Definition py_maxQ (a b : Q) : Q := if Qltb a b then b else a.

(** [max(0.0, min(1.0, y))]. *)
Definition clamp01 (y : Q) : Q := py_maxQ 0 (py_minQ 1 y).

(** [int(round(x))]: to the nearest integer, ties to the even one. *)
Definition py_round (x : Q) : Z :=
  let f := Qfloor x in
  match Qcompare (x - inject_Z f) (1 # 2) with
  | Lt => f
  | Gt => (f + 1)%Z
  | Eq => if Z.even f then f else (f + 1)%Z
  end.

Definition cards_per_1000_words (yield_level : Q) : Q :=
  let y := clamp01 yield_level in
  let min_density := 6 in
  let max_density := 18 in
  min_density + (1 - y) * (max_density - min_density).

Definition word_count (text : str) : Z := Z.of_nat (length (split (clean_text text))).

Definition estimate_total_cards (raw_text : str) (approx_cards : Z) (yield_level : Q) : Z :=
  let total_words := word_count raw_text in
  let auto := py_round ((inject_Z total_words / 1000) * cards_per_1000_words yield_level) in
  Z.max approx_cards auto.

Definition choose_call_size (yield_level : Q) (remaining_overall remaining_for_chunk : Z) : Z :=
  let base := py_round (12 - 6 * clamp01 yield_level) in
  let base := Z.max 3 (Z.min 16 base) in
  let base := if (remaining_overall >? 100)%Z then Z.min 20 (base + 4) else base in
  Z.max 1 (Z.min base (Z.min remaining_overall remaining_for_chunk)).

(** ** Python values and dictionaries *)

(** A [float] that is only inspected, never computed with: a value read
    from JSON.  Rounding of finite values to binary64 is not modelled. *)
Inductive pyfloat : Type :=
| FNaN
| FInf (negative : bool)
| FFin (q : Q).

(** The values [json.loads] builds.  A [dict] keeps its keys in insertion
    order, each key once. *)
#[warnings="-register-all"]
Inductive json : Type :=
| JNull
| JBool (b : bool)
| JInt (z : Z)
| JFloat (f : pyfloat)
| JStr (s : str)
| JArr (items : list json)
| JObj (pairs : list (str * json)).

Definition dict := list (str * json).

(** [d.get(k)]. *)
Fixpoint dict_get (k : str) (d : dict) : option json :=
  match d with
  | [] => None
  | (k', v) :: r => if str_eqb k k' then Some v else dict_get k r
  end.

(** [d[k] = v]. *)
Fixpoint dict_set (k : str) (v : json) (d : dict) : dict :=
  match d with
  | [] => [(k, v)]
  | (k', v') :: r =>
      if str_eqb k k' then (k, v) :: r else (k', v') :: dict_set k v r
  end.

Definition dict_keys (d : dict) : list str := map fst d.

(** [dict(pairs)]. *)
Definition dict_of_pairs (ps : list (str * json)) : dict :=
  fold_left (fun d kv => dict_set (fst kv) (snd kv) d) ps [].

(** [bool(v)]. *)
Definition py_truthy (v : json) : bool :=
  match v with
  | JNull => false
  | JBool b => b
  | JInt z => negb (Z.eqb z 0)
  | JFloat (FFin q) => negb (Qeq_bool q 0)
  | JFloat _ => true
  | JStr s => nonempty s
  | JArr l => nonempty l
  | JObj d => nonempty d
  end.

(** The numeric reading of [bool], [int] and [float] that [==] compares. *)
Definition py_number (v : json) : option pyfloat :=
  match v with
  | JBool b => Some (FFin (if b then 1 else 0))
  | JInt z => Some (FFin (inject_Z z))
  | JFloat f => Some f
  | _ => None
  end.

Definition pyfloat_eqb (a b : pyfloat) : bool :=
  match a, b with
  | FFin p, FFin q => Qeq_bool p q
  | FInf s, FInf t => Bool.eqb s t
  | _, _ => false
  end.

(** [a == b]. *)
Fixpoint py_eq (a b : json) {struct a} : bool :=
  match a, b with
  | JNull, JNull => true
  | JStr s, JStr t => str_eqb s t
  | JArr xs, JArr ys =>
      (fix all2 (xs : list json) (ys : list json) {struct xs} : bool :=
         match xs, ys with
         | [], [] => true
         | x :: xs', y :: ys' => py_eq x y && all2 xs' ys'
         | _, _ => false
         end) xs ys
  | JObj d, JObj e =>
      Nat.eqb (length d) (length e)
      && (fix sub (d : list (str * json)) {struct d} : bool :=
            match d with
            | [] => true
            | (k, v) :: d' =>
                match dict_get k e with
                | Some w => py_eq v w && sub d'
                | None => false
                end
            end) d
  | _, _ =>
      match py_number a, py_number b with
      | Some x, Some y => pyfloat_eqb x y
      | _, _ => false
      end
  end.

(** ** [json.loads] *)

Section JsonParser.
Local Open Scope N_scope.

Definition is_json_ws (c : char) : bool :=
  (c =? 32) || (c =? 9) || (c =? 10) || (c =? 13).

Definition skip_ws (s : str) : str := drop_while is_json_ws s.

Fixpoint strip_prefix (p s : str) : option str :=
  match p, s with
  | [], _ => Some s
  | a :: p', b :: s' => if a =? b then strip_prefix p' s' else None
  | _ :: _, [] => None
  end.

Definition hex_val (c : char) : option N :=
  if (48 <=? c) && (c <=? 57) then Some (c - 48)
  else if (97 <=? c) && (c <=? 102) then Some (c - 87)
  else if (65 <=? c) && (c <=? 70) then Some (c - 55)
  else None.

Definition hex4 (a b c d : char) : option N :=
  match hex_val a, hex_val b, hex_val c, hex_val d with
  | Some x, Some y, Some z, Some w => Some (((x * 16 + y) * 16 + z) * 16 + w)
  | _, _, _, _ => None
  end.

(** The single-character escapes of a JSON string. *)
Definition unescape (c : char) : option char :=
  if c =? 34 then Some 34 else if c =? 92 then Some 92
  else if c =? 47 then Some 47 else if c =? 98 then Some 8
  else if c =? 102 then Some 12 else if c =? 110 then Some 10
  else if c =? 114 then Some 13 else if c =? 116 then Some 9
  else None.

(** The body of a string after its opening quote, up to the closing one
    (strict mode: a raw control character is an error). *)
Fixpoint scanstring (s : str) : option (str * str) :=
  match s with
  | [] => None
  | c :: r =>
      if c =? 34 then Some ([], r)
      else if c =? 92 then
        match r with
        | [] => None
        | e :: r1 =>
            if e =? 117 then
              match r1 with
              | h1 :: h2 :: h3 :: h4 :: r2 =>
                  match hex4 h1 h2 h3 h4 with
                  | None => None
                  | Some u =>
                      let single :=
                        match scanstring r2 with
                        | Some (t, rest) => Some (u :: t, rest)
                        | None => None
                        end in
                      if (55296 <=? u) && (u <=? 56319) then
                        match r2 with
                        | b :: l :: g1 :: g2 :: g3 :: g4 :: r3 =>
                            match (if (b =? 92) && (l =? 117)
                                   then hex4 g1 g2 g3 g4 else None) with
                            | Some u2 =>
                                if (56320 <=? u2) && (u2 <=? 57343) then
                                  match scanstring r3 with
                                  | Some (t, rest) =>
                                      Some (65536 + ((u - 55296) * 1024 + (u2 - 56320)) :: t,
                                            rest)
                                  | None => None
                                  end
                                else single
                            | None => single
                            end
                        | _ => single
                        end
                      else single
                  end
              | _ => None
              end
            else
              match unescape e with
              | None => None
              | Some x =>
                  match scanstring r1 with
                  | Some (t, rest) => Some (x :: t, rest)
                  | None => None
                  end
              end
        end
      else if c <? 32 then None
      else
        match scanstring r with
        | Some (t, rest) => Some (c :: t, rest)
        | None => None
        end
  end.

Definition digits_val (ds : str) : Z :=
  fold_left (fun acc c => (acc * 10 + digit_val c)%Z) ds 0%Z.

Definition pow10 (e : Z) : Q :=
  if (0 <=? e)%Z then inject_Z (10 ^ e) else / inject_Z (10 ^ (- e)).

(** [float(text)] on a finite decimal: beyond the binary64 range the
    result is an infinity, below it a zero. *)
Definition float_of_decimal (negative : bool) (q : Q) : pyfloat :=
  if Qle_bool (inject_Z (2 ^ 1024)) q then FInf negative
  else if Qle_bool q (/ inject_Z (2 ^ 1075)) then FFin 0
  else FFin (if negative then - q else q)%Q.

(** A number at the head of [s]: an optional minus sign, an integer part
    without superfluous leading zero, an optional fraction and an optional
    exponent; an [int] when it has neither fraction nor exponent. *)
Definition scan_number (s : str) : option (json * str) :=
  let '(negative, s1) :=
    match s with
    | c :: r => if c =? 45 then (true, r) else (false, s)
    | [] => (false, s)
    end in
  let '(ipart, s2) :=
    match s1 with
    | c :: r => if c =? 48 then ([c], r)
                else (take_while is_digit s1, drop_while is_digit s1)
    | [] => ([], s1)
    end in
  match ipart with
  | [] => None
  | _ :: _ =>
      let '(frac, s3) :=
        match s2 with
        | c :: r =>
            if (c =? 46) && nonempty (take_while is_digit r)
            then (take_while is_digit r, drop_while is_digit r)
            else ([], s2)
        | [] => ([], s2)
        end in
      let '(expo, s4) :=
        match s3 with
        | c :: r =>
            if (c =? 101) || (c =? 69) then
              let '(eneg, r1) :=
                match r with
                | sg :: r' => if sg =? 45 then (true, r')
                              else if sg =? 43 then (false, r') else (false, r)
                | [] => (false, r)
                end in
              if nonempty (take_while is_digit r1)
              then (Some (if eneg then (- digits_val (take_while is_digit r1))%Z
                          else digits_val (take_while is_digit r1)),
                    drop_while is_digit r1)
              else (None, s3)
            else (None, s3)
        | [] => (None, s3)
        end in
      match frac, expo with
      | [], None =>
          Some (JInt (if negative then - digits_val ipart else digits_val ipart)%Z, s4)
      | _, _ =>
          let e := match expo with Some e => e | None => 0%Z end in
          let q := (inject_Z (digits_val (ipart ++ frac))
                    * pow10 (e - Z.of_nat (length frac)))%Q in
          Some (JFloat (float_of_decimal negative q), s4)
      end
  end.

(** One JSON value at the head of [s], and what follows it.  The fuel
    bounds the nesting and the number of items; a document that exhausts
    it is rejected, as Python's recursion limit rejects one nested too
    deep. *)
Fixpoint scan_once (fuel : nat) (s : str) {struct fuel} : option (json * str) :=
  match fuel with
  | O => None
  | S fuel' =>
      match s with
      | [] => None
      | c :: r =>
          if c =? 34 then
            match scanstring r with
            | Some (t, rest) => Some (JStr t, rest)
            | None => None
            end
          else if c =? 123 then
            match skip_ws r with
            | d :: rest =>
                if d =? 125 then Some (JObj [], rest)
                else if d =? 34 then
                  match scan_pairs fuel' rest with
                  | Some (ps, rest') => Some (JObj (dict_of_pairs ps), rest')
                  | None => None
                  end
                else None
            | [] => None
            end
          else if c =? 91 then
            match skip_ws r with
            | d :: rest =>
                if d =? 93 then Some (JArr [], rest)
                else
                  match scan_items fuel' (d :: rest) with
                  | Some (vs, rest') => Some (JArr vs, rest')
                  | None => None
                  end
            | [] => None
            end
          else
            match strip_prefix (lit "null") s with
            | Some rest => Some (JNull, rest)
            | None =>
            match strip_prefix (lit "true") s with
            | Some rest => Some (JBool true, rest)
            | None =>
            match strip_prefix (lit "false") s with
            | Some rest => Some (JBool false, rest)
            | None =>
            match strip_prefix (lit "NaN") s with
            | Some rest => Some (JFloat FNaN, rest)
            | None =>
            match strip_prefix (lit "Infinity") s with
            | Some rest => Some (JFloat (FInf false), rest)
            | None =>
            match strip_prefix (lit "-Infinity") s with
            | Some rest => Some (JFloat (FInf true), rest)
            | None => scan_number s
            end end end end end end
      end
  end

(** The items of an array after its opening bracket. *)
with scan_items (fuel : nat) (s : str) {struct fuel} : option (list json * str) :=
  match fuel with
  | O => None
  | S fuel' =>
      match scan_once fuel' s with
      | None => None
      | Some (v, rest) =>
          match skip_ws rest with
          | d :: rest1 =>
              if d =? 93 then Some ([v], rest1)
              else if d =? 44 then
                match scan_items fuel' (skip_ws rest1) with
                | Some (vs, rest2) => Some (v :: vs, rest2)
                | None => None
                end
              else None
          | [] => None
          end
      end
  end

(** The members of an object after the opening quote of a key. *)
with scan_pairs (fuel : nat) (s : str) {struct fuel}
  : option (list (str * json) * str) :=
  match fuel with
  | O => None
  | S fuel' =>
      match scanstring s with
      | None => None
      | Some (k, rest) =>
          match skip_ws rest with
          | col :: rest1 =>
              if col =? 58 then
                match scan_once fuel' (skip_ws rest1) with
                | None => None
                | Some (v, rest2) =>
                    match skip_ws rest2 with
                    | d :: rest3 =>
                        if d =? 125 then Some ([(k, v)], rest3)
                        else if d =? 44 then
                          match skip_ws rest3 with
                          | q :: rest4 =>
                              if q =? 34 then
                                match scan_pairs fuel' rest4 with
                                | Some (ps, rest5) => Some ((k, v) :: ps, rest5)
                                | None => None
                                end
                              else None
                          | [] => None
                          end
                        else None
                    | [] => None
                    end
                end
              else None
          | [] => None
          end
      end
  end.

(** [json.loads(s)]: one value between optional whitespace, nothing else;
    [None] stands for a raised [JSONDecodeError]. *)
Definition json_loads (s : str) : option json :=
  match s with
  | 65279 :: _ => None
  | _ =>
      match scan_once (2 * length s + 2) (skip_ws s) with
      | Some (v, rest) =>
          match skip_ws rest with
          | [] => Some v
          | _ :: _ => None
          end
      | None => None
      end
  end.

End JsonParser.

(** ** Exceptions *)

Inductive exn : Type :=
| RuntimeError
| HTTPError
| JSONDecodeError
| TypeError
| AttributeError
| KeyError.

Inductive result (A : Type) : Type :=
| Ok (a : A)
| Raise (e : exn).
Arguments Ok {A} a.
Arguments Raise {A} e.

Definition rbind (A B : Type) (r : result A) (k : A -> result B) : result B :=
  match r with
  | Ok a => k a
  | Raise e => Raise e
  end.

Notation "x <~ r ;; k" := (rbind r (fun x => k))
  (at level 61, r at next level, right associativity).

(** ** JSON parsing helper *)

(** [s.find(c)] and [s.rfind(c)]: an index, or -1. *)
Fixpoint str_find (c : char) (s : str) : Z :=
  match s with
  | [] => -1
  | d :: r =>
      if N.eqb d c then 0
      else let k := str_find c r in if (k <? 0)%Z then -1 else (k + 1)%Z
  end.

Fixpoint str_rfind (c : char) (s : str) : Z :=
  match s with
  | [] => -1
  | d :: r =>
      let k := str_rfind c r in
      if (0 <=? k)%Z then (k + 1)%Z
      else if N.eqb d c then 0 else -1
  end.

Definition parse_json_array (s : str) : result json :=
  match json_loads s with
  | Some v => Ok v
  | None =>
      let start := str_find LBRACKET s in
      let end_ := (str_rfind RBRACKET s + 1)%Z in
      if negb (start =? -1)%Z && (end_ >? start)%Z then
        match json_loads (py_slice s start end_) with
        | Some v => Ok v
        | None => Raise JSONDecodeError
        end
      else Raise JSONDecodeError
  end.

(** ** Modes *)

Definition BASIC_RECALL : str := lit "Basic Recall (Q/A)".
Definition FILL_IN_THE_BLANK : str := lit "Fill in the Blank".
Definition MECHANISM : str := lit "Mechanism (Why/How)".
Definition SCENARIO : str := lit "Scenario".

Definition MODE_ALIASES : list (str * list str) :=
  [ (BASIC_RECALL,
      [lit "basic recall (q/a)"; lit "recall"; lit "basic"; lit "qa"; lit "q/a"]);
    (FILL_IN_THE_BLANK,
      [lit "fill in the blank"; lit "fill-in-the-blank"; lit "cloze"]);
    (MECHANISM, [lit "mechanism"; lit "why"; lit "how"; lit "why/how"]);
    (SCENARIO, [lit "scenario"; lit "case"; lit "vignette"]) ].

Definition CANONICAL_MODES : list str := map fst MODE_ALIASES.

(** The inner [for canon, aliases in MODE_ALIASES.items()] loop: the first
    canonical name that [ml] matches. *)
Fixpoint find_canonical (ml : str) (table : list (str * list str)) : option str :=
  match table with
  | [] => None
  | (canon, aliases) :: rest =>
      if str_eqb ml (lower canon) || str_mem ml aliases then Some canon
      else find_canonical ml rest
  end.

(** [(m or "")] for an entry that is a string or [None]. *)
Definition or_empty (m : option str) : str :=
  match m with
  | Some s => s
  | None => []
  end.

Definition canonical_mode (m : option str) : str :=
  let ml := lower (strip (or_empty m)) in
  match find_canonical ml MODE_ALIASES with
  | Some canon => canon
  | None => BASIC_RECALL
  end.

(** The de-duplication loop: [seen] is the set, [cleaned] the list. *)
Fixpoint dedupe_keep_order (out : list str) (seen cleaned : list str) : list str :=
  match out with
  | [] => cleaned
  | m :: rest =>
      if str_mem m seen then dedupe_keep_order rest seen cleaned
      else dedupe_keep_order rest (m :: seen) (cleaned ++ [m])
  end.

Definition normalize_modes (modes_in : list (option str)) : list str :=
  match modes_in with
  | [] => [BASIC_RECALL]
  | _ :: _ =>
      let out := map canonical_mode modes_in in
      dedupe_keep_order out [] []
  end.

(** ** Fact keys *)

(** The tail [s] matches [\s*\.\s*] up to the end of the string. *)
Definition is_period_tail (s : str) : bool :=
  match drop_while is_space s with
  | d :: r => N.eqb d PERIOD && negb (nonempty (drop_while is_space r))
  | [] => false
  end.

(** [re.sub(r"\s*\.\s*$", "", s)]: cut at the leftmost such tail. *)
Fixpoint strip_trailing_period (s : str) : str :=
  match s with
  | [] => []
  | c :: r => if is_period_tail s then [] else c :: strip_trailing_period r
  end.

Definition normalize_fact (f : str) : str :=
  let t := lower (clean_text f) in
  strip_trailing_period t.

(** ** Usage ledger (monthly cap kept in a JSON file) *)

(** [int(s)] for a string: optional surrounding whitespace, an optional
    sign, decimal digits that single underscores may separate. *)
Fixpoint digits_with_underscores (s : str) (after_digit : bool) (acc : Z) : option Z :=
  match s with
  | [] => if after_digit then Some acc else None
  | c :: r =>
      if is_digit c then digits_with_underscores r true (acc * 10 + digit_val c)%Z
      else if N.eqb c 95 && after_digit then digits_with_underscores r false acc
      else None
  end.

Definition py_int_of_str (s : str) : option Z :=
  match strip s with
  | [] => None
  | c :: r =>
      if N.eqb c 45 then option_map Z.opp (digits_with_underscores r false 0)
      else if N.eqb c 43 then digits_with_underscores r false 0
      else digits_with_underscores (c :: r) false 0
  end.

(** [int(v)]. *)
Definition py_int (v : json) : result Z :=
  match v with
  | JInt z => Ok z
  | JBool b => Ok (if b then 1 else 0)%Z
  | JFloat (FFin q) => Ok (Z.quot (Qnum q) (Zpos (Qden q)))
  | JFloat _ => Raise TypeError
  | JStr s =>
      match py_int_of_str s with
      | Some z => Ok z
      | None => Raise TypeError
      end
  | JNull | JArr _ | JObj _ => Raise TypeError
  end.

(** The usage file: absent, present but not loadable as JSON, or holding
    the text of a JSON value ([json.dump] followed by [json.load] gives
    the value back). *)
Inductive file_state : Type :=
| NoFile
| Unreadable
| Stored (v : json).

Definition USAGE_SCHEMA_VERSION : Z := 1.

Definition K_VERSION : str := lit "version".
Definition K_MONTH : str := lit "month".
Definition K_CARDS_USED : str := lit "cards_used".
Definition K_CAP : str := lit "cap".

Section Ledger.

(** [int(os.environ.get("OPENAI_MONTHLY_CAP", "50000"))]. *)
Variable DEFAULT_CAP_CARDS_PER_MONTH : Z.

(** [datetime.utcnow().strftime("%Y-%m")] when one of the functions below
    is called; the readings within one call are taken to agree. *)
Variable current_month : str.

Definition _usage_defaults : dict :=
  [ (K_VERSION, JInt USAGE_SCHEMA_VERSION);
    (K_MONTH, JStr current_month);
    (K_CARDS_USED, JInt 0);
    (K_CAP, JInt DEFAULT_CAP_CARDS_PER_MONTH) ].

(** [int(v)] inside [try], with the fallback of the [except] branch. *)
Definition int_or (v : json) (fallback : Z) : Z :=
  match py_int v with
  | Ok z => z
  | Raise _ => fallback
  end.

Definition get_or (k : str) (d : dict) (default : json) : json :=
  match dict_get k d with
  | Some v => v
  | None => default
  end.

Definition _validate_and_patch_usage (data : json) : dict :=
  let base := _usage_defaults in
  match data with
  | JObj items =>
      (* {**base, **{k: v for k, v in data.items() if k in base}} *)
      let out :=
        fold_left
          (fun out kv =>
             if str_mem (fst kv) (dict_keys base)
             then dict_set (fst kv) (snd kv) out else out)
          items base in
      (* month rollover *)
      let out :=
        if negb (py_eq (get_or K_MONTH out JNull) (JStr current_month)) then
          dict_set K_CARDS_USED (JInt 0) (dict_set K_MONTH (JStr current_month) out)
        else out in
      (* numeric sanity *)
      let out :=
        dict_set K_CARDS_USED (JInt (int_or (get_or K_CARDS_USED out (JInt 0)) 0)) out in
      let out :=
        dict_set K_CAP
          (JInt (int_or (get_or K_CAP out (JInt DEFAULT_CAP_CARDS_PER_MONTH))
                        DEFAULT_CAP_CARDS_PER_MONTH)) out in
      let out :=
        dict_set K_CARDS_USED
          (JInt (Z.max 0 (int_or (get_or K_CARDS_USED out JNull) 0))) out in
      let out :=
        dict_set K_CAP (JInt (Z.max 0 (int_or (get_or K_CAP out JNull) 0))) out in
      dict_set K_VERSION (JInt USAGE_SCHEMA_VERSION) out
  | _ => base
  end.

Definition _save_usage_atomic (data : dict) (file : file_state) : file_state :=
  Stored (JObj data).

Definition load_usage (file : file_state) : dict * file_state :=
  match file with
  | NoFile =>
      let data := _usage_defaults in
      (data, _save_usage_atomic data file)
  | _ =>
      let raw :=
        match file with
        | Stored v => v
        | _ => JObj []
        end in
      let data := _validate_and_patch_usage raw in
      if negb (py_eq raw (JObj data))
      then (data, _save_usage_atomic data file)
      else (data, file)
  end.

Definition save_usage (data : json) (file : file_state) : file_state :=
  _save_usage_atomic (_validate_and_patch_usage data) file.

End Ledger.

(** ** Reading the completion service's answer *)

Record card : Type := { front : str; back : str; mode : str }.

(** [for it in items]: what iterating over a parsed value yields. *)
Definition py_iter (v : json) : result (list json) :=
  match v with
  | JArr l => Ok l
  | JObj d => Ok (map (fun kv => JStr (fst kv)) d)
  | JStr s => Ok (map (fun c => JStr [c]) s)
  | _ => Raise TypeError
  end.

(** [(v or "").strip()] for [v = d.get(k)]: a falsy value reads as the
    empty string, another value that is no string has no [strip]. *)
Definition or_empty_strip (v : option json) : result str :=
  match v with
  | None => Ok []
  | Some v =>
      if py_truthy v then
        match v with
        | JStr s => Ok (strip s)
        | _ => Raise AttributeError
        end
      else Ok []
  end.

(** The entry [normalize_modes([v])] works on: [None] for a falsy [v]. *)
Definition mode_entry (v : json) : result (option str) :=
  if py_truthy v then
    match v with
    | JStr s => Ok (Some s)
    | _ => Raise AttributeError
    end
  else Ok None.

Definition first_mode (modes : list str) : str := hd BASIC_RECALL modes.

(** The item loop of [ai_extract_facts]; a fact object [{"fact": f}] is
    modelled by [f]. *)
Fixpoint extract_fact_items (items : list json) (out : list str) : result (list str) :=
  match items with
  | [] => Ok out
  | it :: rest =>
      fact <~ match it with
              | JObj d => or_empty_strip (dict_get (lit "fact") d)
              | JStr s => Ok (strip s)
              | _ => Ok []
              end ;;
      if nonempty fact then extract_fact_items rest (out ++ [fact])
      else extract_fact_items rest out
  end.

(** The item loop of [ai_cards_from_facts]. *)
Fixpoint cards_from_items (items : list json) (out : list card) : result (list card) :=
  match items with
  | [] => Ok out
  | it :: rest =>
      match it with
      | JObj d =>
          front <~ or_empty_strip (dict_get (lit "front") d) ;;
          back <~ or_empty_strip (dict_get (lit "back") d) ;;
          m <~ mode_entry (match dict_get (lit "mode") d with
                           | Some v => v
                           | None => JStr BASIC_RECALL
                           end) ;;
          let mode := first_mode (normalize_modes [m]) in
          if nonempty front && nonempty back
          then cards_from_items rest (out ++ [{| front := front; back := back; mode := mode |}])
          else cards_from_items rest out
      | _ => cards_from_items rest out
      end
  end.

Definition pair_mem (sig : str * str) (seen : list (str * str)) : bool :=
  existsb (fun p => str_eqb (fst sig) (fst p) && str_eqb (snd sig) (snd p)) seen.

(** The item loop of [ai_generate_batch]. *)
Fixpoint batch_from_items (items : list json) (n_cards : Z)
    (seen_pairs : list (str * str)) (cleaned : list card) : result (list card) :=
  match items with
  | [] => Ok cleaned
  | c :: rest =>
      match c with
      | JObj d =>
          front <~ or_empty_strip (dict_get (lit "front") d) ;;
          back <~ or_empty_strip (dict_get (lit "back") d) ;;
          mode_raw <~ or_empty_strip (dict_get (lit "mode") d) ;;
          let mode := first_mode (normalize_modes [Some mode_raw]) in
          if negb (nonempty front) || negb (nonempty back)
          then batch_from_items rest n_cards seen_pairs cleaned
          else if pair_mem (front, back) seen_pairs
          then batch_from_items rest n_cards seen_pairs cleaned
          else
            let cleaned := cleaned ++ [{| front := front; back := back; mode := mode |}] in
            if (Z.of_nat (length cleaned) >=? n_cards)%Z then Ok cleaned
            else batch_from_items rest n_cards ((front, back) :: seen_pairs) cleaned
      | _ => batch_from_items rest n_cards seen_pairs cleaned
      end
  end.

(** ** The deck and the run *)

Inductive note_model : Type := basic_model | cloze_model.

Record note : Type := { model : note_model; fields : str * str }.

Inductive event : Type :=
| Called (index : nat)          (* one request to the completion service *)
| Added (n : note)              (* [deck.add_note] *)
| Saved (persisted : dict).     (* [save_usage] *)

(** The mutable state of one run of [build_apkg]: the local variables
    [deck], [cards_added] and [usage], the usage file, the number of
    completion requests sent, and the history (latest event first). *)
Record run : Type := {
  calls : nat;
  usage_file : file_state;
  deck : list note;
  cards_added : Z;
  usage : dict;
  trace : list event
}.

Inductive failure : Type :=
| EmailRequired
| SubscriptionInactive
| MissingApiKey
| MonthlyLimitReached
| AIExtractionError (e : exn)
| NoExtractableFacts
| AICardizationError (e : exn)
| NoCardsFromFacts
| NoRemainingQuota
| AIGenerationError (e : exn)
| NoCardsGenerated.

Inductive outcome : Type :=
| Failure (status : Z) (why : failure)    (* [return (message, status)] *)
| Apkg (notes : list note)                (* [send_file] of the package *)
| Unhandled (e : exn)                     (* an exception no handler catches *)
| OutOfFuel.                              (* a loop of the model ran out of fuel *)

(** A step of the handler: go on with a value, or leave the handler. *)
Inductive step (A : Type) : Type :=
| Next (a : A)
| Stop (o : outcome).
Arguments Next {A} a.
Arguments Stop {A} o.

Definition M (A : Type) : Type := run -> step A * run.

Definition ret (A : Type) (a : A) : M A := fun st => (Next a, st).

Definition bind (A B : Type) (m : M A) (k : A -> M B) : M B :=
  fun st =>
    match m st with
    | (Next a, st') => k a st'
    | (Stop o, st') => (Stop o, st')
    end.

Notation "x <- m ;; k" := (bind m (fun x => k))
  (at level 61, m at next level, right associativity).

Definition stop (A : Type) (o : outcome) : M A := fun st => (Stop o, st).
Arguments stop {A} o.

(** A subscription row of the [subscriptions] table. *)
Record sub_row : Type := { status : option str; current_period_end : option Z }.

(** The values that the handler reads from the body of a request, after
    its coercions ([float], [int], [strip], the [or] defaults).  A body
    on which the reading raises (a body that is no JSON object, a field
    that [float], [int] or [strip] refuses, a text that is no string, a
    title that [encode] refuses) leaves the handler by an exception that
    nothing catches, before a pipeline sends its first request; it is no
    request of the model. *)
Record request : Type := {
  email : str;
  deck_title : str;
  text : str;
  yield_level : Q;
  modes : list (option str);
  approx_cards : Z;
  words_per_chunk : Z
}.

(** ** The handler [build_apkg] and the calls it makes *)

Section Service.

(** The environment of the process. *)
Variable OPENAI_API_KEY : str.
Variable DEFAULT_CAP_CARDS_PER_MONTH : Z.

(** The clock.  [current_month] is the month ["%Y-%m"] that [load_usage]
    reads at the start of the run, and [saving_month n] the month that
    [save_usage] reads in the save made when [n] requests have been sent
    to the completion service: a run may pass a month boundary.  Every
    save of a run follows a request of its own, so that the saves read
    [saving_month] at different [n].  [now] is [int(time.time())] in
    [is_active]. *)
Variable current_month : str.
Variable saving_month : nat -> str.
Variable now : Z.

(** [get_subscription]: the row of the [subscriptions] table for an
    e-mail address, if any. *)
Variable get_subscription : str -> option sub_row.

(** The completion service: the content of the answer to the [i]-th
    request of the run, or [None] when the request or the decoding of
    its envelope raises. *)
Variable completion : nat -> option str.

Definition is_active (row : option sub_row) : bool :=
  match row with
  | None => false
  | Some r =>
      let status := lower (or_empty (status r)) in
      let cpe := match current_period_end r with Some z => z | None => 0%Z end in
      if negb (str_mem status [lit "active"; lit "trialing"]) then false
      else (cpe >=? now)%Z
  end.

(** [requests.post] and the extraction of the message content. *)
Definition post_completion (st : run) : result str * run :=
  let st' := {| calls := S (calls st);
                usage_file := usage_file st;
                deck := deck st;
                cards_added := cards_added st;
                usage := usage st;
                trace := Called (calls st) :: trace st |} in
  match completion (calls st) with
  | Some content => (Ok content, st')
  | None => (Raise HTTPError, st')
  end.

Definition ai_extract_facts (chunk_text : str) (max_facts : Z) (st : run)
  : result (list str) * run :=
  if negb (nonempty OPENAI_API_KEY) then (Raise RuntimeError, st)
  else
    let '(r, st') := post_completion st in
    (content <~ r ;;
     items <~ parse_json_array content ;;
     items <~ py_iter items ;;
     extract_fact_items items [],
     st').

Definition ai_cards_from_facts (facts : list str) (modes : list str) (st : run)
  : result (list card) * run :=
  if negb (nonempty facts) then (Ok [], st)
  else if negb (nonempty OPENAI_API_KEY) then (Raise RuntimeError, st)
  else
    let '(r, st') := post_completion st in
    (content <~ r ;;
     items <~ parse_json_array content ;;
     items <~ py_iter items ;;
     cards_from_items items [],
     st').

Definition ai_generate_batch (chunk_text : str) (n_cards : Z) (modes : list str)
    (yield_level : Q) (st : run) : result (list card) * run :=
  if negb (nonempty OPENAI_API_KEY) then (Raise RuntimeError, st)
  else
    let '(r, st') := post_completion st in
    (content <~ r ;;
     cards <~ parse_json_array content ;;
     cards <~ py_iter cards ;;
     batch_from_items cards n_cards [] [],
     st').

(** [try: x = call(...) except Exception as e: return (message, 500)]. *)
Definition try_ai (A : Type) (call : run -> result A * run) (why : exn -> failure)
  : M A :=
  fun st =>
    match call st with
    | (Ok a, st') => (Next a, st')
    | (Raise e, st') => (Stop (Failure 500 (why e)), st')
    end.

Definition make_note (c : card) : note :=
  if str_eqb (mode c) FILL_IN_THE_BLANK
  then {| model := cloze_model; fields := (front c, back c) |}
  else {| model := basic_model; fields := (front c, back c) |}.

(** [deck.add_note(note); cards_added += 1]. *)
Definition add_note (n : note) (st : run) : run :=
  {| calls := calls st;
     usage_file := usage_file st;
     deck := deck st ++ [n];
     cards_added := (cards_added st + 1)%Z;
     usage := usage st;
     trace := Added n :: trace st |}.

(** The [for c in new_cards] loop; the result is [actually_added]. *)
Fixpoint accept_cards (cards : list card) (limit : Z) (actually_added : Z) (st : run)
  : Z * run :=
  match cards with
  | [] => (actually_added, st)
  | c :: rest =>
      if (cards_added st >=? limit)%Z then (actually_added, st)
      else if negb (nonempty (front c)) || negb (nonempty (back c))
      then accept_cards rest limit actually_added st
      else accept_cards rest limit (actually_added + 1)%Z (add_note (make_note c) st)
  end.

Definition accept (cards : list card) (limit : Z) : M Z :=
  fun st => let '(n, st') := accept_cards cards limit 0 st in (Next n, st').

(** [usage["cards_used"] += actually_added; save_usage(usage)].  The
    record in memory keeps the month it was loaded with; [save_usage]
    validates it against the month the clock shows at the save. *)
Definition debit (actually_added : Z) : M unit :=
  fun st =>
    match dict_get K_CARDS_USED (usage st) with
    | Some (JInt used) =>
        let usage' := dict_set K_CARDS_USED (JInt (used + actually_added)) (usage st) in
        let month := saving_month (calls st) in
        (Next tt,
         {| calls := calls st;
            usage_file :=
              save_usage DEFAULT_CAP_CARDS_PER_MONTH month (JObj usage') (usage_file st);
            deck := deck st;
            cards_added := cards_added st;
            usage := usage';
            trace :=
              Saved (_validate_and_patch_usage DEFAULT_CAP_CARDS_PER_MONTH
                       month (JObj usage')) :: trace st |})
    | Some _ => (Stop (Unhandled TypeError), st)
    | None => (Stop (Unhandled KeyError), st)
    end.

Definition debit_if_any (actually_added : Z) : M unit :=
  if (actually_added >? 0)%Z then debit actually_added else ret tt.

(** *** Exhaustive pipeline *)

(** The [for fobj in facts] loop. *)
Fixpoint merge_facts (facts : list str) (all_facts_normed all_facts : list str)
  : list str * list str :=
  match facts with
  | [] => (all_facts_normed, all_facts)
  | fobj :: rest =>
      let ftxt := strip fobj in
      if negb (nonempty ftxt) then merge_facts rest all_facts_normed all_facts
      else
        let key := normalize_fact ftxt in
        if negb (str_mem key all_facts_normed)
        then merge_facts rest (key :: all_facts_normed) (all_facts ++ [ftxt])
        else merge_facts rest all_facts_normed all_facts
  end.

Definition max_facts_for (ch : str) : Z :=
  let ch_words := word_count ch in
  Z.max 40 (py_round ((inject_Z ch_words / 1000) * 110)).

(** The [for ch in chunks] loop. *)
Fixpoint extract_loop (chunks : list str) (all_facts_normed all_facts : list str)
  : M (list str) :=
  match chunks with
  | [] => ret all_facts
  | ch :: rest =>
      facts <- try_ai (ai_extract_facts ch (max_facts_for ch)) AIExtractionError ;;
      let '(normed, all) := merge_facts facts all_facts_normed all_facts in
      extract_loop rest normed all
  end.

(** The [while i < allowed_total] loop; [i] grows by 50 in every round. *)
Fixpoint cardize_loop (fuel : nat) (all_facts : list str) (modes : list str)
    (allowed_total i : Z) : M unit :=
  match fuel with
  | O => stop OutOfFuel
  | S fuel' =>
      if (i <? allowed_total)%Z then
        let batch_facts := py_slice all_facts i (i + 50) in
        new_cards <- try_ai (ai_cards_from_facts batch_facts modes) AICardizationError ;;
        actually_added <- accept new_cards allowed_total ;;
        _ <- debit_if_any actually_added ;;
        cardize_loop fuel' all_facts modes allowed_total (i + 50)
      else ret tt
  end.

Definition exhaustive (raw_text : str) (modes : list str) (words_chunk remaining_cap : Z)
  : M unit :=
  let chunks := chunk_by_words raw_text words_chunk 120 in
  all_facts <- extract_loop chunks [] [] ;;
  if negb (nonempty all_facts) then stop (Failure 422 NoExtractableFacts)
  else
    let allowed_total := Z.min (Z.of_nat (length all_facts)) remaining_cap in
    _ <- cardize_loop (S (Z.to_nat allowed_total)) all_facts modes allowed_total 0 ;;
    fun st =>
      if (cards_added st =? 0)%Z then (Stop (Failure 422 NoCardsFromFacts), st)
      else (Next tt, st).

(** *** Balanced pipeline *)

(** The [while produced_for_chunk < target_for_chunk and ...] loop of one
    chunk; a round that accepts nothing leaves the loop. *)
Fixpoint chunk_calls (fuel : nat) (chunk : str) (modes : list str) (yield_level : Q)
    (target_for_chunk produced_for_chunk target_cards_total : Z) : M unit :=
  match fuel with
  | O => stop OutOfFuel
  | S fuel' =>
      fun st =>
        if (produced_for_chunk <? target_for_chunk)%Z
           && (cards_added st <? target_cards_total)%Z then
          let remaining_overall := (target_cards_total - cards_added st)%Z in
          let remaining_for_chunk := (target_for_chunk - produced_for_chunk)%Z in
          let n_this_call :=
            choose_call_size yield_level remaining_overall remaining_for_chunk in
          (batch_cards <- try_ai (ai_generate_batch chunk n_this_call modes yield_level)
                                 AIGenerationError ;;
           actually_added <- accept batch_cards target_cards_total ;;
           if (actually_added >? 0)%Z then
             _ <- debit actually_added ;;
             chunk_calls fuel' chunk modes yield_level target_for_chunk
                         (produced_for_chunk + actually_added) target_cards_total
           else ret tt) st
        else (Next tt, st)
  end.

(** The [for idx, chunk in enumerate(chunks)] loop. *)
Fixpoint chunks_loop (chunks : list (str * Z)) (modes : list str) (yield_level : Q)
    (target_cards_total : Z) : M unit :=
  match chunks with
  | [] => ret tt
  | (chunk, target_for_chunk) :: rest =>
      _ <- chunk_calls (S (Z.to_nat target_for_chunk)) chunk modes yield_level
                       target_for_chunk 0 target_cards_total ;;
      chunks_loop rest modes yield_level target_cards_total
  end.

(** One pass of the round-robin sweep; the result is [made_progress]. *)
Fixpoint sweep_pass (chunks : list str) (modes : list str) (yield_level : Q)
    (target_cards_total : Z) (made_progress : bool) : M bool :=
  match chunks with
  | [] => ret made_progress
  | chunk :: rest =>
      fun st =>
        if (cards_added st >=? target_cards_total)%Z then (Next made_progress, st)
        else
          let n_this_call :=
            choose_call_size yield_level (target_cards_total - cards_added st)
                             (target_cards_total - cards_added st) in
          (batch_cards <- try_ai (ai_generate_batch chunk n_this_call modes yield_level)
                                 AIGenerationError ;;
           actually_added <- accept batch_cards target_cards_total ;;
           if (actually_added >? 0)%Z then
             _ <- debit actually_added ;;
             sweep_pass rest modes yield_level target_cards_total true
           else sweep_pass rest modes yield_level target_cards_total made_progress) st
  end.

(** The [while cards_added < target_cards_total] loop of the sweep. *)
Fixpoint sweep (fuel : nat) (chunks : list str) (modes : list str) (yield_level : Q)
    (target_cards_total : Z) : M unit :=
  match fuel with
  | O => stop OutOfFuel
  | S fuel' =>
      fun st =>
        if (cards_added st <? target_cards_total)%Z then
          (made_progress <- sweep_pass chunks modes yield_level target_cards_total false ;;
           if made_progress
           then sweep fuel' chunks modes yield_level target_cards_total
           else ret tt) st
        else (Next tt, st)
  end.

Definition chunk_target (yield_level : Q) (chunk : str) : Z :=
  let w := word_count chunk in
  let density := cards_per_1000_words yield_level in
  Z.max 1 (py_round ((inject_Z w / 1000) * density)).

Definition balanced (raw_text : str) (modes : list str) (yield_level : Q)
    (approx_cards words_chunk remaining_cap : Z) : M unit :=
  let dynamic_total := estimate_total_cards raw_text approx_cards yield_level in
  let target_cards_total := Z.min dynamic_total remaining_cap in
  if (target_cards_total <=? 0)%Z then stop (Failure 402 NoRemainingQuota)
  else
    let chunks := chunk_by_words raw_text words_chunk 120 in
    let chunk_targets := map (chunk_target yield_level) chunks in
    _ <- chunks_loop (combine chunks chunk_targets) modes yield_level target_cards_total ;;
    _ <- sweep (S (Z.to_nat target_cards_total)) chunks modes yield_level
               target_cards_total ;;
    fun st =>
      if (cards_added st =? 0)%Z then (Stop (Failure 422 NoCardsGenerated), st)
      else (Next tt, st).

(** *** The handler *)

Definition dict_int (k : str) (d : dict) : result Z :=
  match dict_get k d with
  | Some (JInt z) => Ok z
  | Some _ => Raise TypeError
  | None => Raise KeyError
  end.

Definition new_run (file : file_state) : run :=
  {| calls := 0; usage_file := file; deck := []; cards_added := 0;
     usage := []; trace := [] |}.

(** [yield_level <= 0.0 + 1e-9]: the bound is the binary64 number that
    [1e-9] denotes, 4835703278458517 / 2^82. *)
Definition is_exhaustive (yield_level : Q) : bool :=
  Qle_bool yield_level (4835703278458517 # 4835703278458516698824704).

Definition build_apkg (req : request) (file : file_state) : outcome * run :=
  let st := new_run file in
  (* Subscription check *)
  let email := lower (strip (email req)) in
  if negb (nonempty email) then (Failure 400 EmailRequired, st)
  else if negb (is_active (get_subscription email)) then (Failure 402 SubscriptionInactive, st)
  else
    let raw_text := text req in
    let yield_level := yield_level req in
    let modes :=
      normalize_modes (match modes req with
                       | [] => [Some BASIC_RECALL]
                       | l => l
                       end) in
    let approx_cards := approx_cards req in
    let words_chunk := Z.max 300 (words_per_chunk req) in
    if negb (nonempty OPENAI_API_KEY) then (Failure 500 MissingApiKey, st)
    else
      let '(usage, file') := load_usage DEFAULT_CAP_CARDS_PER_MONTH current_month file in
      let st := {| calls := 0; usage_file := file'; deck := []; cards_added := 0;
                   usage := usage; trace := [] |} in
      match dict_int K_CAP usage, dict_int K_CARDS_USED usage with
      | Ok cap, Ok used =>
          let remaining_cap := Z.max 0 (cap - used) in
          if (remaining_cap <=? 0)%Z then (Failure 402 MonthlyLimitReached, st)
          else
            let pipeline :=
              if is_exhaustive yield_level
              then exhaustive raw_text modes words_chunk remaining_cap
              else balanced raw_text modes yield_level approx_cards words_chunk
                            remaining_cap in
            match pipeline st with
            | (Next _, st') => (Apkg (deck st'), st')
            | (Stop o, st') => (o, st')
            end
      | Raise e, _ => (Unhandled e, st)
      | _, Raise e => (Unhandled e, st)
      end.

End Service.

(** ** Subscription table *)

(** A row of the table [subscriptions]: the primary key [email], the two
    columns that [is_active] reads, the Stripe identifiers and the time of
    the last write.  A column that holds NULL is [None]. *)
Record subscription : Type := {
  sub_email : str;
  sub_state : sub_row;
  customer_id : option str;
  subscription_id : option str;
  updated_at : Z
}.

Definition table : Type := list subscription.

(** [(email or "").strip().lower()]. *)
Definition normalize_email (email : option str) : str := lower (strip (or_empty email)).

(** [COALESCE(excluded.c, c)]. *)
Definition coalesce (new old : option str) : option str :=
  match new with
  | Some _ => new
  | None => old
  end.

(** [INSERT INTO subscriptions ... ON CONFLICT(email) DO UPDATE SET ...]:
    the row with the key of [new] is updated in place, a new key adds a
    row. *)
Fixpoint upsert_row (new : subscription) (db : table) : table :=
  match db with
  | [] => [new]
  | old :: rest =>
      if str_eqb (sub_email old) (sub_email new) then
        {| sub_email := sub_email old;
           sub_state := sub_state new;
           customer_id := coalesce (customer_id new) (customer_id old);
           subscription_id := coalesce (subscription_id new) (subscription_id old);
           updated_at := updated_at new |} :: rest
      else old :: upsert_row new rest
  end.

(** [upsert_subscription] at the time [now]; [cpe] is an integer or
    [None], as Stripe sends it and as the callers pass it. *)
Definition upsert_subscription (now : Z) (email status : option str) (cpe : option Z)
    (customer_id subscription_id : option str) (db : table) : table :=
  let email := normalize_email email in
  upsert_row
    {| sub_email := email;
       sub_state := {| status := Some (or_empty status);
                       current_period_end :=
                         Some (match cpe with Some z => z | None => 0%Z end) |};
       customer_id := customer_id;
       subscription_id := subscription_id;
       updated_at := now |} db.

(** [SELECT * FROM subscriptions WHERE email=?] and [fetchone]. *)
Definition get_subscription (email : option str) (db : table) : option subscription :=
  let email := normalize_email email in
  find (fun r => str_eqb (sub_email r) email) db.

(** ** Endpoints beside [build_apkg] *)

(** [(request.get_json(silent=True) or {}).get(k)]; [body] is [None] when
    the request holds no JSON.  A body that is truthy and no object has no
    [get]. *)
Definition body_get (k : str) (body : option json) : result (option json) :=
  match body with
  | None => Ok None
  | Some v =>
      if py_truthy v then
        match v with
        | JObj d => Ok (dict_get k d)
        | _ => Raise AttributeError
        end
      else Ok None
  end.

Inductive refusal : Type :=
| EmailMissing
| CheckoutError.

(** A response: a JSON body with status 200, or a message with an error
    status. *)
Inductive reply : Type :=
| Sent (body : json)
| Refused (status : Z) (why : refusal).

(** [api_checkout].  [create_session] stands for
    [stripe.checkout.Session.create]: the [url] of the session made for an
    address, or [None] when the call raises.  [Raise] is an exception that
    leaves the handler. *)
Definition api_checkout (now : Z) (create_session : str -> option json)
    (body : option json) (db : table) : result (reply * table) :=
  e <~ body_get (lit "email") body ;;
  email <~ or_empty_strip e ;;
  let email := lower email in
  if negb (nonempty email) then Ok (Refused 400 EmailMissing, db)
  else
    match create_session email with
    | Some url =>
        let db := upsert_subscription now (Some email) (Some (lit "incomplete"))
                                      None None None db in
        Ok (Sent (JObj [(lit "url", url)]), db)
    | None => Ok (Refused 400 CheckoutError, db)
    end.

Section UsageEndpoints.

Variable DEFAULT_CAP_CARDS_PER_MONTH : Z.
Variable current_month : str.

(** [usage_endpoint]: the response is the loaded record. *)
Definition usage_endpoint (file : file_state) : dict * file_state :=
  load_usage DEFAULT_CAP_CARDS_PER_MONTH current_month file.

(** [usage_reset]: the result is the ["usage"] entry of the response and
    the usage file.  [isinstance(cap, int)] holds of integers and of
    booleans, and both booleans pass [cap >= 0]. *)
Definition usage_reset (body : option json) (file : file_state)
  : result (dict * file_state) :=
  cap <~ body_get (lit "cap") body ;;
  let data := _usage_defaults DEFAULT_CAP_CARDS_PER_MONTH current_month in
  let data :=
    match cap with
    | Some (JInt c) => if (c >=? 0)%Z then dict_set K_CAP (JInt c) data else data
    | Some (JBool b) => dict_set K_CAP (JBool b) data
    | _ => data
    end in
  Ok (data, save_usage DEFAULT_CAP_CARDS_PER_MONTH current_month (JObj data) file).

End UsageEndpoints.

(** ** Identifiers of the deck and its note types *)

(** [int(hashlib.sha1(...).hexdigest(), 16) % (10**8)] for the digest of
    the deck title read as an integer, the identifier [model_id_base + 1]
    of the cloze note type, and [deck_id]. *)
Definition model_id_base (digest : Z) : Z := (digest mod 10 ^ 8)%Z.

Definition cloze_model_id (digest : Z) : Z := (model_id_base digest + 1)%Z.

Definition deck_id (digest : Z) : Z := ((model_id_base digest + 5) mod 10 ^ 10)%Z.

(** * Properties *)

(** ** Strings *)

Lemma str_eqb_eq (a b : str) : str_eqb a b = true <-> a = b.
Proof.
  revert b. induction a as [|x a IH]; intros [|y b]; simpl; split; try congruence.
  - intros H. apply andb_true_iff in H. destruct H as [Hx Ha].
    apply N.eqb_eq in Hx. apply IH in Ha. now subst.
  - intros H. injection H as -> ->. rewrite N.eqb_refl. simpl. now apply IH.
Qed.

Lemma str_eqb_refl (a : str) : str_eqb a a = true.
Proof. now apply str_eqb_eq. Qed.

Lemma str_eqb_neq (a b : str) : str_eqb a b = false <-> a <> b.
Proof.
  pose proof (str_eqb_eq a b) as H.
  destruct (str_eqb a b); split.
  - discriminate.
  - intros Hn. exfalso. apply Hn. now apply H.
  - intros _ E. apply H in E. discriminate.
  - reflexivity.
Qed.

Lemma str_eqb_sym (a b : str) : str_eqb a b = str_eqb b a.
Proof.
  destruct (str_eqb a b) eqn:E.
  - apply str_eqb_eq in E. subst. symmetry. apply str_eqb_refl.
  - symmetry. apply str_eqb_neq. apply str_eqb_neq in E. congruence.
Qed.

Lemma str_mem_In (x : str) (xs : list str) : str_mem x xs = true <-> In x xs.
Proof.
  unfold str_mem. rewrite existsb_exists. split.
  - intros [y [Hy He]]. apply str_eqb_eq in He. now subst.
  - intros H. exists x. split; [assumption | apply str_eqb_refl].
Qed.

Lemma str_mem_not_In (x : str) (xs : list str) : str_mem x xs = false <-> ~ In x xs.
Proof.
  rewrite <- str_mem_In. destruct (str_mem x xs); split; congruence.
Qed.

(** ** Adaptive per-call sizing *)

(** The base size as the specification words it:
    clamp(round(12 - 6 clamp(y, 0, 1)), 3, 16), plus 4 but at most 20 when
    more than 100 cards remain overall. *)
Definition clampZ (x lo hi : Z) : Z := Z.max lo (Z.min hi x).

Definition spec_base (y : Q) (remaining_overall : Z) : Z :=
  let b := clampZ (py_round (12 - 6 * clamp01 y)) 3 16 in
  if (100 <? remaining_overall)%Z then Z.min 20 (b + 4) else b.

Lemma spec_base_bounds (y : Q) (ro : Z) : (3 <= spec_base y ro <= 20)%Z.
Proof.
  unfold spec_base, clampZ. destruct (100 <? ro)%Z; lia.
Qed.

Lemma choose_call_size_eq (y : Q) (ro rc : Z) :
  choose_call_size y ro rc = Z.max 1 (Z.min (spec_base y ro) (Z.min ro rc)).
Proof.
  unfold choose_call_size, spec_base, clampZ.
  rewrite Z.gtb_ltb. reflexivity.
Qed.

Lemma choose_call_size_pos (y : Q) (ro rc : Z) : (1 <= choose_call_size y ro rc)%Z.
Proof. rewrite choose_call_size_eq. lia. Qed.

(** C2 (as amended).  [choose_call_size] is max(1, min(base, remainingOverall,
    remainingForChunk)) with base between 3 and 20.  When both remaining
    bounds are at least 1 (as at every call site) this is
    min(base, remainingOverall, remainingForChunk): it lies between 1 and
    that minimum and exceeds neither bound.  When a bound is below 1 the
    result is 1. *)
Theorem choose_call_size_spec (y : Q) (ro rc : Z) :
  let base := spec_base y ro in
  let n := choose_call_size y ro rc in
  (3 <= base <= 20)%Z
  /\ n = Z.max 1 (Z.min base (Z.min ro rc))
  /\ (1 <= n <= base)%Z
  /\ ((1 <= ro)%Z -> (1 <= rc)%Z ->
      n = Z.min base (Z.min ro rc) /\ (n <= ro)%Z /\ (n <= rc)%Z)
  /\ ((ro < 1)%Z \/ (rc < 1)%Z -> n = 1%Z).
Proof.
  intros base n. subst n.
  pose proof (spec_base_bounds y ro) as Hb. fold base in Hb.
  rewrite choose_call_size_eq. fold base.
  repeat split; try lia.
Qed.

(** At yield 1/2 with 200 cards left overall and 50 for the chunk the
    call asks for 13 cards. *)
Lemma choose_call_size_spec_witness :
  choose_call_size (1 # 2) 200 50 = Z.min (spec_base (1 # 2) 200) (Z.min 200 50)
  /\ (choose_call_size (1 # 2) 200 50 <= 200)%Z
  /\ (choose_call_size (1 # 2) 200 50 <= 50)%Z.
Proof.
  apply (choose_call_size_spec (1 # 2) 200 50); lia.
Defined.

(** C2 as stated fails when nothing remains overall: the result is 1, not
    min(base, 0, 7) = 0, and it exceeds the remaining bound 0. *)
Lemma choose_call_size_exceeds_bound :
  choose_call_size 1 0 7 = 1%Z
  /\ Z.min (spec_base 1 0) (Z.min 0 7) = 0%Z
  /\ (0 < choose_call_size 1 0 7)%Z.
Proof. vm_compute. repeat split; reflexivity. Qed.

(** ** Modes *)

(** The first occurrence of every element, in order of appearance. *)
Fixpoint first_occurrences (l : list str) : list str :=
  match l with
  | [] => []
  | x :: r => x :: filter (fun y => negb (str_eqb y x)) (first_occurrences r)
  end.

(** An entry is recognized when, stripped and lower-cased, it is the
    lower-cased name of a canonical mode or one of its aliases. *)
Definition matches_mode (m : option str) (canon : str) : Prop :=
  exists aliases,
    In (canon, aliases) MODE_ALIASES
    /\ (lower (strip (or_empty m)) = lower canon
        \/ In (lower (strip (or_empty m))) aliases).

Definition recognized (m : option str) : Prop := exists canon, matches_mode m canon.

Lemma first_occurrences_In (l : list str) (x : str) :
  In x (first_occurrences l) <-> In x l.
Proof.
  induction l as [|a l IH]; simpl; [tauto|].
  rewrite filter_In, IH, negb_true_iff, str_eqb_neq.
  destruct (list_eq_dec N.eq_dec a x) as [->|Hne]; [tauto|].
  split; [tauto|]. intros [H|H]; [tauto|]. right. split; congruence.
Qed.

Lemma first_occurrences_NoDup (l : list str) : NoDup (first_occurrences l).
Proof.
  induction l as [|a l IH]; simpl; constructor.
  - rewrite filter_In, negb_true_iff, str_eqb_neq. tauto.
  - now apply NoDup_filter.
Qed.

Lemma filter_filter (A : Type) (p q : A -> bool) (l : list A) :
  filter p (filter q l) = filter (fun x => q x && p x) l.
Proof.
  induction l as [|a l IH]; simpl; [reflexivity|].
  destruct (q a); simpl; [destruct (p a)|]; now rewrite IH.
Qed.

Lemma dedupe_keep_order_spec (out seen cleaned : list str) :
  dedupe_keep_order out seen cleaned
  = cleaned ++ filter (fun y => negb (str_mem y seen)) (first_occurrences out).
Proof.
  revert seen cleaned. induction out as [|m rest IH]; intros seen cleaned; simpl.
  - now rewrite app_nil_r.
  - destruct (str_mem m seen) eqn:Hm; simpl; rewrite IH.
    + f_equal. rewrite filter_filter. apply filter_ext. intros y.
      destruct (str_eqb y m) eqn:E; simpl; [|reflexivity].
      apply str_eqb_eq in E. subst. now rewrite Hm.
    + rewrite <- app_assoc. simpl. do 2 f_equal.
      rewrite filter_filter. apply filter_ext. intros y.
      rewrite (str_eqb_sym y m). now rewrite negb_orb.
Qed.

Lemma find_canonical_Some (ml : str) (table : list (str * list str)) (c : str) :
  find_canonical ml table = Some c ->
  exists aliases, In (c, aliases) table /\ (ml = lower c \/ In ml aliases).
Proof.
  induction table as [|[canon aliases] rest IH]; simpl; [discriminate|].
  destruct (str_eqb ml (lower canon) || str_mem ml aliases) eqn:E.
  - intros H. injection H as <-. exists aliases. split; [now left|].
    apply orb_true_iff in E. destruct E as [E|E].
    + left. now apply str_eqb_eq.
    + right. now apply str_mem_In.
  - intros H. destruct (IH H) as [al [Hin Hm]]. exists al. split; [now right|assumption].
Qed.

Lemma find_canonical_None (ml : str) (table : list (str * list str)) :
  find_canonical ml table = None ->
  forall c aliases, In (c, aliases) table -> ml <> lower c /\ ~ In ml aliases.
Proof.
  induction table as [|[canon al] rest IH]; simpl; [tauto|].
  destruct (str_eqb ml (lower canon) || str_mem ml al) eqn:E; [discriminate|].
  apply orb_false_iff in E. destruct E as [E1 E2].
  intros H c aliases [Heq|Hin].
  - injection Heq as <- <-. split; [now apply str_eqb_neq | now apply str_mem_not_In].
  - now apply IH.
Qed.

Lemma canonical_mode_canonical (m : option str) : In (canonical_mode m) CANONICAL_MODES.
Proof.
  unfold canonical_mode.
  destruct (find_canonical _ MODE_ALIASES) as [c|] eqn:E.
  - apply find_canonical_Some in E. destruct E as [al [Hin _]].
    unfold CANONICAL_MODES. change c with (fst (c, al)). now apply in_map.
  - simpl. now left.
Qed.

Lemma canonical_mode_recognized (m : option str) :
  recognized m -> matches_mode m (canonical_mode m).
Proof.
  intros [c [al [Hin Hm]]]. unfold canonical_mode, matches_mode.
  destruct (find_canonical _ MODE_ALIASES) as [c'|] eqn:E.
  - apply find_canonical_Some in E. exact E.
  - exfalso. destruct (find_canonical_None _ _ E _ _ Hin) as [H1 H2].
    destruct Hm; contradiction.
Qed.

Lemma canonical_mode_unrecognized (m : option str) :
  ~ recognized m -> canonical_mode m = BASIC_RECALL.
Proof.
  intros Hn. unfold canonical_mode.
  destruct (find_canonical _ MODE_ALIASES) as [c|] eqn:E; [|reflexivity].
  exfalso. apply Hn. exists c. now apply find_canonical_Some.
Qed.

Lemma filter_not_mem_nil (l : list str) :
  filter (fun y => negb (str_mem y [])) l = l.
Proof.
  induction l as [|a l IH]; simpl; [reflexivity | now f_equal].
Qed.

Lemma normalize_modes_nonempty_eq (modes_in : list (option str)) :
  modes_in <> [] ->
  normalize_modes modes_in = first_occurrences (map canonical_mode modes_in).
Proof.
  destruct modes_in as [|m rest]; [congruence|]. intros _.
  unfold normalize_modes. rewrite dedupe_keep_order_spec.
  rewrite filter_not_mem_nil. reflexivity.
Qed.

(** C10.  For every list of entries (strings or [None]), [normalize_modes]
    returns a non-empty list of canonical mode names without duplicates;
    it holds the first occurrences, in order, of the canonical names of the
    entries; the empty list gives ["Basic Recall (Q/A)"] alone; a
    recognized entry maps to a canonical mode it names, every other entry
    to "Basic Recall (Q/A)". *)
Theorem normalize_modes_spec (modes_in : list (option str)) :
  let out := normalize_modes modes_in in
  out <> []
  /\ NoDup out
  /\ (forall m, In m out -> In m CANONICAL_MODES)
  /\ (modes_in = [] -> out = [BASIC_RECALL])
  /\ (modes_in <> [] -> out = first_occurrences (map canonical_mode modes_in))
  /\ (forall e, In e modes_in -> In (canonical_mode e) out)
  /\ (forall e, recognized e -> matches_mode e (canonical_mode e))
  /\ (forall e, ~ recognized e -> canonical_mode e = BASIC_RECALL).
Proof.
  intros out. subst out.
  destruct modes_in as [|m rest].
  - simpl. repeat split; try congruence.
    + repeat constructor. simpl. tauto.
    + intros x [<-|[]]. simpl. now left.
    + intros e [].
    + apply canonical_mode_recognized.
    + apply canonical_mode_unrecognized.
  - rewrite normalize_modes_nonempty_eq by congruence.
    repeat split.
    + simpl. congruence.
    + apply first_occurrences_NoDup.
    + intros x Hx. rewrite first_occurrences_In in Hx. apply in_map_iff in Hx.
      destruct Hx as [e [<- _]]. apply canonical_mode_canonical.
    + congruence.
    + intros e He. apply first_occurrences_In. now apply in_map.
    + apply canonical_mode_recognized.
    + apply canonical_mode_unrecognized.
Qed.

Example normalize_modes_ex :
  normalize_modes [Some (lit " CLOZE "); None; Some (lit "why"); Some (lit "zzz");
                   Some (lit "Fill in the blank")]
  = [FILL_IN_THE_BLANK; BASIC_RECALL; MECHANISM].
Proof. reflexivity. Qed.

(** ** JSON parsing helper *)

(** The slice between the first opening and the last closing bracket that
    [parse_json_array] falls back to, when there is one. *)
Definition bracket_slice (s : str) : option str :=
  let start := str_find LBRACKET s in
  let end_ := (str_rfind RBRACKET s + 1)%Z in
  if negb (start =? -1)%Z && (end_ >? start)%Z
  then Some (py_slice s start end_) else None.

Definition is_array (v : json) : Prop := exists items, v = JArr items.

Lemma str_find_app (c : char) (pre post : str) :
  ~ In c pre -> str_find c (pre ++ c :: post) = Z.of_nat (length pre).
Proof.
  induction pre as [|d pre IH]; intros Hn; simpl.
  - now rewrite N.eqb_refl.
  - destruct (N.eqb d c) eqn:E.
    + apply N.eqb_eq in E. subst. exfalso. apply Hn. now left.
    + rewrite IH by (intros H; apply Hn; now right).
      destruct (Z.of_nat (length pre) <? 0)%Z eqn:L; lia.
Qed.

Lemma str_find_not_In (c : char) (s : str) :
  ~ In c s -> str_find c s = (-1)%Z.
Proof.
  induction s as [|d s IH]; intros Hn; simpl; [reflexivity|].
  destruct (N.eqb d c) eqn:E.
  - apply N.eqb_eq in E. subst. exfalso. apply Hn. now left.
  - rewrite IH by (intros H; apply Hn; now right). reflexivity.
Qed.

Lemma first_split (c : char) (s : str) :
  In c s -> exists pre post, s = pre ++ c :: post /\ ~ In c pre.
Proof.
  induction s as [|d s IH]; intros Hin; [destruct Hin|].
  destruct (N.eq_dec d c) as [->|Hne].
  - exists [], s. split; [reflexivity|]. intros [].
  - destruct Hin as [Hd|Hin]; [contradiction|].
    destruct (IH Hin) as [pre [post [-> Hn]]].
    exists (d :: pre), post. split; [reflexivity|].
    intros [H|H]; [contradiction | now apply Hn].
Qed.

Lemma last_split (c : char) (s : str) :
  In c s -> exists pre post, s = pre ++ c :: post /\ ~ In c post.
Proof.
  induction s as [|d s IH]; intros Hin; [destruct Hin|].
  destruct (in_dec N.eq_dec c s) as [Hs|Hs].
  - destruct (IH Hs) as [pre [post [-> Hn]]].
    exists (d :: pre), post. split; [reflexivity | assumption].
  - destruct Hin as [->|Hin]; [|contradiction].
    exists [], s. split; [reflexivity | assumption].
Qed.

Lemma str_rfind_not_In (c : char) (s : str) :
  ~ In c s -> str_rfind c s = (-1)%Z.
Proof.
  induction s as [|d s IH]; intros Hn; simpl; [reflexivity|].
  rewrite IH by (intros H; apply Hn; now right). simpl.
  destruct (N.eqb d c) eqn:E; [|reflexivity].
  apply N.eqb_eq in E. subst. exfalso. apply Hn. now left.
Qed.

Lemma str_rfind_app (c : char) (pre post : str) :
  ~ In c post -> str_rfind c (pre ++ c :: post) = Z.of_nat (length pre).
Proof.
  intros Hn. induction pre as [|d pre IH]; simpl.
  - rewrite str_rfind_not_In by assumption. simpl. now rewrite N.eqb_refl.
  - rewrite IH. destruct (0 <=? Z.of_nat (length pre))%Z eqn:L; lia.
Qed.

Lemma py_slice_middle (A : Type) (pre mid post : list A) :
  py_slice (pre ++ mid ++ post) (Z.of_nat (length pre))
           (Z.of_nat (length pre + length mid)) = mid.
Proof.
  unfold py_slice, slice_index. rewrite !length_app.
  destruct (Z.of_nat (length pre) <? 0)%Z eqn:L1; [lia|].
  destruct (Z.of_nat (length pre + length mid) <? 0)%Z eqn:L2; [lia|].
  replace (Z.to_nat (Z.min (Z.of_nat (length pre)) _)) with (length pre) by lia.
  replace (Z.to_nat _) with (length mid) by lia.
  rewrite skipn_app, skipn_all, Nat.sub_diag. simpl.
  rewrite firstn_app, firstn_all, Nat.sub_diag. simpl. apply app_nil_r.
Qed.

(** The fallback slice in the specification's words: the payload is
    [pre ++ t ++ post] where [t] runs from the first opening bracket of the
    payload to its last closing bracket. *)
Lemma bracket_slice_spec (s t : str) :
  bracket_slice s = Some t <->
  exists pre mid post,
    s = pre ++ t ++ post
    /\ t = LBRACKET :: mid ++ [RBRACKET]
    /\ ~ In LBRACKET pre /\ ~ In RBRACKET post.
Proof.
  unfold bracket_slice. split.
  - destruct (in_dec N.eq_dec LBRACKET s) as [Hl|Hl];
      [|rewrite (str_find_not_In _ _ Hl); discriminate].
    destruct (first_split _ _ Hl) as [pre [post1 [E1 Hpre]]].
    assert (Hf : str_find LBRACKET s = Z.of_nat (length pre)).
    { rewrite E1. now apply str_find_app. }
    rewrite Hf.
    destruct (in_dec N.eq_dec RBRACKET s) as [Hr|Hr].
    2:{ rewrite (str_rfind_not_In _ _ Hr).
        destruct (negb _ && _) eqn:C; [lia | discriminate]. }
    destruct (last_split _ _ Hr) as [pre2 [post [E2 Hpost]]].
    assert (Hrf : str_rfind RBRACKET s = Z.of_nat (length pre2)).
    { rewrite E2. now apply str_rfind_app. }
    rewrite Hrf.
    destruct (negb _ && _) eqn:C; [|discriminate].
    apply andb_true_iff in C. destruct C as [_ C]. apply Z.gtb_lt in C.
    assert (Hlen : (length pre < length pre2)%nat).
    { assert (length pre <= length pre2)%nat by lia.
      destruct (Nat.eq_dec (length pre) (length pre2)) as [Heq|]; [|lia].
      exfalso. assert (H1 : nth_error s (length pre) = Some LBRACKET).
      { rewrite E1, nth_error_app2, Nat.sub_diag by lia. reflexivity. }
      assert (H2 : nth_error s (length pre) = Some RBRACKET).
      { rewrite E2, Heq, nth_error_app2, Nat.sub_diag by lia. reflexivity. }
      rewrite H1 in H2. discriminate. }
    assert (Hpre2 : pre2 = pre ++ LBRACKET :: firstn (length pre2 - length pre - 1) post1).
    { assert (F : firstn (length pre2) s = pre2).
      { rewrite E2, firstn_app, firstn_all, Nat.sub_diag. simpl. apply app_nil_r. }
      rewrite <- F at 1. rewrite E1, firstn_app.
      rewrite firstn_all2 by lia. f_equal.
      remember (length pre2 - length pre - 1)%nat as k eqn:Hk.
      replace (length pre2 - length pre)%nat with (S k) by lia.
      reflexivity. }
    set (mid := firstn (length pre2 - length pre - 1) post1) in *.
    intros H. injection H as <-.
    assert (Es : s = pre ++ (LBRACKET :: mid ++ [RBRACKET]) ++ post).
    { rewrite E2 at 1. rewrite Hpre2. rewrite <- !app_assoc. simpl.
      rewrite <- app_assoc. reflexivity. }
    exists pre, mid, post. split; [|split; [|split; assumption]].
    + rewrite Es at 2. rewrite Es at 1. f_equal. f_equal.
      replace (Z.of_nat (length pre2) + 1)%Z
        with (Z.of_nat (length pre + length (LBRACKET :: mid ++ [RBRACKET]))).
      * symmetry. apply py_slice_middle.
      * rewrite Hpre2. simpl. rewrite !length_app. simpl. lia.
    + rewrite Es.
      replace (Z.of_nat (length pre2) + 1)%Z
        with (Z.of_nat (length pre + length (LBRACKET :: mid ++ [RBRACKET]))).
      * apply py_slice_middle.
      * rewrite Hpre2. simpl. rewrite !length_app. simpl. lia.
  - intros [pre [mid [post [Es [Et [Hpre Hpost]]]]]].
    assert (E1 : s = pre ++ LBRACKET :: (mid ++ [RBRACKET]) ++ post).
    { rewrite Es, Et. reflexivity. }
    assert (E2 : s = (pre ++ LBRACKET :: mid) ++ RBRACKET :: post).
    { rewrite Es, Et. rewrite <- !app_assoc. simpl. rewrite <- app_assoc. reflexivity. }
    assert (Hf : str_find LBRACKET s = Z.of_nat (length pre)).
    { rewrite E1. now apply str_find_app. }
    assert (Hrf : str_rfind RBRACKET s = Z.of_nat (length (pre ++ LBRACKET :: mid))).
    { rewrite E2. now apply str_rfind_app. }
    rewrite Hf, Hrf.
    replace (negb _ && _) with true.
    + f_equal. rewrite Es.
      replace (Z.of_nat (length (pre ++ LBRACKET :: mid)) + 1)%Z
        with (Z.of_nat (length pre + length t)).
      * apply py_slice_middle.
      * rewrite Et, !length_app. simpl. rewrite length_app. simpl. lia.
    + symmetry. apply andb_true_iff. split.
      * apply negb_true_iff. apply Z.eqb_neq. lia.
      * apply Z.gtb_lt. rewrite length_app. simpl. lia.
Qed.

Lemma json_loads_bracket (r : str) (v : json) :
  json_loads (LBRACKET :: r) = Some v -> is_array v.
Proof.
  unfold json_loads, LBRACKET.
  replace (2 * length (91%N :: r) + 2)%nat with (S (2 * length r + 3)) by (simpl; lia).
  cbn [skip_ws drop_while is_json_ws N.eqb Pos.eqb orb scan_once].
  destruct (skip_ws r) as [|d rest]; [discriminate|].
  destruct (N.eqb d 93).
  - destruct (skip_ws rest); [|discriminate]. intros H. injection H as <-. now exists [].
  - destruct (scan_items _ _) as [[vs rest']|]; [|discriminate].
    destruct (skip_ws rest'); [|discriminate]. intros H. injection H as <-. now exists vs.
Qed.

Lemma bracket_slice_head (s t : str) :
  bracket_slice s = Some t -> exists r, t = LBRACKET :: r.
Proof.
  intros H. apply bracket_slice_spec in H.
  destruct H as [pre [mid [post [_ [-> _]]]]]. eauto.
Qed.

Lemma parse_json_array_unfold (s : str) :
  parse_json_array s =
  match json_loads s with
  | Some v => Ok v
  | None =>
      match bracket_slice s with
      | Some t =>
          match json_loads t with
          | Some v => Ok v
          | None => Raise JSONDecodeError
          end
      | None => Raise JSONDecodeError
      end
  end.
Proof.
  unfold parse_json_array, bracket_slice.
  destruct (json_loads s); [reflexivity|].
  destruct (negb _ && _); reflexivity.
Qed.

(** C5 (as amended).  [parse_json_array] first attempts a strict parse
    and returns its value, whatever its JSON type; if that fails and the
    payload has an opening bracket before its last closing bracket, it
    re-parses the slice from the first opening to the last closing
    bracket, and a value recovered this way is an array; it fails, with a
    [JSONDecodeError], exactly when the strict parse fails and no slice
    exists or the slice does not parse. *)
Theorem parse_json_array_spec (s : str) :
  (forall v, json_loads s = Some v -> parse_json_array s = Ok v)
  /\ (json_loads s = None ->
      forall t, bracket_slice s = Some t ->
        parse_json_array s = match json_loads t with
                             | Some v => Ok v
                             | None => Raise JSONDecodeError
                             end)
  /\ (parse_json_array s = Raise JSONDecodeError <->
      json_loads s = None
      /\ forall t, bracket_slice s = Some t -> json_loads t = None)
  /\ (forall v, json_loads s = None -> parse_json_array s = Ok v -> is_array v)
  /\ (forall e, parse_json_array s = Raise e -> e = JSONDecodeError).
Proof.
  rewrite parse_json_array_unfold.
  destruct (json_loads s) as [v0|] eqn:Es.
  - split; [congruence|]. split; [discriminate|]. split; [|split].
    + split; [discriminate | intros [H _]; discriminate].
    + discriminate.
    + discriminate.
  - split; [discriminate|].
    destruct (bracket_slice s) as [t|] eqn:Eb.
    + destruct (bracket_slice_head _ Eb) as [r Hr].
      split; [intros _ t' H; now injection H as <-|].
      destruct (json_loads t) as [v1|] eqn:Et.
      * split; [|split].
        -- split; [discriminate|]. intros [_ H]. specialize (H t eq_refl). congruence.
        -- intros v _ H. injection H as <-. subst t.
           eapply json_loads_bracket; eassumption.
        -- discriminate.
      * split; [|split].
        -- split; [|reflexivity]. intros _. split; [reflexivity|].
           intros t' H. now injection H as <-.
        -- discriminate.
        -- congruence.
    + split; [discriminate|]. split; [|split].
      * split; [|reflexivity]. intros _. split; [reflexivity | discriminate].
      * discriminate.
      * congruence.
Qed.

(** C5 as stated fails on a payload that is valid JSON but no array: the
    strict parse succeeds and its value, here an object, is returned,
    although no array can be recovered by either strategy. *)
Lemma parse_json_array_returns_object :
  parse_json_array (lit "{}") = Ok (JObj [])
  /\ json_loads (lit "{}") = Some (JObj [])
  /\ bracket_slice (lit "{}") = None.
Proof. vm_compute. repeat split; reflexivity. Qed.

(** Prose around the array is tolerated by the fallback. *)
Example parse_json_array_prose :
  parse_json_array (lit "Sure! [1, 2] done") = Ok (JArr [JInt 1; JInt 2]).
Proof. vm_compute. reflexivity. Qed.

(** ** Dictionaries *)

Lemma dict_get_set_same (k : str) (v : json) (d : dict) :
  dict_get k (dict_set k v d) = Some v.
Proof.
  induction d as [|[k' v'] d IH]; simpl.
  - now rewrite str_eqb_refl.
  - destruct (str_eqb k k') eqn:E; simpl.
    + now rewrite str_eqb_refl.
    + now rewrite E.
Qed.

Lemma dict_get_set_other (k k' : str) (v : json) (d : dict) :
  k <> k' -> dict_get k (dict_set k' v d) = dict_get k d.
Proof.
  intros Hne. induction d as [|[k2 v2] d IH]; simpl.
  - apply str_eqb_neq in Hne. now rewrite Hne.
  - destruct (str_eqb k' k2) eqn:E; simpl.
    + apply str_eqb_eq in E. subst k2.
      apply str_eqb_neq in Hne. now rewrite Hne.
    + now rewrite IH.
Qed.

Lemma dict_set_keys (k : str) (v : json) (d : dict) :
  In k (dict_keys d) -> dict_keys (dict_set k v d) = dict_keys d.
Proof.
  induction d as [|[k' v'] d IH]; simpl; [tauto|].
  intros Hin. destruct (str_eqb k k') eqn:E; simpl.
  - apply str_eqb_eq in E. now subst.
  - f_equal. apply IH. destruct Hin as [H|H]; [|assumption].
    apply str_eqb_neq in E. congruence.
Qed.

Lemma dict_get_None (k : str) (d : dict) :
  ~ In k (dict_keys d) -> dict_get k d = None.
Proof.
  induction d as [|[k' v'] d IH]; simpl; [reflexivity|].
  intros Hn. destruct (str_eqb k k') eqn:E.
  - apply str_eqb_eq in E. subst. tauto.
  - apply IH. tauto.
Qed.

Lemma dict_get_In (k : str) (v : json) (d : dict) :
  dict_get k d = Some v -> In (k, v) d.
Proof.
  induction d as [|[k' v'] d IH]; simpl; [discriminate|].
  destruct (str_eqb k k') eqn:E.
  - apply str_eqb_eq in E. subst. intros H. injection H as ->. now left.
  - intros H. right. now apply IH.
Qed.

(** ** Python equality *)

Lemma py_eq_JStr (v : json) (s : str) : py_eq v (JStr s) = true <-> v = JStr s.
Proof.
  destruct v as [|b|z|f|t|l|d]; simpl; try (split; [discriminate | congruence]).
  rewrite str_eqb_eq. split; congruence.
Qed.

Lemma py_eq_JObj_get (d e : dict) (k : str) (v : json) :
  py_eq (JObj d) (JObj e) = true ->
  In (k, v) d ->
  exists w, dict_get k e = Some w /\ py_eq v w = true.
Proof.
  simpl. intros H. apply andb_true_iff in H. destruct H as [_ H]. revert H.
  induction d as [|[k' v'] d IH]; intros H Hin; [destruct Hin|].
  destruct (dict_get k' e) as [w|] eqn:Eg; [|discriminate].
  apply andb_true_iff in H. destruct H as [Hv Hd].
  destruct Hin as [Heq|Hin].
  - injection Heq as <- <-. eauto.
  - now apply IH.
Qed.

(** ** Usage ledger *)

Section LedgerFacts.

Variable DEFAULT_CAP : Z.
Variable current_month : str.

Local Abbreviation validate := (_validate_and_patch_usage DEFAULT_CAP current_month).
Local Abbreviation defaults := (_usage_defaults DEFAULT_CAP current_month).

(** The shape of a sound usage record: exactly the four keys, in the
    order of [_usage_defaults], the current schema version and month, and
    integer counters. *)
Definition usage_record (cards_used cap : Z) : dict :=
  [ (K_VERSION, JInt USAGE_SCHEMA_VERSION);
    (K_MONTH, JStr current_month);
    (K_CARDS_USED, JInt cards_used);
    (K_CAP, JInt cap) ].

Definition well_formed_usage (d : dict) : Prop :=
  exists cards_used cap,
    (0 <= cards_used)%Z /\ (0 <= cap)%Z /\ d = usage_record cards_used cap.

(** The merge [{**base, **{k: v for k, v in data.items() if k in base}}]. *)
Definition merge_known (items base : dict) : dict :=
  fold_left
    (fun out kv =>
       if str_mem (fst kv) (dict_keys base)
       then dict_set (fst kv) (snd kv) out else out)
    items base.

(** What the patching makes of the merged month, counter and cap. *)
Definition patched (month cards_used cap : json) : dict :=
  let used := if py_eq month (JStr current_month) then cards_used else JInt 0 in
  usage_record (Z.max 0 (int_or used 0)) (Z.max 0 (int_or cap DEFAULT_CAP)).

Definition base_keys : list str := [K_VERSION; K_MONTH; K_CARDS_USED; K_CAP].

Lemma defaults_keys : dict_keys defaults = base_keys.
Proof. reflexivity. Qed.

Lemma merge_step_keys (keys : list str) (out : dict) (kv : str * json) :
  dict_keys out = keys ->
  dict_keys (if str_mem (fst kv) keys then dict_set (fst kv) (snd kv) out else out) = keys.
Proof.
  intros Hk. destruct (str_mem (fst kv) keys) eqn:E; [|assumption].
  rewrite dict_set_keys; [assumption|]. rewrite Hk. now apply str_mem_In.
Qed.

Lemma fold_merge_keys (keys : list str) (items out : dict) :
  dict_keys out = keys ->
  dict_keys (fold_left
               (fun out kv =>
                  if str_mem (fst kv) keys
                  then dict_set (fst kv) (snd kv) out else out) items out) = keys.
Proof.
  revert out. induction items as [|kv items IH]; intros out Hk; simpl; [assumption|].
  apply IH. now apply merge_step_keys.
Qed.

Lemma merge_known_keys (items : dict) :
  dict_keys (merge_known items defaults) = base_keys.
Proof. unfold merge_known. rewrite defaults_keys. now apply fold_merge_keys. Qed.

Lemma fold_merge_get (keys : list str) (items out : dict) (k : str) :
  NoDup (dict_keys items) -> In k keys -> dict_keys out = keys ->
  dict_get k (fold_left
                (fun out kv =>
                   if str_mem (fst kv) keys
                   then dict_set (fst kv) (snd kv) out else out) items out)
  = match dict_get k items with
    | Some v => Some v
    | None => dict_get k out
    end.
Proof.
  revert out. induction items as [|[k' v'] items IH]; intros out Hnd Hin Hk; simpl.
  - reflexivity.
  - simpl in Hnd. apply NoDup_cons_iff in Hnd. destruct Hnd as [Hnot Hnd'].
    rewrite IH by (try assumption; exact (@merge_step_keys keys out (k', v') Hk)).
    destruct (str_eqb k k') eqn:E.
    + apply str_eqb_eq in E. subst k'.
      rewrite (dict_get_None _ _ Hnot).
      apply str_mem_In in Hin. rewrite Hin. apply dict_get_set_same.
    + destruct (dict_get k items); [reflexivity|].
      destruct (str_mem k' keys); [|reflexivity].
      apply dict_get_set_other. now apply str_eqb_neq.
Qed.

Lemma merge_known_get (items : dict) (k : str) :
  NoDup (dict_keys items) -> In k base_keys ->
  dict_get k (merge_known items defaults)
  = match dict_get k items with
    | Some v => Some v
    | None => dict_get k defaults
    end.
Proof.
  intros Hnd Hin. unfold merge_known. rewrite defaults_keys.
  now apply fold_merge_get.
Qed.

Lemma int_or_JInt (z fallback : Z) : int_or (JInt z) fallback = z.
Proof. reflexivity. Qed.

Lemma four_keys_shape (d : dict) :
  dict_keys d = base_keys ->
  exists a b c e,
    d = [(K_VERSION, a); (K_MONTH, b); (K_CARDS_USED, c); (K_CAP, e)].
Proof.
  unfold dict_keys, base_keys.
  destruct d as [|[k1 a] [|[k2 b] [|[k3 c] [|[k4 e] [|? ?]]]]]; simpl; try discriminate.
  intros H. injection H as -> -> -> ->. now exists a, b, c, e.
Qed.

Lemma validate_of_merged (items : dict) (a b c e : json) :
  merge_known items defaults
  = [(K_VERSION, a); (K_MONTH, b); (K_CARDS_USED, c); (K_CAP, e)] ->
  validate (JObj items) = patched b c e.
Proof.
  intros Hm. unfold _validate_and_patch_usage.
  change (fold_left _ items defaults) with (merge_known items defaults).
  rewrite Hm. unfold patched, usage_record.
  change (get_or K_MONTH [(K_VERSION, a); (K_MONTH, b); (K_CARDS_USED, c); (K_CAP, e)] JNull)
    with b.
  destruct (py_eq b (JStr current_month)) eqn:E.
  - apply py_eq_JStr in E. subst b.
    cbv - [Z.max int_or]. now rewrite !int_or_JInt.
  - cbv - [Z.max int_or]. now rewrite !int_or_JInt.
Qed.

(** On a dictionary the result is a sound record, whatever the values. *)
Lemma validate_dict_well_formed (items : dict) :
  well_formed_usage (validate (JObj items)).
Proof.
  destruct (four_keys_shape _ (merge_known_keys items)) as [a [b [c [e Hm]]]].
  rewrite (validate_of_merged _ Hm). unfold patched.
  eexists _, _. split; [|split; [|reflexivity]]; lia.
Qed.

Lemma validate_non_dict (data : json) :
  (forall items, data <> JObj items) -> validate data = usage_record 0 DEFAULT_CAP.
Proof.
  intros H. destruct data; try reflexivity. exfalso. now apply (H pairs).
Qed.

Lemma validate_shape (data : json) :
  exists used cap, (0 <= used)%Z /\ validate data = usage_record used cap.
Proof.
  destruct data as [| | | | | |items];
    try (exists 0%Z, DEFAULT_CAP; split; [lia | reflexivity]).
  destruct (validate_dict_well_formed items) as [u [c [Hu [_ H]]]]. eauto.
Qed.

Lemma validate_well_formed (data : json) :
  (0 <= DEFAULT_CAP)%Z -> well_formed_usage (validate data).
Proof.
  intros Hd.
  destruct data as [| | | | | |items];
    try (exists 0%Z, DEFAULT_CAP; split; [lia | split; [assumption | reflexivity]]).
  apply validate_dict_well_formed.
Qed.

(** Re-validating a sound record of the current month changes nothing. *)
Lemma validate_usage_record (used cap : Z) :
  (0 <= used)%Z -> (0 <= cap)%Z ->
  validate (JObj (usage_record used cap)) = usage_record used cap.
Proof.
  intros Hu Hc.
  assert (Hm : merge_known (usage_record used cap) defaults = usage_record used cap)
    by reflexivity.
  rewrite (validate_of_merged _ Hm). unfold patched.
  assert (E : py_eq (JStr current_month) (JStr current_month) = true)
    by (apply py_eq_JStr; reflexivity).
  rewrite E. simpl int_or. now rewrite !Z.max_r.
Qed.

Lemma load_usage_fst (file : file_state) :
  fst (load_usage DEFAULT_CAP current_month file)
  = match file with
    | NoFile => defaults
    | Unreadable => validate (JObj [])
    | Stored v => validate v
    end.
Proof.
  destruct file; unfold load_usage; try reflexivity;
    destruct (negb _); reflexivity.
Qed.

Lemma load_usage_shape (file : file_state) :
  exists used cap,
    (0 <= used)%Z
    /\ fst (load_usage DEFAULT_CAP current_month file) = usage_record used cap.
Proof.
  rewrite load_usage_fst. destruct file as [| |v].
  - exists 0%Z, DEFAULT_CAP. split; [lia | reflexivity].
  - apply validate_shape.
  - apply validate_shape.
Qed.

(** With a non-negative configured default, every record that
    [load_usage] returns and every record that [save_usage] persists is
    sound. *)
Lemma usage_well_formed_if_default_nonneg :
  (0 <= DEFAULT_CAP)%Z ->
  (forall file, well_formed_usage (fst (load_usage DEFAULT_CAP current_month file)))
  /\ (forall data file,
        exists d, save_usage DEFAULT_CAP current_month data file = Stored (JObj d)
                  /\ well_formed_usage d).
Proof.
  intros Hd. split.
  - intros file. rewrite load_usage_fst. destruct file as [| |v].
    + exists 0%Z, DEFAULT_CAP. split; [lia | split; [assumption | reflexivity]].
    + now apply validate_well_formed.
    + now apply validate_well_formed.
  - intros data file. eexists. split; [reflexivity|]. now apply validate_well_formed.
Qed.

Lemma merged_values (items : dict) (a b c e : json) :
  NoDup (dict_keys items) ->
  merge_known items defaults
  = [(K_VERSION, a); (K_MONTH, b); (K_CARDS_USED, c); (K_CAP, e)] ->
  Some b = match dict_get K_MONTH items with
           | Some v => Some v
           | None => Some (JStr current_month)
           end
  /\ Some c = match dict_get K_CARDS_USED items with
              | Some v => Some v
              | None => Some (JInt 0)
              end
  /\ Some e = match dict_get K_CAP items with
              | Some v => Some v
              | None => Some (JInt DEFAULT_CAP)
              end.
Proof.
  intros Hnd Hm.
  assert (Hb := @merge_known_get items K_MONTH Hnd).
  assert (Hc := @merge_known_get items K_CARDS_USED Hnd).
  assert (He := @merge_known_get items K_CAP Hnd).
  rewrite Hm in Hb, Hc, He.
  specialize (Hb ltac:(cbv; tauto)).
  specialize (Hc ltac:(cbv; tauto)).
  specialize (He ltac:(cbv; tauto)).
  split; [exact Hb | split; [exact Hc | exact He]].
Qed.

(** C6.  Loading a persisted usage record (a JSON object with a valid,
    non-negative integer cap) whose month field differs from the current
    month returns and persists the record of the current month with
    [cards_used] reset to 0 and the cap preserved.  When the month field is
    the current month, a valid record (non-negative integer counter and
    cap) passes through with [cards_used] and cap unchanged. *)
Theorem load_usage_month_rollover (items : dict) (month : json) (cap : Z) :
  NoDup (dict_keys items) ->
  dict_get K_MONTH items = Some month ->
  dict_get K_CAP items = Some (JInt cap) ->
  (0 <= cap)%Z ->
  let loaded := load_usage DEFAULT_CAP current_month (Stored (JObj items)) in
  (month <> JStr current_month ->
     fst loaded = usage_record 0 cap
     /\ snd loaded = Stored (JObj (usage_record 0 cap)))
  /\ (month = JStr current_month ->
      forall used,
        dict_get K_CARDS_USED items = Some (JInt used) -> (0 <= used)%Z ->
        fst loaded = usage_record used cap
        /\ (snd loaded = Stored (JObj items)
            \/ snd loaded = Stored (JObj (usage_record used cap)))).
Proof.
  intros Hnd Hmonth Hcap Hc loaded.
  destruct (four_keys_shape _ (merge_known_keys items)) as [a [b [c [e Hm]]]].
  destruct (@merged_values items a b c e Hnd Hm) as [Hb [Hcu He]].
  rewrite Hmonth in Hb. rewrite Hcap in He.
  injection Hb as ->. injection He as ->.
  assert (Hv : validate (JObj items) = patched month c (JInt cap))
    by (apply (@validate_of_merged items a month c (JInt cap)); assumption).
  subst loaded. unfold load_usage. rewrite Hv. unfold patched.
  rewrite int_or_JInt, (Z.max_r 0 cap) by assumption.
  split.
  - intros Hne.
    destruct (py_eq month (JStr current_month)) eqn:E;
      [apply py_eq_JStr in E; contradiction|].
    rewrite int_or_JInt, Z.max_id.
    assert (Hneq : py_eq (JObj items) (JObj (usage_record 0 cap)) = false).
    { destruct (py_eq (JObj items) (JObj (usage_record 0 cap))) eqn:P; [|reflexivity].
      destruct (@py_eq_JObj_get _ _ K_MONTH month P (@dict_get_In _ _ _ Hmonth))
        as [w [Hw Hpw]].
      change (dict_get K_MONTH (usage_record 0 cap)) with (Some (JStr current_month)) in Hw.
      injection Hw as <-. congruence. }
    rewrite Hneq. split; reflexivity.
  - intros -> used Hused Hu.
    rewrite Hused in Hcu. injection Hcu as ->.
    assert (E : py_eq (JStr current_month) (JStr current_month) = true)
      by (apply py_eq_JStr; reflexivity).
    rewrite E, int_or_JInt, (Z.max_r 0 used) by assumption.
    destruct (negb _); simpl; auto.
Qed.

End LedgerFacts.

(** A record of October 2026 with 7 of 10 cards used, loaded in November
    2026: the counter is reset, the cap is kept, the file is rewritten. *)
Lemma load_usage_month_rollover_witness :
  let items := [ (K_VERSION, JInt 1); (K_MONTH, JStr (lit "2026-10"));
                 (K_CARDS_USED, JInt 7); (K_CAP, JInt 10) ] in
  let loaded := load_usage 50000 (lit "2026-11") (Stored (JObj items)) in
  fst loaded = usage_record (lit "2026-11") 0 10
  /\ snd loaded = Stored (JObj (usage_record (lit "2026-11") 0 10)).
Proof.
  intros items.
  apply (@load_usage_month_rollover 50000 (lit "2026-11") items
           (JStr (lit "2026-10")) 10).
  - repeat constructor; cbv; intuition discriminate.
  - reflexivity.
  - reflexivity.
  - lia.
  - discriminate.
Defined.

(** C9 fails when the configured default cap is negative: with
    [OPENAI_MONTHLY_CAP=-5] and no usage file (or a file that holds no
    JSON object), [load_usage] returns and persists a cap of -5, and
    [save_usage] of a value that is no dictionary persists it too.  The
    dictionary path clamps the cap with [max(0, ...)]; the default path
    does not. *)
Lemma load_usage_negative_default_cap :
  load_usage (-5) (lit "2026-11") NoFile
  = (usage_record (lit "2026-11") 0 (-5),
     Stored (JObj (usage_record (lit "2026-11") 0 (-5))))
  /\ load_usage (-5) (lit "2026-11") (Stored (JArr []))
     = (usage_record (lit "2026-11") 0 (-5),
        Stored (JObj (usage_record (lit "2026-11") 0 (-5))))
  /\ save_usage (-5) (lit "2026-11") JNull NoFile
     = Stored (JObj (usage_record (lit "2026-11") 0 (-5)))
  /\ dict_get K_CAP (usage_record (lit "2026-11") 0 (-5)) = Some (JInt (-5)).
Proof. vm_compute. repeat split; reflexivity. Qed.

(** Malformed and extraneous values of a stored object are healed. *)
Example load_usage_heals :
  fst (load_usage 50000 (lit "2026-11")
         (Stored (JObj [ (K_CARDS_USED, JStr (lit "-12")); (lit "junk", JNull);
                         (K_CAP, JFloat (FFin (107 # 10))) ])))
  = usage_record (lit "2026-11") 0 10.
Proof. vm_compute. reflexivity. Qed.

(** ** Words *)

(** A word of [split]: non-empty, without whitespace. *)
Definition is_word (w : str) : Prop :=
  w <> [] /\ Forall (fun c => is_space c = false) w.

Definition starts_space (s : str) : bool :=
  match s with
  | c :: _ => is_space c
  | [] => false
  end.

Lemma is_space_SPACE : is_space SPACE = true.
Proof. reflexivity. Qed.

Lemma split_starts_word (s : str) : starts_word s = true -> split s <> [].
Proof.
  destruct s as [|c r]; simpl; [discriminate|].
  intros H. apply negb_true_iff in H. rewrite H.
  destruct (starts_word r); [|discriminate].
  destruct (split r); discriminate.
Qed.

Lemma split_words (s : str) : Forall is_word (split s).
Proof.
  induction s as [|c r IH]; simpl; [constructor|].
  destruct (is_space c) eqn:Ec; [assumption|].
  destruct (starts_word r) eqn:Er.
  - destruct (split r) as [|w ws] eqn:Es.
    + exfalso. now apply (split_starts_word r).
    + simpl. inversion IH as [|? ? [Hw1 Hw2] Hws]; subst.
      constructor; [|assumption]. split; [discriminate|]. now constructor.
  - constructor; [|assumption]. split; [discriminate|]. now repeat constructor.
Qed.

Lemma join_cons (w : str) (ws : list str) :
  join (w :: ws) = match ws with
                   | [] => w
                   | _ :: _ => w ++ SPACE :: join ws
                   end.
Proof. reflexivity. Qed.

Lemma join_nonempty (w : str) (ws : list str) : w <> [] -> join (w :: ws) <> [].
Proof.
  intros Hw. rewrite join_cons. destruct ws; [assumption|].
  destruct w; [congruence | discriminate].
Qed.

Lemma split_space_head (c : N) (s : str) :
  is_space c = true -> split (c :: s) = split s.
Proof. intros H. simpl. now rewrite H. Qed.

Lemma split_word_then (w rest : str) :
  is_word w -> starts_word rest = false -> split (w ++ rest) = w :: split rest.
Proof.
  intros [Hne Hw] Hrest. induction w as [|c w IH]; [congruence|].
  inversion Hw as [|? ? Hc Hw']; subst. simpl. rewrite Hc.
  destruct w as [|d w].
  - simpl. now rewrite Hrest.
  - assert (Hd : is_space d = false) by now inversion Hw'.
    change (starts_word ((d :: w) ++ rest)) with (negb (is_space d)).
    rewrite Hd. simpl negb. cbv iota.
    rewrite IH by (try discriminate; assumption). reflexivity.
Qed.

(** Splitting what [join] made gives the words back. *)
Lemma split_join (ws : list str) : Forall is_word ws -> split (join ws) = ws.
Proof.
  induction ws as [|w ws IH]; intros H; [reflexivity|].
  inversion H as [|? ? Hw Hws]; subst. rewrite join_cons.
  destruct ws as [|w' ws'].
  - rewrite <- (app_nil_r w) at 1. now rewrite split_word_then.
  - rewrite split_word_then by (try assumption; reflexivity).
    rewrite split_space_head by reflexivity. now rewrite IH.
Qed.

Lemma lstrip_join (ws : list str) : Forall is_word ws -> lstrip (join ws) = join ws.
Proof.
  intros H. destruct ws as [|w ws]; [reflexivity|].
  inversion H as [|? ? [Hne Hw] Hws]; subst.
  destruct w as [|c w]; [congruence|]. inversion Hw; subst.
  rewrite join_cons. unfold lstrip.
  destruct ws; simpl; now rewrite H2.
Qed.

Lemma rstrip_cons (c : N) (s : str) :
  rstrip (c :: s) = match rstrip s with
                    | [] => if is_space c then [] else [c]
                    | r' => c :: r'
                    end.
Proof. reflexivity. Qed.

(** Collapsing and right-stripping, in terms of the words. *)
Lemma rstrip_collapse (s : str) (in_run : bool) :
  rstrip (collapse_from in_run s)
  = match split s with
    | [] => []
    | ws => (if starts_space s && negb in_run then [SPACE] else []) ++ join ws
    end.
Proof.
  revert in_run. induction s as [|c r IH]; intros b; [reflexivity|].
  pose proof (split_words r) as Hr.
  simpl collapse_from. simpl split. simpl starts_space.
  destruct (is_space c) eqn:Ec.
  - destruct b.
    + rewrite IH. rewrite !andb_false_r. reflexivity.
    + rewrite rstrip_cons, IH. rewrite andb_false_r.
      destruct (split r) as [|w ws] eqn:Es; [reflexivity|].
      inversion Hr as [|? ? [Hne _] _]; subst.
      pose proof (join_nonempty ws Hne) as Hj.
      remember (join (w :: ws)) as j eqn:Ej.
      destruct j; [congruence | reflexivity].
  - rewrite rstrip_cons, IH. rewrite andb_false_l.
    destruct r as [|d r'].
    + simpl. now rewrite Ec.
    + simpl starts_word. simpl starts_space.
      remember (split (d :: r')) as sp eqn:Esp.
      destruct (is_space d) eqn:Ed; simpl negb; cbv iota.
      * rewrite andb_true_l. simpl negb.
        destruct sp as [|w ws].
        -- simpl. now rewrite Ec.
        -- remember (join (w :: ws)) as j eqn:Ej.
           rewrite (join_cons [c] (w :: ws)). rewrite <- Ej. reflexivity.
      * assert (Hs : sp <> [])
          by (subst sp; apply split_starts_word; simpl; now rewrite Ed).
        destruct sp as [|w ws]; [congruence|].
        inversion Hr as [|? ? [Hne _] _]; subst.
        pose proof (join_nonempty ws Hne) as Hj.
        change (cons_head c (w :: ws)) with ((c :: w) :: ws). cbv iota.
        rewrite andb_false_l. cbv iota.
        change ([] ++ join (w :: ws)) with (join (w :: ws)).
        change ([] ++ join ((c :: w) :: ws)) with (join ((c :: w) :: ws)).
        rewrite (join_cons (c :: w) ws).
        remember (join (w :: ws)) as j eqn:Ej.
        destruct j as [|x xs]; [congruence|].
        rewrite Ej, join_cons. destruct ws; reflexivity.
Qed.

Lemma strip_collapse (s : str) : strip (collapse_ws s) = join (split s).
Proof.
  unfold strip, collapse_ws. rewrite rstrip_collapse.
  pose proof (split_words s) as Hs.
  destruct (split s) as [|w ws] eqn:Es; [reflexivity|].
  destruct (starts_space s && negb false).
  - change ([SPACE] ++ join (w :: ws)) with (SPACE :: join (w :: ws)).
    change (lstrip (SPACE :: join (w :: ws))) with (lstrip (join (w :: ws))).
    now apply lstrip_join.
  - now apply lstrip_join.
Qed.

Lemma split_replace_nbsp (s : str) : split (replace_nbsp s) = split s.
Proof.
  assert (Hsp : forall c, is_space (if N.eqb c NBSP then SPACE else c) = is_space c).
  { intros c. destruct (N.eqb c NBSP) eqn:E; [|reflexivity].
    apply N.eqb_eq in E. now subst. }
  assert (Hsw : forall r, starts_word (replace_nbsp r) = starts_word r).
  { intros [|d r]; simpl; [reflexivity|]. now rewrite Hsp. }
  induction s as [|c r IH]; [reflexivity|].
  unfold replace_nbsp in *. simpl. rewrite Hsp.
  destruct (is_space c) eqn:Ec; [assumption|].
  fold (replace_nbsp r). rewrite Hsw. unfold replace_nbsp. rewrite IH.
  destruct (N.eqb c NBSP) eqn:E; [|reflexivity].
  apply N.eqb_eq in E. subst. discriminate.
Qed.

(** The whitespace stages of [clean_text]. *)
Definition normalize_ws (s : str) : str := strip (collapse_ws (replace_nbsp s)).

Lemma normalize_ws_join (s : str) : normalize_ws s = join (split s).
Proof. unfold normalize_ws. now rewrite strip_collapse, split_replace_nbsp. Qed.

Lemma clean_text_join (text : str) :
  clean_text text = join (split (sub_citations text)).
Proof. unfold clean_text. apply normalize_ws_join. Qed.

Lemma normalize_ws_idempotent (s : str) :
  normalize_ws (normalize_ws s) = normalize_ws s.
Proof.
  rewrite !normalize_ws_join. now rewrite split_join by apply split_words.
Qed.

Lemma split_clean_text (text : str) :
  split (clean_text text) = split (sub_citations text).
Proof. rewrite clean_text_join. apply split_join, split_words. Qed.

(** ** Text normalizer *)

Lemma drop_while_length (p : N -> bool) (s : str) :
  (length (drop_while p s) <= length s)%nat.
Proof.
  induction s as [|c r IH]; simpl; [lia|]. destruct (p c); simpl; lia.
Qed.

Lemma rstrip_length (s : str) : (length (rstrip s) <= length s)%nat.
Proof.
  induction s as [|c r IH]; [simpl; lia|]. rewrite rstrip_cons.
  destruct (rstrip r); [destruct (is_space c)|]; simpl in *; lia.
Qed.

Lemma collapse_from_length (b : bool) (s : str) :
  (length (collapse_from b s) <= length s)%nat.
Proof.
  revert b. induction s as [|c r IH]; intros b; simpl; [lia|].
  pose proof (IH true) as Ht. pose proof (IH false) as Hf.
  destruct (is_space c); [destruct b|]; simpl; lia.
Qed.

Lemma normalize_ws_length (s : str) : (length (normalize_ws s) <= length s)%nat.
Proof.
  unfold normalize_ws, strip, lstrip, collapse_ws.
  pose proof (drop_while_length is_space
                (rstrip (collapse_from false (replace_nbsp s)))) as H1.
  pose proof (rstrip_length (collapse_from false (replace_nbsp s))) as H2.
  pose proof (collapse_from_length false (replace_nbsp s)) as H3.
  unfold replace_nbsp in *. rewrite length_map in H3. lia.
Qed.

Lemma sub_citations_from_length (k : nat) (s : str) :
  (length (sub_citations_from k s) <= length s)%nat.
Proof.
  revert k. induction s as [|c r IH]; intros k; [simpl; lia|].
  cbn [sub_citations_from]. destruct k as [|k].
  - destruct (match_citation (c :: r)) as [n|].
    + specialize (IH (Nat.pred n)). simpl. lia.
    + specialize (IH 0%nat). simpl. lia.
  - specialize (IH k). simpl. lia.
Qed.

(** Without a marker the substitution changes nothing; with one it
    removes at least one character. *)
Lemma sub_citations_none (s : str) : has_citation s = false -> sub_citations s = s.
Proof.
  unfold sub_citations. induction s as [|c r IH]; [reflexivity|].
  cbn [has_citation sub_citations_from].
  destruct (match_citation (c :: r)); [discriminate|].
  intros H. now rewrite IH.
Qed.

Lemma sub_citations_shrinks (s : str) :
  has_citation s = true -> (length (sub_citations s) < length s)%nat.
Proof.
  unfold sub_citations. induction s as [|c r IH]; [discriminate|].
  cbn [has_citation sub_citations_from].
  destruct (match_citation (c :: r)) as [n|].
  - intros _. pose proof (sub_citations_from_length (Nat.pred n) r). simpl. lia.
  - intros H. specialize (IH H). simpl. lia.
Qed.

(** Without a marker left in the normalized text, a second pass changes
    nothing. *)
Lemma clean_text_fixed_without_citation (s : str) :
  has_citation (clean_text s) = false -> clean_text (clean_text s) = clean_text s.
Proof.
  intros Hc. rewrite (clean_text_join (clean_text s)).
  rewrite (sub_citations_none _ Hc). rewrite (clean_text_join s).
  now rewrite split_join by apply split_words.
Qed.

(** C4 (as amended).  [clean_text] is a function of its argument alone,
    and normalizing twice equals normalizing once exactly for the inputs
    whose normalized text holds no bracketed numeric citation marker; the
    whitespace stages (non-breaking spaces, runs of whitespace, trimming)
    are idempotent on every input. *)
Theorem clean_text_idempotent_iff (s : str) :
  (clean_text (clean_text s) = clean_text s <-> has_citation (clean_text s) = false)
  /\ normalize_ws (normalize_ws s) = normalize_ws s
  /\ clean_text s = normalize_ws (sub_citations s).
Proof.
  split; [|split; [apply normalize_ws_idempotent | reflexivity]].
  split.
  - intros Hid. destruct (has_citation (clean_text s)) eqn:Hc; [|reflexivity].
    exfalso. apply sub_citations_shrinks in Hc.
    pose proof (normalize_ws_length (sub_citations (clean_text s))) as Hl.
    change (normalize_ws (sub_citations (clean_text s)))
      with (clean_text (clean_text s)) in Hl.
    rewrite Hid in Hl. lia.
  - apply clean_text_fixed_without_citation.
Qed.

(** C4 as stated fails on a marker that removing an inner marker
    uncovers: the first pass turns "[[1]2]" into "[2]", the second pass
    removes that. *)
Lemma clean_text_not_idempotent :
  clean_text (lit "[[1]2]") = lit "[2]"
  /\ clean_text (clean_text (lit "[[1]2]")) = []
  /\ clean_text (clean_text (lit "[[1]2]")) <> clean_text (lit "[[1]2]").
Proof. vm_compute. repeat split; try reflexivity. discriminate. Qed.

Example clean_text_ex :
  clean_text (lit "  Cells [12] divide  [ 3 ].  Fast ") = lit "Cells divide . Fast".
Proof. vm_compute. reflexivity. Qed.

(** ** Chunker *)

Lemma py_slice_nonneg (A : Type) (l : list A) (i j : Z) :
  (0 <= i)%Z -> (i <= j)%Z ->
  py_slice l i j = firstn (Z.to_nat (j - i)) (skipn (Z.to_nat i) l).
Proof.
  intros Hi Hj. unfold py_slice, slice_index.
  destruct (i <? 0)%Z eqn:E1; [lia|]. destruct (j <? 0)%Z eqn:E2; [lia|].
  set (n := Z.of_nat (length l)).
  destruct (Z_le_gt_dec i n) as [Hin|Hin].
  - rewrite (Z.min_l i n) by lia.
    destruct (Z_le_gt_dec j n) as [Hjn|Hjn].
    + now rewrite (Z.min_l j n) by lia.
    + rewrite (Z.min_r j n) by lia.
      rewrite !firstn_all2; [reflexivity| |]; rewrite length_skipn; subst n; lia.
  - rewrite (Z.min_r i n), (Z.min_r j n) by lia.
    rewrite !skipn_all2 by (subst n; lia). now rewrite !firstn_nil.
Qed.

Lemma Forall_firstn_keep (A : Type) (P : A -> Prop) (k : nat) (l : list A) :
  Forall P l -> Forall P (firstn k l).
Proof.
  revert k. induction l as [|a l IH]; intros [|k] H; simpl; try constructor.
  - now inversion H.
  - apply IH. now inversion H.
Qed.

Lemma Forall_skipn_keep (A : Type) (P : A -> Prop) (k : nat) (l : list A) :
  Forall P l -> Forall P (skipn k l).
Proof.
  revert k. induction l as [|a l IH]; intros [|k] H; simpl; try assumption.
  apply IH. now inversion H.
Qed.

Lemma rstrip_keeps (c : N) (s : str) :
  In c s -> is_space c = false -> In c (rstrip s).
Proof.
  intros Hin Hc. induction s as [|a r IH]; [destruct Hin|].
  rewrite rstrip_cons. destruct Hin as [->|Hin].
  - rewrite Hc. destruct (rstrip r); now left.
  - specialize (IH Hin). destruct (rstrip r); [destruct IH | now right].
Qed.

Lemma lstrip_keeps (c : N) (s : str) :
  In c s -> is_space c = false -> In c (lstrip s).
Proof.
  unfold lstrip. intros Hin Hc. induction s as [|a r IH]; [destruct Hin|].
  simpl. destruct (is_space a) eqn:Ea; [|assumption].
  destruct Hin as [->|Hin]; [congruence | now apply IH].
Qed.

Lemma strip_join_nonempty (ws : list str) :
  Forall is_word ws -> ws <> [] -> nonempty (strip (join ws)) = true.
Proof.
  intros H Hne. destruct ws as [|w ws]; [congruence|].
  inversion H as [|? ? [Hw Hsp] _]; subst.
  destruct w as [|c w]; [congruence|]. inversion Hsp; subst.
  assert (Hin : In c (strip (join ((c :: w) :: ws)))).
  { unfold strip. apply lstrip_keeps; [|assumption].
    apply rstrip_keeps; [|assumption].
    rewrite join_cons. destruct ws; now left. }
  destruct (strip _); [destruct Hin | reflexivity].
Qed.

(** The step of the windows and the [k]-th window of a word list. *)
Definition chunk_step (target_words overlap : Z) : Z := Z.max 1 (target_words - overlap).

Definition window (words : list str) (target_words overlap : Z) (k : nat) : list str :=
  py_slice words (Z.of_nat k * chunk_step target_words overlap)
           (Z.of_nat k * chunk_step target_words overlap + target_words).

Section ChunkLoop.

Variable words : list str.
Variables T O : Z.
Hypothesis words_ok : Forall is_word words.
Hypothesis T_pos : (1 <= T)%Z.

Local Abbreviation n := (Z.of_nat (length words)).
Local Abbreviation step := (chunk_step T O).

Lemma slice_at (i : Z) :
  (0 <= i)%Z ->
  py_slice words i (i + T) = firstn (Z.to_nat T) (skipn (Z.to_nat i) words).
Proof.
  intros Hi. rewrite py_slice_nonneg by lia. do 2 f_equal. lia.
Qed.

Lemma slice_words (i : Z) : Forall is_word (py_slice words i (i + T)).
Proof.
  unfold py_slice. now apply Forall_firstn_keep, Forall_skipn_keep.
Qed.

Lemma slice_nonempty (i : Z) :
  (0 <= i < n)%Z -> py_slice words i (i + T) <> [].
Proof.
  intros Hi. rewrite slice_at by lia.
  intros H. apply (f_equal (@length _)) in H.
  rewrite length_firstn, length_skipn in H. simpl in H. lia.
Qed.

(** The loop, with fuel for the words that remain, yields the windows that
    start at [i], [i + step], ... below [n]: it stops because the words
    are exhausted, not the fuel. *)
Lemma chunk_loop_spec (fuel : nat) (i : Z) :
  (0 <= i)%Z -> (n - i <= Z.of_nat fuel)%Z ->
  exists m : nat,
    chunk_loop fuel words T O i
    = map (fun k => join (py_slice words (i + Z.of_nat k * step)
                                   (i + Z.of_nat k * step + T))) (seq 0 m)
    /\ (n <= i -> m = 0%nat)%Z
    /\ (i < n -> i + (Z.of_nat m - 1) * step < n <= i + Z.of_nat m * step)%Z.
Proof.
  assert (Hstep : (1 <= step)%Z) by (unfold chunk_step; lia).
  revert i. induction fuel as [|fuel IH]; intros i Hi Hfuel.
  - exists 0%nat. repeat split; try reflexivity; lia.
  - cbn [chunk_loop]. destruct (i <? n)%Z eqn:Ei.
    + destruct (IH (i + step)%Z) as [m [Hm [Hz Hb]]]; [lia | lia |].
      fold step. rewrite Hm.
      rewrite strip_join_nonempty
        by (try apply slice_words; apply slice_nonempty; lia).
      exists (S m). split; [|split].
      * rewrite <- cons_seq, <- seq_shift, map_cons, map_map.
        f_equal; [do 2 f_equal; simpl; lia|].
        apply map_ext. intros k. do 2 f_equal; lia.
      * lia.
      * intros _. destruct (Z_lt_dec (i + step) n) as [Hlt|Hge].
        -- specialize (Hb Hlt). rewrite Nat2Z.inj_succ. nia.
        -- rewrite Hz by lia. lia.
    + exists 0%nat. repeat split; try reflexivity; lia.
Qed.

End ChunkLoop.

(** The word positions that the [k]-th window covers: from [window_lo]
    up to, not including, [window_hi]. *)
Definition window_lo (T O : Z) (k : nat) : Z := Z.of_nat k * chunk_step T O.

Definition window_hi (n T O : Z) (k : nat) : Z := Z.min (window_lo T O k + T) n.

(** The number of positions that the windows [k] and [k + 1] both cover. *)
Definition shared_positions (n T O : Z) (k : nat) : Z :=
  window_hi n T O k - window_lo T O (S k).

Lemma window_content (words : list str) (T O : Z) (k : nat) :
  (1 <= T)%Z ->
  (window_lo T O k <= Z.of_nat (length words))%Z ->
  window words T O k
  = firstn (Z.to_nat (window_hi (Z.of_nat (length words)) T O k - window_lo T O k))
           (skipn (Z.to_nat (window_lo T O k)) words).
Proof.
  intros HT Hlo. unfold window, window_hi, window_lo in *.
  assert (Hs : (1 <= chunk_step T O)%Z) by (unfold chunk_step; lia).
  set (lo := (Z.of_nat k * chunk_step T O)%Z) in *.
  assert (Hlo0 : (0 <= lo)%Z) by (subst lo; nia).
  rewrite py_slice_nonneg by lia.
  destruct (Z_le_gt_dec (lo + T) (Z.of_nat (length words))) as [H|H].
  - rewrite Z.min_l by lia. reflexivity.
  - rewrite Z.min_r by lia.
    rewrite !firstn_all2; [reflexivity| |]; rewrite length_skipn; lia.
Qed.

Lemma window_overlap (words : list str) (T O : Z) (k : nat) :
  (0 <= O < T)%Z ->
  skipn (Z.to_nat (chunk_step T O)) (window words T O k)
  = firstn (Z.to_nat O) (window words T O (S k)).
Proof.
  intros H. unfold window.
  assert (Hs : chunk_step T O = (T - O)%Z) by (unfold chunk_step; lia).
  set (s := chunk_step T O) in *.
  rewrite !py_slice_nonneg by nia.
  replace (Z.of_nat k * s + T - Z.of_nat k * s)%Z with T by lia.
  replace (Z.of_nat (S k) * s + T - Z.of_nat (S k) * s)%Z with T by lia.
  rewrite skipn_firstn_comm, skipn_skipn, firstn_firstn.
  replace (Z.to_nat T - Z.to_nat s)%nat with (Z.to_nat O) by lia.
  replace (Init.Nat.min (Z.to_nat O) (Z.to_nat T)) with (Z.to_nat O) by lia.
  do 2 f_equal. nia.
Qed.

(** C3 (as amended).  For a text of [n] words after normalization, a
    target [T] and an overlap [O] with [0 <= O < T], [chunk_by_words]
    returns the windows 0, 1, ..., m - 1 joined by spaces, where window
    [k] holds the words at the positions from [k (T - O)] up to
    [min(k (T - O) + T, n)] and [m] is the least number with
    [n <= m (T - O)]: the first window starts at word 0, the windows
    advance by [T - O] words, and every word position lies in a window.
    Windows [k] and [k + 1] share the words that end the one and begin the
    other; they are [min(O, n - (k + 1)(T - O))] many, hence exactly [O]
    if and only if window [k] is a full window of [T] words.  When
    [2 O <= T] every pair of consecutive windows but the last pair is of
    that kind. *)
Theorem chunk_by_words_windows (text : str) (T O : Z) :
  (0 <= O < T)%Z ->
  let words := split (clean_text text) in
  let n := Z.of_nat (length words) in
  exists m : nat,
    chunk_by_words text T O = map (fun k => join (window words T O k)) (seq 0 m)
    /\ ((Z.of_nat m - 1) * (T - O) < n <= Z.of_nat m * (T - O))%Z
    /\ (forall k, (k < m)%nat ->
          window_lo T O k = (Z.of_nat k * (T - O))%Z
          /\ (window_lo T O k < window_hi n T O k)%Z
          /\ window words T O k
             = firstn (Z.to_nat (window_hi n T O k - window_lo T O k))
                      (skipn (Z.to_nat (window_lo T O k)) words)
          /\ split (join (window words T O k)) = window words T O k)
    /\ (forall j, (0 <= j < n)%Z ->
          exists k, (k < m)%nat /\ (window_lo T O k <= j < window_hi n T O k)%Z)
    /\ (forall k, (S k < m)%nat ->
          skipn (Z.to_nat (T - O)) (window words T O k)
          = firstn (Z.to_nat O) (window words T O (S k))
          /\ shared_positions n T O k = Z.min O (n - window_lo T O (S k))
          /\ (shared_positions n T O k = O <-> (window_lo T O k + T <= n)%Z))
    /\ ((2 * O <= T)%Z ->
        forall k, (S (S k) < m)%nat -> shared_positions n T O k = O).
Proof.
  intros HTO. cbv zeta. unfold chunk_by_words.
  generalize (split_words (clean_text text)).
  generalize (split (clean_text text)). intros words Hw.
  set (n := Z.of_nat (length words)).
  assert (Hs : chunk_step T O = (T - O)%Z) by (unfold chunk_step; lia).
  assert (Hlo : forall k, window_lo T O k = (Z.of_nat k * (T - O))%Z)
    by (intros k; unfold window_lo; now rewrite Hs).
  destruct (@chunk_loop_spec words T O Hw ltac:(lia) (length words) 0%Z)
    as [m [Hm [Hz Hb]]]; [lia | lia |].
  rewrite Hs in Hb. fold n in Hz, Hb.
  assert (Hbound : ((Z.of_nat m - 1) * (T - O) < n <= Z.of_nat m * (T - O))%Z).
  { destruct (Z_lt_dec 0 n) as [Hn|Hn]; [specialize (Hb Hn); lia|].
    rewrite Hz by lia. lia. }
  assert (Hshared : forall k, (S k < m)%nat ->
            shared_positions n T O k = Z.min O (n - window_lo T O (S k))).
  { intros k Hk. unfold shared_positions, window_hi. rewrite !Hlo.
    rewrite Nat2Z.inj_succ. nia. }
  exists m. split; [|split; [exact Hbound|split; [|split; [|split]]]].
  - assert (Hmap : chunk_loop (length words) words T O 0
                   = map (fun k => join (window words T O k)) (seq 0 m)).
    { rewrite Hm. apply map_ext. intros k. unfold window. do 2 f_equal; lia. }
    destruct words as [|w0 ws].
    + assert (m = 0%nat) by (apply Hz; subst n; simpl; lia). subst m. reflexivity.
    + exact Hmap.
  - intros k Hk.
    assert (Hlt : (window_lo T O k < n)%Z) by (rewrite Hlo; nia).
    split; [apply Hlo|]. split; [unfold window_hi; lia|].
    split; [apply window_content; lia|].
    apply split_join. unfold window, py_slice.
    now apply Forall_firstn_keep, Forall_skipn_keep.
  - intros j Hj. exists (Z.to_nat (j / (T - O))).
    assert (Hq : (0 <= j / (T - O))%Z) by (apply Z.div_pos; lia).
    pose proof (Z.mul_div_le j (T - O) ltac:(lia)) as H1.
    pose proof (Z.mul_succ_div_gt j (T - O) ltac:(lia)) as H2.
    unfold window_hi. rewrite Hlo, Z2Nat.id by assumption.
    split; [|nia].
    apply Nat2Z.inj_lt. rewrite Z2Nat.id by assumption. nia.
  - intros k Hk. split; [|split].
    + rewrite <- Hs. now apply window_overlap.
    + now apply Hshared.
    + rewrite (Hshared k Hk), !Hlo, Nat2Z.inj_succ. lia.
  - intros H2 k Hk. rewrite Hshared by lia. rewrite Hlo, Nat2Z.inj_succ.
    assert ((Z.of_nat k + 2) * (T - O) < n)%Z; nia.
Qed.

(** Three words, the target of 300 words that [build_apkg] uses at least,
    and the overlap of 120 words. *)
Lemma chunk_by_words_windows_witness :
  exists m : nat,
    chunk_by_words (lit "a b c") 300 120
    = map (fun k => join (window (split (clean_text (lit "a b c"))) 300 120 k)) (seq 0 m)
    /\ ((Z.of_nat m - 1) * (300 - 120) < 3 <= Z.of_nat m * (300 - 120))%Z.
Proof.
  destruct (@chunk_by_words_windows (lit "a b c") 300 120 ltac:(lia))
    as [m [H1 [H2 _]]].
  exists m. split; [exact H1 | exact H2].
Defined.

(** C3 as stated fails for a target below twice the overlap: with the
    target 121 and the overlap 120 the windows of "a b c" start at every
    word; the chunks 0 and 1, neither of them the final chunk, share two
    words, not 120. *)
Lemma chunk_by_words_short_windows :
  chunk_by_words (lit "a b c") 121 120 = [lit "a b c"; lit "b c"; lit "c"]
  /\ skipn (Z.to_nat (chunk_step 121 120))
           (window (split (clean_text (lit "a b c"))) 121 120 0)
     = [lit "b"; lit "c"]
  /\ firstn (Z.to_nat 120) (window (split (clean_text (lit "a b c"))) 121 120 1)
     = [lit "b"; lit "c"]
  /\ shared_positions 3 121 120 0 = 2%Z.
Proof. vm_compute. repeat split; reflexivity. Qed.

Example chunk_by_words_ex :
  chunk_by_words (lit "a b c d e f g") 3 1
  = [lit "a b c"; lit "c d e"; lit "e f g"; lit "g"].
Proof. vm_compute. reflexivity. Qed.

(** ** Fact deduplication in the exhaustive pipeline *)









Section Facts.

Variable OPENAI_API_KEY : str.
Variable completion : nat -> option str.

Local Abbreviation extract := (extract_loop OPENAI_API_KEY completion).
Local Abbreviation ask_facts := (ai_extract_facts OPENAI_API_KEY completion).






End Facts.

(** JSON text in examples is written with an apostrophe for every double
    quote. *)
Definition json_text (s : string) : str :=
  map (fun c => if N.eqb c 39 then 34%N else c) (lit s).



Example normalize_fact_ex :
  normalize_fact (lit "The sky is blue.") = lit "the sky is blue"
  /\ normalize_fact (lit "the  SKY is blue") = lit "the sky is blue".
Proof. vm_compute. split; reflexivity. Qed.

(** ** Yield model *)
Lemma Qltb_false (a b : Q) : Qltb a b = false <-> (b <= a)%Q.
Proof. unfold Qltb. rewrite negb_false_iff. apply Qle_bool_iff. Qed.

Lemma Qltb_true (a b : Q) : Qltb a b = true <-> (a < b)%Q.
Proof.
  unfold Qltb. rewrite negb_true_iff. split.
  - intros H. apply Qnot_le_lt. intros Hle. apply Qle_bool_iff in Hle. congruence.
  - intros H. destruct (Qle_bool b a) eqn:E; [|reflexivity].
    apply Qle_bool_iff in E. exfalso. apply (Qlt_not_le _ _ H E).
Qed.

Lemma clamp01_range (y : Q) : (0 <= clamp01 y <= 1)%Q.
Proof.
  unfold clamp01, py_maxQ, py_minQ.
  destruct (Qltb y 1) eqn:E1.
  - apply Qltb_true in E1. destruct (Qltb 0 y) eqn:E2.
    + apply Qltb_true in E2. lra.
    + lra.
  - apply Qltb_false in E1. destruct (Qltb 0 1) eqn:E2; lra.
Qed.

Lemma cards_per_1000_words_range (y : Q) : (6 <= cards_per_1000_words y <= 18)%Q.
Proof.
  unfold cards_per_1000_words. pose proof (clamp01_range y). lra.
Qed.

Lemma py_round_nonneg (x : Q) : (0 <= x)%Q -> (0 <= py_round x)%Z.
Proof.
  intros H. unfold py_round.
  assert (Hf : (0 <= Qfloor x)%Z).
  { change 0%Z with (Qfloor 0). now apply Qfloor_resp_le. }
  destruct (Qcompare _ _); [destruct (Z.even _)| |]; lia.
Qed.

Lemma estimate_total_cards_nonneg (text : str) (approx : Z) (y : Q) :
  (0 <= estimate_total_cards text approx y)%Z.
Proof.
  unfold estimate_total_cards.
  assert (0 <= py_round (inject_Z (word_count text) / 1000 * cards_per_1000_words y))%Z; [|lia].
  apply py_round_nonneg.
  pose proof (cards_per_1000_words_range y) as Hd.
  apply Qmult_le_0_compat; [|lra].
  unfold Qdiv. apply Qmult_le_0_compat; [|easy].
  unfold word_count. change 0%Q with (inject_Z 0). rewrite <- Zle_Qle. lia.
Qed.

(** ** The run of [build_apkg]: cap and ledger *)

(** What [save_usage] persists of a sound record that was loaded in the
    month [loaded], when the clock shows [month] at the save: the record
    itself in the same month, and after a change of month the record of
    the new month with the counter 0 and the cap kept. *)
Definition rolled (loaded month : str) (used cap : Z) : dict :=
  usage_record month (if str_eqb loaded month then used else 0%Z) cap.

Lemma validate_rolled (default_cap : Z) (loaded month : str) (used cap : Z) :
  (0 <= used)%Z -> (0 <= cap)%Z ->
  _validate_and_patch_usage default_cap month (JObj (usage_record loaded used cap))
  = rolled loaded month used cap.
Proof.
  intros Hu Hc.
  assert (Hm : merge_known (usage_record loaded used cap) (_usage_defaults default_cap month)
               = usage_record loaded used cap) by reflexivity.
  rewrite (@validate_of_merged default_cap month _ _ _ _ _ Hm). unfold patched, rolled.
  change (py_eq (JStr loaded) (JStr month)) with (str_eqb loaded month).
  destruct (str_eqb loaded month); simpl int_or; now rewrite ?Z.max_r, ?Z.max_id.
Qed.


(** Reading the history of a run, oldest event first, as a ledger: the
    state is the number of cards debited so far and the number accepted
    since.  A request to the service may only be sent when every accepted
    card has been debited; a save must follow at least one accepted card
    and persist, when it is made in the month [loaded] of the record of
    the run, the counter at the start of the run plus all cards accepted
    so far, and the counter 0 when it is made in another month. *)
Definition ledger_step (loaded : str) (used0 : Z) (e : event) (s : option (Z * Z))
  : option (Z * Z) :=
  match s with
  | None => None
  | Some (debited, pending) =>
      match e with
      | Called _ => if (pending =? 0)%Z then Some (debited, 0%Z) else None
      | Added _ => Some (debited, (pending + 1)%Z)
      | Saved d =>
          match dict_get K_MONTH d, dict_get K_CARDS_USED d with
          | Some (JStr month), Some (JInt u) =>
              let due :=
                if str_eqb loaded month then (used0 + debited + pending)%Z else 0%Z in
              if (0 <? pending)%Z && (u =? due)%Z
              then Some ((debited + pending)%Z, 0%Z) else None
          | _, _ => None
          end
      end
  end.

Definition ledger_state (loaded : str) (used0 : Z) (trace : list event) : option (Z * Z) :=
  fold_right (ledger_step loaded used0) (Some (0%Z, 0%Z)) trace.

Lemma ledger_step_saved (loaded month : str) (used0 d p cap : Z) :
  (0 < p)%Z ->
  ledger_step loaded used0 (Saved (rolled loaded month (used0 + d + p) cap)) (Some (d, p))
  = Some ((d + p)%Z, 0%Z).
Proof.
  intros Hp. unfold rolled.
  set (u := if str_eqb loaded month then (used0 + d + p)%Z else 0%Z).
  assert (Hm : dict_get K_MONTH (usage_record month u cap) = Some (JStr month))
    by reflexivity.
  assert (Hu : dict_get K_CARDS_USED (usage_record month u cap) = Some (JInt u))
    by reflexivity.
  unfold ledger_step. rewrite Hm, Hu. subst u.
  replace (0 <? p)%Z with true by lia.
  destruct (str_eqb loaded month); now rewrite Z.eqb_refl.
Qed.

Definition is_failure (o : outcome) : Prop := exists status why, o = Failure status why.

(** The state after one request to the completion service. *)
Definition called (st : run) : run :=
  {| calls := S (calls st);
     usage_file := usage_file st;
     deck := deck st;
     cards_added := cards_added st;
     usage := usage st;
     trace := Called (calls st) :: trace st |}.

Section Run.

Variable OPENAI_API_KEY : str.
Variable DEFAULT_CAP : Z.
Variable current_month : str.
Variable saving_month : nat -> str.
Variable completion : nat -> option str.

(** The usage file, the counter and the cap when the pipeline starts. *)
Variable file0 : file_state.
Variables used0 cap : Z.
Hypothesis used0_nonneg : (0 <= used0)%Z.
Hypothesis cap_nonneg : (0 <= cap)%Z.

Local Abbreviation record := (usage_record current_month).

(** The invariant of the pipelines between two batches: the record in
    memory is the loaded one plus the cards added, the deck holds the
    cards added, at most [limit], every one of them is debited, and as
    soon as a card was added the file holds what the last save made of
    the record in memory, in the month the clock showed then. *)
Definition inv (limit : Z) (st : run) : Prop :=
  usage st = record (used0 + cards_added st) cap
  /\ (0 <= cards_added st <= limit)%Z
  /\ Z.of_nat (length (deck st)) = cards_added st
  /\ ledger_state current_month used0 (trace st) = Some (cards_added st, 0%Z)
  /\ ((0 < cards_added st)%Z ->
      exists n, (1 <= n <= calls st)%nat
        /\ usage_file st
           = Stored (JObj (rolled current_month (saving_month n)
                                  (used0 + cards_added st) cap)))
  /\ (cards_added st = 0%Z -> usage_file st = file0)
  /\ (cards_added st = 0%Z \/ (1 <= calls st)%nat).

(** The state within a batch, [k] cards after the state [st0]. *)
Definition mid (limit k : Z) (st0 st1 : run) : Prop :=
  cards_added st1 = (cards_added st0 + k)%Z
  /\ (cards_added st1 <= limit)%Z
  /\ Z.of_nat (length (deck st1)) = cards_added st1
  /\ ledger_state current_month used0 (trace st1) = Some (cards_added st0, k)
  /\ usage st1 = usage st0
  /\ usage_file st1 = usage_file st0
  /\ calls st1 = calls st0.

(** What a step of the handler must establish: when it goes on, [Q]
    holds; when it leaves the handler, it does so with an error response
    and the invariant. *)
Definition post (limit : Z) (A : Type) (r : step A * run) (Q : A -> run -> Prop) : Prop :=
  match r with
  | (Next a, st') => Q a st'
  | (Stop o, st') => inv limit st' /\ is_failure o
  end.

Lemma post_bind (limit : Z) (A B : Type) (m : M A) (k : A -> M B) (st : run)
    (Q : B -> run -> Prop) :
  post limit (m st) (fun a st' => post limit (k a st') Q) -> post limit (bind m k st) Q.
Proof.
  unfold post, bind. destruct (m st) as [[a|o] st']; tauto.
Qed.

Lemma post_weaken (limit : Z) (A : Type) (r : step A * run) (Q Q' : A -> run -> Prop) :
  (forall a st', Q a st' -> Q' a st') -> post limit r Q -> post limit r Q'.
Proof.
  unfold post. intros H. destruct r as [[a|o] st']; auto.
Qed.

Lemma inv_called (limit : Z) (st : run) : inv limit st -> inv limit (called st).
Proof.
  intros [Hu [Hc [Hd [Hl [Hf [Hz Hn]]]]]]. unfold inv, called.
  cbn [usage cards_added deck trace usage_file calls].
  split; [assumption|]. split; [assumption|]. split; [assumption|].
  split; [unfold ledger_state in *; simpl; now rewrite Hl|].
  split; [|split; [assumption | right; lia]].
  intros Hpos. destruct (Hf Hpos) as [n [Hn1 Hn2]]. exists n. split; [lia | assumption].
Qed.

Lemma inv_limit (limit limit' : Z) (st : run) :
  inv limit st -> (cards_added st <= limit')%Z -> inv limit' st.
Proof.
  intros [Hu [Hc [Hd [Hl [Hf [Hz Hn]]]]]] H. unfold inv.
  repeat split; try assumption; lia.
Qed.

Lemma post_completion_state (st : run) :
  snd (post_completion completion st) = called st.
Proof. unfold post_completion. destruct (completion (calls st)); reflexivity. Qed.

(** Each of the three calls leaves the state alone or sends one request. *)
Definition one_request (A : Type) (call : run -> result A * run) : Prop :=
  forall st, snd (call st) = st \/ snd (call st) = called st.

Lemma ai_extract_facts_request (chunk : str) (max_facts : Z) :
  one_request (ai_extract_facts OPENAI_API_KEY completion chunk max_facts).
Proof.
  intros st. unfold ai_extract_facts.
  destruct (negb (nonempty OPENAI_API_KEY)); [now left|]. right.
  rewrite <- post_completion_state. now destruct (post_completion completion st).
Qed.

Lemma ai_cards_from_facts_request (facts modes : list str) :
  one_request (ai_cards_from_facts OPENAI_API_KEY completion facts modes).
Proof.
  intros st. unfold ai_cards_from_facts.
  destruct (negb (nonempty facts)); [now left|].
  destruct (negb (nonempty OPENAI_API_KEY)); [now left|]. right.
  rewrite <- post_completion_state. now destruct (post_completion completion st).
Qed.

Lemma ai_generate_batch_request (chunk : str) (n : Z) (modes : list str) (y : Q) :
  one_request (ai_generate_batch OPENAI_API_KEY completion chunk n modes y).
Proof.
  intros st. unfold ai_generate_batch.
  destruct (negb (nonempty OPENAI_API_KEY)); [now left|]. right.
  rewrite <- post_completion_state. now destruct (post_completion completion st).
Qed.

(** A call that returns cards has sent a request, or returns no card. *)
Definition cards_on_request (call : run -> result (list card) * run) : Prop :=
  forall st cards, fst (call st) = Ok cards -> cards = [] \/ snd (call st) = called st.

Lemma ai_cards_from_facts_on_request (facts modes : list str) :
  cards_on_request (ai_cards_from_facts OPENAI_API_KEY completion facts modes).
Proof.
  intros st cards. unfold ai_cards_from_facts.
  destruct (negb (nonempty facts)); [intros H; left; now injection H as <-|].
  destruct (negb (nonempty OPENAI_API_KEY)); [discriminate|]. intros _. right.
  rewrite <- post_completion_state. now destruct (post_completion completion st).
Qed.

Lemma ai_generate_batch_on_request (chunk : str) (n : Z) (modes : list str) (y : Q) :
  cards_on_request (ai_generate_batch OPENAI_API_KEY completion chunk n modes y).
Proof.
  intros st cards. unfold ai_generate_batch.
  destruct (negb (nonempty OPENAI_API_KEY)); [discriminate|]. intros _. right.
  rewrite <- post_completion_state. now destruct (post_completion completion st).
Qed.

Lemma try_ai_spec (limit : Z) (A : Type) (call : run -> result A * run)
    (why : exn -> failure) (st : run) :
  one_request call -> inv limit st ->
  post limit (try_ai call why st)
       (fun a st' => inv limit st' /\ cards_added st' = cards_added st
                     /\ fst (call st) = Ok a /\ st' = snd (call st)).
Proof.
  intros Hreq Hinv. unfold post, try_ai.
  assert (Hst : inv limit (snd (call st)) /\ cards_added (snd (call st)) = cards_added st).
  { destruct (Hreq st) as [E|E]; rewrite E; split;
      try reflexivity; try assumption. now apply inv_called. }
  destruct (call st) as [[a|e] st']; simpl in Hst.
  - simpl. tauto.
  - split; [tauto|]. now exists 500%Z, (why e).
Qed.

Lemma accept_cards_spec (limit : Z) (cards : list card) (a : Z) (st : run) (d p : Z) :
  ledger_state current_month used0 (trace st) = Some (d, p) ->
  (cards_added st <= limit)%Z ->
  Z.of_nat (length (deck st)) = cards_added st ->
  exists j,
    (0 <= j)%Z
    /\ fst (accept_cards cards limit a st) = (a + j)%Z
    /\ cards_added (snd (accept_cards cards limit a st)) = (cards_added st + j)%Z
    /\ (cards_added (snd (accept_cards cards limit a st)) <= limit)%Z
    /\ Z.of_nat (length (deck (snd (accept_cards cards limit a st))))
       = cards_added (snd (accept_cards cards limit a st))
    /\ ledger_state current_month used0 (trace (snd (accept_cards cards limit a st)))
       = Some (d, (p + j)%Z)
    /\ usage (snd (accept_cards cards limit a st)) = usage st
    /\ usage_file (snd (accept_cards cards limit a st)) = usage_file st
    /\ calls (snd (accept_cards cards limit a st)) = calls st
    /\ (cards = [] -> j = 0%Z).
Proof.
  revert a st p. induction cards as [|c rest IH]; intros a st p Hl Hc Hd.
  - exists 0%Z. simpl. rewrite !Z.add_0_r. repeat split; try assumption; lia.
  - cbn [accept_cards]. destruct (cards_added st >=? limit)%Z eqn:Eg.
    + exists 0%Z. simpl. rewrite !Z.add_0_r.
      repeat split; try assumption; try lia; try discriminate.
    + destruct (negb (nonempty (front c)) || negb (nonempty (back c))).
      * destruct (IH a st p Hl Hc Hd) as [j [Hj [H1 [H2 [H3 [H4 [H5 [H6 [H7 [H8 _]]]]]]]]]].
        exists j. repeat split; try assumption; try discriminate.
      * destruct (IH (a + 1)%Z (add_note (make_note c) st) (p + 1)%Z)
          as [j [Hj [H1 [H2 [H3 [H4 [H5 [H6 [H7 [H8 _]]]]]]]]]].
        { unfold ledger_state in *. simpl. now rewrite Hl. }
        { simpl. lia. }
        { simpl. rewrite length_app. simpl. lia. }
        exists (j + 1)%Z. simpl cards_added in *. simpl usage in *.
        simpl usage_file in *. simpl calls in *.
        rewrite H1, H2, H5. repeat split; try assumption; try lia; try discriminate.
        f_equal. f_equal. lia.
Qed.

Lemma accept_spec (limit : Z) (cards : list card) (st : run) :
  inv limit st ->
  post limit (accept cards limit st)
       (fun k st1 => (0 <= k)%Z /\ mid limit k st st1 /\ (cards = [] -> k = 0%Z)).
Proof.
  intros [Hu [Hc [Hd [Hl [Hf [Hz Hn]]]]]]. unfold post, accept.
  destruct (@accept_cards_spec limit cards 0%Z st _ _ Hl ltac:(lia) Hd)
    as [j [Hj [H1 [H2 [H3 [H4 [H5 [H6 [H7 [H8 H9]]]]]]]]]].
  destruct (accept_cards cards limit 0 st) as [k st1]. simpl in *.
  subst k. unfold mid. repeat split; try assumption; try lia.
Qed.

Lemma mid_zero (limit : Z) (st0 st1 : run) :
  inv limit st0 -> mid limit 0 st0 st1 -> inv limit st1.
Proof.
  intros [Hu [Hc [Hd [Hl [Hf [Hz Hn]]]]]] [M1 [M2 [M3 [M4 [M5 [M6 M7]]]]]].
  rewrite Z.add_0_r in M1. unfold inv. rewrite M1, M5, M6, M7.
  repeat split; try assumption; lia.
Qed.

Lemma record_get_used (u c : Z) : dict_get K_CARDS_USED (record u c) = Some (JInt u).
Proof. reflexivity. Qed.

Lemma record_set_used (u v c : Z) :
  dict_set K_CARDS_USED (JInt v) (record u c) = record v c.
Proof. reflexivity. Qed.

Lemma debit_spec (limit k : Z) (st0 st1 : run) :
  inv limit st0 -> mid limit k st0 st1 -> (0 < k)%Z -> (1 <= calls st1)%nat ->
  post limit (debit DEFAULT_CAP saving_month k st1)
       (fun _ st2 => inv limit st2 /\ cards_added st2 = (cards_added st0 + k)%Z).
Proof.
  intros [Hu [Hc [Hd [Hl [Hf [Hz Hn]]]]]] [M1 [M2 [M3 [M4 [M5 [M6 M7]]]]]] Hk Hcalls.
  unfold post, debit. rewrite M5, Hu, record_get_used, record_set_used.
  unfold save_usage, _save_usage_atomic.
  rewrite validate_rolled by lia.
  split; [|exact M1].
  unfold inv. cbn [usage usage_file deck cards_added trace calls]. rewrite M1.
  replace (used0 + cards_added st0 + k)%Z with (used0 + (cards_added st0 + k))%Z by lia.
  split; [reflexivity|]. split; [lia|]. split; [now rewrite <- M1|].
  split; [|split; [|split; [lia | now right]]].
  - unfold ledger_state in *. cbn [fold_right]. rewrite M4.
    replace (used0 + (cards_added st0 + k))%Z with (used0 + cards_added st0 + k)%Z by lia.
    now apply ledger_step_saved.
  - intros _. exists (calls st1). split; [lia | reflexivity].
Qed.

Local Abbreviation gen := (ai_generate_batch OPENAI_API_KEY completion).
Local Abbreviation pay := (debit DEFAULT_CAP saving_month).

(** After a call that returned a card that was accepted, a request has
    been sent. *)
Lemma accepted_after_request (limit k : Z) (call : run -> result (list card) * run)
    (st st1 st2 : run) (cards : list card) :
  cards_on_request call ->
  fst (call st) = Ok cards -> st1 = snd (call st) ->
  mid limit k st1 st2 -> (cards = [] -> k = 0%Z) -> (0 < k)%Z ->
  (1 <= calls st2)%nat.
Proof.
  intros Hon Hcall -> [_ [_ [_ [_ [_ [_ M7]]]]]] Hnil Hk.
  destruct (Hon st cards Hcall) as [E|E]; [specialize (Hnil E); lia|].
  rewrite M7, E. simpl. lia.
Qed.

(** One batch: the call, the accepted cards, the debit when there are
    any.  [k] is the number of cards the batch added. *)
Lemma batch_post (limit : Z) (A : Type) (call : run -> result (list card) * run)
    (why : exn -> failure) (st : run) (rest : Z -> M A) (Q : A -> run -> Prop) :
  one_request call -> cards_on_request call -> inv limit st ->
  (forall k st', inv limit st' -> (0 <= k)%Z ->
                 cards_added st' = (cards_added st + k)%Z ->
                 post limit (rest k st') Q) ->
  post limit
       ((cards <- try_ai call why ;;
         k <- accept cards limit ;;
         _ <- debit_if_any DEFAULT_CAP saving_month k ;;
         rest k) st) Q.
Proof.
  intros Hreq Hon Hinv Hrest. apply post_bind.
  eapply post_weaken; [|now apply try_ai_spec].
  intros cards st1 [Hinv1 [Hc1 [Hcall Hst1]]]. apply post_bind.
  eapply post_weaken; [|now apply accept_spec].
  intros k st2 [Hk [Hmid Hnil]]. apply post_bind. unfold debit_if_any.
  destruct (k >? 0)%Z eqn:Ek.
  - eapply post_weaken;
      [|eapply debit_spec;
         [exact Hinv1 | exact Hmid | lia
         | eapply accepted_after_request; try eassumption; lia]].
    intros _ st3 [Hinv3 Hc3]. apply Hrest; [assumption | lia | lia].
  - assert (k = 0%Z) by lia. subst k. unfold ret, post at 1.
    apply Hrest; [|lia|].
    + eapply mid_zero; eassumption.
    + destruct Hmid as [M1 _]. lia.
Qed.

Lemma cardize_loop_post (limit : Z) (all_facts modes : list str) (fuel : nat) (i : Z)
    (st : run) :
  inv limit st -> (Z.max 0 (limit - i) < Z.of_nat fuel)%Z ->
  post limit
       (cardize_loop OPENAI_API_KEY DEFAULT_CAP saving_month completion fuel
                     all_facts modes limit i st)
       (fun _ st' => inv limit st').
Proof.
  revert i st. induction fuel as [|fuel IH]; intros i st Hinv Hfuel; [lia|].
  cbn [cardize_loop]. destruct (i <? limit)%Z eqn:Ei.
  - apply batch_post;
      [apply ai_cards_from_facts_request | apply ai_cards_from_facts_on_request
      | assumption |].
    intros k st' Hinv' _ _. apply IH; [assumption | lia].
  - exact Hinv.
Qed.

Lemma chunk_calls_post (limit : Z) (chunk : str) (modes : list str) (y : Q)
    (target : Z) (fuel : nat) (produced : Z) (st : run) :
  inv limit st -> (Z.max 0 (target - produced) < Z.of_nat fuel)%Z ->
  post limit
       (chunk_calls OPENAI_API_KEY DEFAULT_CAP saving_month completion fuel
                    chunk modes y target produced limit st)
       (fun _ st' => inv limit st' /\ (cards_added st <= cards_added st')%Z).
Proof.
  revert produced st. induction fuel as [|fuel IH]; intros produced st Hinv Hfuel; [lia|].
  cbn [chunk_calls].
  destruct ((produced <? target)%Z && (cards_added st <? limit)%Z) eqn:Ec.
  - apply post_bind.
    eapply post_weaken; [|apply try_ai_spec; [apply ai_generate_batch_request | assumption]].
    intros cards st1 [Hinv1 [Hc1 [Hcall Hst1]]]. apply post_bind.
    eapply post_weaken; [|now apply accept_spec].
    intros k st2 [Hk [Hmid Hnil]].
    destruct (k >? 0)%Z eqn:Ek.
    + apply post_bind.
      eapply post_weaken;
        [|eapply debit_spec;
           [exact Hinv1 | exact Hmid | lia
           | eapply accepted_after_request;
             [apply ai_generate_batch_on_request | exact Hcall | exact Hst1
             | exact Hmid | exact Hnil | lia]]].
      intros _ st3 [Hinv3 Hc3].
      eapply post_weaken; [|apply IH; [assumption | lia]].
      intros _ st4 [Hinv4 Hc4]. split; [assumption | lia].
    + assert (k = 0%Z) by lia. subst k. unfold ret, post.
      split; [eapply mid_zero; eassumption|].
      destruct Hmid as [M1 _]. lia.
  - unfold post. split; [assumption | lia].
Qed.

Lemma chunks_loop_post (limit : Z) (modes : list str) (y : Q)
    (chunks : list (str * Z)) (st : run) :
  inv limit st ->
  post limit
       (chunks_loop OPENAI_API_KEY DEFAULT_CAP saving_month completion
                    chunks modes y limit st)
       (fun _ st' => inv limit st').
Proof.
  revert st. induction chunks as [|[chunk target] rest IH]; intros st Hinv.
  - exact Hinv.
  - cbn [chunks_loop]. apply post_bind.
    eapply post_weaken; [|apply chunk_calls_post; [assumption | lia]].
    intros _ st1 [Hinv1 _]. now apply IH.
Qed.

Lemma sweep_pass_post (limit : Z) (modes : list str) (y : Q) (chunks : list str)
    (made_progress : bool) (st : run) :
  inv limit st ->
  post limit
       (sweep_pass OPENAI_API_KEY DEFAULT_CAP saving_month completion
                   chunks modes y limit made_progress st)
       (fun b st' =>
          inv limit st'
          /\ (cards_added st <= cards_added st')%Z
          /\ (b = true -> made_progress = true \/ (cards_added st < cards_added st')%Z)).
Proof.
  revert made_progress st.
  induction chunks as [|chunk rest IH]; intros made_progress st Hinv.
  - unfold post, sweep_pass, ret. split; [assumption|]. split; [lia | tauto].
  - cbn [sweep_pass]. destruct (cards_added st >=? limit)%Z eqn:Eg.
    + unfold post. split; [assumption|]. split; [lia | tauto].
    + apply post_bind.
      eapply post_weaken;
        [|apply try_ai_spec; [apply ai_generate_batch_request | assumption]].
      intros cards st1 [Hinv1 [Hc1 [Hcall Hst1]]]. apply post_bind.
      eapply post_weaken; [|now apply accept_spec].
      intros k st2 [Hk [Hmid Hnil]].
      destruct (k >? 0)%Z eqn:Ek.
      * apply post_bind.
        eapply post_weaken;
          [|eapply debit_spec;
             [exact Hinv1 | exact Hmid | lia
             | eapply accepted_after_request;
               [apply ai_generate_batch_on_request | exact Hcall | exact Hst1
               | exact Hmid | exact Hnil | lia]]].
        intros _ st3 [Hinv3 Hc3].
        eapply post_weaken; [|now apply IH].
        intros b st4 [Hinv4 [Hc4 _]]. split; [assumption|]. split; [lia|].
        intros _. right. lia.
      * assert (k = 0%Z) by lia. subst k.
        assert (Hinv2 : inv limit st2) by (eapply mid_zero; eassumption).
        destruct Hmid as [M1 _].
        eapply post_weaken; [|now apply IH].
        intros b st4 [Hinv4 [Hc4 Hb]]. split; [assumption|]. split; [lia|].
        intros Hbt. destruct (Hb Hbt) as [H|H]; [now left | right; lia].
Qed.

Lemma sweep_post (limit : Z) (modes : list str) (y : Q) (chunks : list str)
    (fuel : nat) (st : run) :
  inv limit st -> (Z.max 0 (limit - cards_added st) < Z.of_nat fuel)%Z ->
  post limit
       (sweep OPENAI_API_KEY DEFAULT_CAP saving_month completion fuel
              chunks modes y limit st)
       (fun _ st' => inv limit st').
Proof.
  revert st. induction fuel as [|fuel IH]; intros st Hinv Hfuel; [lia|].
  cbn [sweep]. destruct (cards_added st <? limit)%Z eqn:El.
  - apply post_bind.
    eapply post_weaken; [|now apply sweep_pass_post].
    intros b st1 [Hinv1 [Hc1 Hb]]. destruct b.
    + apply IH; [assumption|].
      destruct (Hb eq_refl) as [H|H]; [discriminate | lia].
    + exact Hinv1.
  - exact Hinv.
Qed.

Lemma extract_loop_post (limit : Z) (chunks normed all : list str) (st : run) :
  inv limit st ->
  post limit (extract_loop OPENAI_API_KEY completion chunks normed all st)
       (fun _ st' => inv limit st' /\ cards_added st' = cards_added st).
Proof.
  revert normed all st. induction chunks as [|ch rest IH]; intros normed all st Hinv.
  - unfold post, extract_loop, ret. now split.
  - cbn [extract_loop]. apply post_bind.
    eapply post_weaken;
      [|apply try_ai_spec; [apply ai_extract_facts_request | assumption]].
    intros facts st1 [Hinv1 [Hc1 _]].
    destruct (merge_facts facts normed all) as [n1 a1].
    eapply post_weaken; [|now apply IH].
    intros _ st2 [Hinv2 Hc2]. split; [assumption | lia].
Qed.

End Run.

(** A sound record equals itself in Python's sense, so [load_usage]
    leaves a file that holds one alone. *)
Lemma py_eq_usage_record (month : str) (used cap : Z) :
  py_eq (JObj (usage_record month used cap)) (JObj (usage_record month used cap)) = true.
Proof.
  remember (usage_record month used cap) as e eqn:He.
  assert (Hlen : length e = 4%nat) by (subst e; reflexivity).
  assert (H1 : dict_get K_VERSION e = Some (JInt USAGE_SCHEMA_VERSION))
    by (subst e; reflexivity).
  assert (H2 : dict_get K_MONTH e = Some (JStr month)) by (subst e; reflexivity).
  assert (H3 : dict_get K_CARDS_USED e = Some (JInt used)) by (subst e; reflexivity).
  assert (H4 : dict_get K_CAP e = Some (JInt cap)) by (subst e; reflexivity).
  rewrite He at 1. unfold usage_record. cbn [py_eq length].
  rewrite Hlen, H1, H2, H3, H4.
  cbn [py_eq py_number pyfloat_eqb Nat.eqb andb].
  rewrite str_eqb_refl, !Qeq_bool_refl. reflexivity.
Qed.

Lemma inv_cards_range (month : str) (saving : nat -> str) (file0 : file_state)
    (used0 cap limit : Z) (st : run) :
  inv month saving file0 used0 cap limit st -> (0 <= cards_added st <= limit)%Z.
Proof. intros [_ [H _]]. exact H. Qed.

Section Handler.

Variable OPENAI_API_KEY : str.
Variable DEFAULT_CAP : Z.
Variable current_month : str.
Variable saving_month : nat -> str.
Variable now : Z.
Variable get_subscription : str -> option sub_row.
Variable completion : nat -> option str.

Local Abbreviation handler :=
  (build_apkg OPENAI_API_KEY DEFAULT_CAP current_month saving_month now get_subscription
              completion).
Local Abbreviation record := (usage_record current_month).
Local Abbreviation load := (load_usage DEFAULT_CAP current_month).

(** The usage record at the start of a run, and what remains of the cap. *)
Definition loaded_usage (file : file_state) : dict := fst (load file).

Definition field_int (k : str) (d : dict) : Z :=
  match dict_get k d with
  | Some (JInt z) => z
  | _ => 0%Z
  end.

Definition used_at_start (file : file_state) : Z :=
  field_int K_CARDS_USED (loaded_usage file).

Definition cap_at_start (file : file_state) : Z := field_int K_CAP (loaded_usage file).

Definition remaining_cap_at_start (file : file_state) : Z :=
  Z.max 0 (cap_at_start file - used_at_start file).

(** The state in which the quota check is reached. *)
Definition start_state (file : file_state) : run :=
  {| calls := 0; usage_file := snd (load file); deck := []; cards_added := 0;
     usage := loaded_usage file; trace := [] |}.

Definition words_chunk_of (req : request) : Z := Z.max 300 (words_per_chunk req).

(** The deduplicated facts of an exhaustive run, when the extraction
    succeeds. *)
Definition gathered_facts (req : request) (file : file_state) : option (list str) :=
  match extract_loop OPENAI_API_KEY completion
          (chunk_by_words (text req) (words_chunk_of req) 120) [] [] (start_state file) with
  | (Next all_facts, _) => Some all_facts
  | (Stop _, _) => None
  end.

(** The dynamically computed target of a run, capped by the remaining
    cap: the number of deduplicated facts in the exhaustive pipeline, the
    estimated total in the balanced one. *)
Definition run_target (req : request) (file : file_state) : Z :=
  if is_exhaustive (yield_level req) then
    match gathered_facts req file with
    | Some all_facts =>
        Z.min (Z.of_nat (length all_facts)) (remaining_cap_at_start file)
    | None => 0%Z
    end
  else
    Z.min (estimate_total_cards (text req) (approx_cards req) (yield_level req))
          (remaining_cap_at_start file).

Lemma loaded_usage_record (file : file_state) :
  loaded_usage file = record (used_at_start file) (cap_at_start file)
  /\ (0 <= used_at_start file)%Z.
Proof.
  unfold used_at_start, cap_at_start, loaded_usage.
  destruct (load_usage_shape DEFAULT_CAP current_month file) as [u [c [Hu H]]].
  rewrite H. split; [reflexivity | exact Hu].
Qed.

Lemma run_target_range (req : request) (file : file_state) :
  (0 <= run_target req file <= remaining_cap_at_start file)%Z.
Proof.
  unfold run_target, remaining_cap_at_start.
  pose proof (estimate_total_cards_nonneg (text req) (approx_cards req) (yield_level req)).
  destruct (is_exhaustive _); [destruct (gathered_facts req file)|]; lia.
Qed.

Section Pipelines.

Variable file0 : file_state.
Variables used0 cap : Z.
Hypothesis used0_nonneg : (0 <= used0)%Z.
Hypothesis cap_nonneg : (0 <= cap)%Z.

Local Abbreviation inv0 := (inv current_month saving_month file0 used0 cap).
Local Abbreviation post0 := (post current_month saving_month file0 used0 cap).

Lemma exhaustive_final (raw_text : str) (modes : list str) (words_chunk remaining : Z)
    (st : run) :
  inv0 0%Z st -> (0 <= remaining)%Z ->
  let target :=
    match extract_loop OPENAI_API_KEY completion
            (chunk_by_words raw_text words_chunk 120) [] [] st with
    | (Next all_facts, _) => Z.min (Z.of_nat (length all_facts)) remaining
    | (Stop _, _) => 0%Z
    end in
  post0 target
        (exhaustive OPENAI_API_KEY DEFAULT_CAP saving_month completion
                    raw_text modes words_chunk remaining st)
        (fun _ st' => inv0 target st' /\ (0 < cards_added st')%Z).
Proof.
  intros Hinv Hrem. unfold exhaustive.
  pose proof (@extract_loop_post OPENAI_API_KEY current_month saving_month completion file0 used0 cap
                0%Z (chunk_by_words raw_text words_chunk 120) [] [] st Hinv) as He.
  unfold bind at 1.
  destruct (extract_loop OPENAI_API_KEY completion _ [] [] st) as [[all|o] st1];
    cbv zeta; unfold post in He.
  - destruct He as [Hinv1 Hc1].
    assert (Hz : cards_added st1 = 0%Z) by (pose proof (inv_cards_range Hinv); lia).
    destruct (nonempty all) eqn:Ea; cbn [negb].
    + set (target := Z.min (Z.of_nat (length all)) remaining).
      assert (Hinvt : inv0 target st1)
        by (apply (inv_limit Hinv1); subst target; lia).
      apply post_bind.
      eapply post_weaken;
        [|apply cardize_loop_post; [assumption | assumption | exact Hinvt | lia]].
      intros u2 st2 Hinv2. unfold post.
      destruct (cards_added st2 =? 0)%Z eqn:E0.
      * split; [assumption|]. now exists 422%Z, NoCardsFromFacts.
      * split; [assumption|]. pose proof (inv_cards_range Hinv2). lia.
    + destruct all; [|discriminate]. unfold stop, post. simpl.
      split; [|now exists 422%Z, NoExtractableFacts].
      apply (inv_limit Hinv1). lia.
  - exact He.
Qed.

Lemma balanced_final (raw_text : str) (modes : list str) (y : Q)
    (approx words_chunk remaining : Z) (st : run) :
  inv0 0%Z st -> (0 <= remaining)%Z ->
  let target := Z.min (estimate_total_cards raw_text approx y) remaining in
  post0 target
        (balanced OPENAI_API_KEY DEFAULT_CAP saving_month completion
                  raw_text modes y approx words_chunk remaining st)
        (fun _ st' => inv0 target st' /\ (0 < cards_added st')%Z).
Proof.
  intros Hinv Hrem target. unfold balanced. fold target.
  pose proof (estimate_total_cards_nonneg raw_text approx y) as Hest.
  assert (Hz : cards_added st = 0%Z) by (pose proof (inv_cards_range Hinv); lia).
  assert (Hinvt : inv0 target st) by (apply (inv_limit Hinv); subst target; lia).
  destruct (target <=? 0)%Z eqn:Et.
  - unfold stop, post. split; [assumption|]. now exists 402%Z, NoRemainingQuota.
  - apply post_bind.
    eapply post_weaken; [|apply chunks_loop_post; assumption].
    intros u1 st1 Hinv1. apply post_bind.
    eapply post_weaken; [|apply sweep_post; [assumption | assumption | exact Hinv1 |]].
    + intros u2 st2 Hinv2. unfold post.
      destruct (cards_added st2 =? 0)%Z eqn:E0.
      * split; [assumption|]. now exists 422%Z, NoCardsGenerated.
      * split; [assumption|]. pose proof (inv_cards_range Hinv2). lia.
    + pose proof (inv_cards_range Hinv1). lia.
Qed.

End Pipelines.

Lemma dict_int_record (used cap : Z) :
  dict_int K_CAP (record used cap) = Ok cap
  /\ dict_int K_CARDS_USED (record used cap) = Ok used.
Proof. split; reflexivity. Qed.

Lemma build_apkg_unfold (req : request) (file : file_state) :
  handler req file =
  if negb (nonempty (lower (strip (email req)))) then (Failure 400 EmailRequired, new_run file)
  else if negb (is_active now (get_subscription (lower (strip (email req)))))
  then (Failure 402 SubscriptionInactive, new_run file)
  else if negb (nonempty OPENAI_API_KEY) then (Failure 500 MissingApiKey, new_run file)
  else if (remaining_cap_at_start file <=? 0)%Z
  then (Failure 402 MonthlyLimitReached, start_state file)
  else
    match (if is_exhaustive (yield_level req)
           then exhaustive OPENAI_API_KEY DEFAULT_CAP saving_month completion
                  (text req)
                  (normalize_modes (match modes req with
                                    | [] => [Some BASIC_RECALL]
                                    | l => l
                                    end))
                  (words_chunk_of req) (remaining_cap_at_start file)
           else balanced OPENAI_API_KEY DEFAULT_CAP saving_month completion
                  (text req)
                  (normalize_modes (match modes req with
                                    | [] => [Some BASIC_RECALL]
                                    | l => l
                                    end))
                  (yield_level req) (approx_cards req) (words_chunk_of req)
                  (remaining_cap_at_start file)) (start_state file) with
    | (Next _, st') => (Apkg (deck st'), st')
    | (Stop o, st') => (o, st')
    end.
Proof.
  unfold build_apkg.
  destruct (negb (nonempty (lower (strip (email req))))); [reflexivity|].
  destruct (negb (is_active now _)); [reflexivity|].
  destruct (negb (nonempty OPENAI_API_KEY)); [reflexivity|].
  destruct (loaded_usage_record file) as [Hrec _].
  unfold remaining_cap_at_start, start_state.
  unfold loaded_usage in *. destruct (load file) as [u f'] eqn:El.
  simpl fst in *. simpl snd. rewrite Hrec.
  destruct (dict_int_record (used_at_start file) (cap_at_start file)) as [-> ->].
  reflexivity.
Qed.


(** C7.  For a request with an e-mail address, an active subscription and
    a configured credential: when the loaded usage record has
    [cap - cards_used <= 0], the run is rejected with the monthly-limit
    response, no request is sent to the completion service, the deck is
    empty, and the usage file is what [load_usage] left, untouched when it
    held a sound record. *)
Theorem build_apkg_quota_exhausted (req : request) (file : file_state) :
  nonempty (lower (strip (email req))) = true ->
  is_active now (get_subscription (lower (strip (email req)))) = true ->
  nonempty OPENAI_API_KEY = true ->
  (cap_at_start file - used_at_start file <= 0)%Z ->
  let res := handler req file in
  fst res = Failure 402 MonthlyLimitReached
  /\ calls (snd res) = 0%nat
  /\ trace (snd res) = []
  /\ deck (snd res) = []
  /\ usage (snd res) = loaded_usage file
  /\ usage_file (snd res) = snd (load file)
  /\ (forall used cap, (0 <= used)%Z -> (0 <= cap)%Z ->
        file = Stored (JObj (record used cap)) -> usage_file (snd res) = file).
Proof.
  intros Hemail Hactive Hkey Hrem. cbv zeta. rewrite build_apkg_unfold.
  rewrite Hemail, Hactive, Hkey. cbn [negb].
  replace (remaining_cap_at_start file <=? 0)%Z with true
    by (unfold remaining_cap_at_start; lia).
  simpl. repeat split.
  intros used cap Hu Hc ->. unfold load_usage.
  rewrite validate_usage_record by assumption.
  now rewrite py_eq_usage_record.
Qed.

End Handler.

(** A subscription table in which every address is active until time 200,
    and a request on a text of five words. *)
Definition always_active (e : str) : option sub_row :=
  Some {| status := Some (lit "Active"); current_period_end := Some 200%Z |}.

Definition demo_request (y : Q) : request :=
  {| email := lit " A@b.c ";
     deck_title := lit "Demo";
     text := lit "alpha beta gamma delta [1] epsilon.";
     yield_level := y;
     modes := [];
     approx_cards := 3;
     words_per_chunk := 700 |}.

(** The cap of 10 cards is used up: the run is rejected at the quota check. *)
Lemma build_apkg_quota_exhausted_witness :
  let res :=
    build_apkg (lit "key") 50000 (lit "2026-11") (fun _ => lit "2026-11") 100 always_active (fun _ => None)
               (demo_request (1 # 2))
               (Stored (JObj (usage_record (lit "2026-11") 10 10))) in
  fst res = Failure 402 MonthlyLimitReached
  /\ calls (snd res) = 0%nat
  /\ usage_file (snd res) = Stored (JObj (usage_record (lit "2026-11") 10 10)).
Proof.
  intros res.
  destruct (@build_apkg_quota_exhausted (lit "key") 50000 (lit "2026-11") (fun _ => lit "2026-11") 100
              always_active (fun _ => None) (demo_request (1 # 2))
              (Stored (JObj (usage_record (lit "2026-11") 10 10))))
    as [H1 [H2 [_ [_ [_ [H6 _]]]]]].
  - reflexivity.
  - reflexivity.
  - reflexivity.
  - vm_compute. discriminate.
  - split; [exact H1 | split; [exact H2 | exact H6]].
Defined.

(** A service that answers every request with the same cards. *)
Definition card_answers (i : nat) : option str :=
  Some (json_text
    "Here: [{'front':'q1','back':'a','mode':'cloze'},{'front':'q2','back':'a'}, 5]").

(** A balanced run with the target 3: one card for the chunk's own quota,
    two in the sweep; three cards are debited in two saves. *)
Example build_apkg_balanced_run :
  let res :=
    build_apkg (lit "key") 50000 (lit "2026-11") (fun _ => lit "2026-11") 100 always_active card_answers
               (demo_request (1 # 2)) NoFile in
  fst res
  = Apkg [ {| model := cloze_model; fields := (lit "q1", lit "a") |};
           {| model := cloze_model; fields := (lit "q1", lit "a") |};
           {| model := basic_model; fields := (lit "q2", lit "a") |} ]
  /\ calls (snd res) = 2%nat
  /\ cards_added (snd res) = 3%Z
  /\ usage_file (snd res) = Stored (JObj (usage_record (lit "2026-11") 3 50000)).
Proof. vm_compute. repeat split; reflexivity. Qed.

(** An exhaustive run: two facts, of which the service card-izes two. *)
Example build_apkg_exhaustive_run :
  let answers (i : nat) :=
    match i with
    | O => Some (json_text "[{'fact': 'A b.'}, 'a  B', {'fact': 0}, 'c']")
    | _ => card_answers i
    end in
  let res :=
    build_apkg (lit "key") 50000 (lit "2026-11") (fun _ => lit "2026-11") 100 always_active answers
               (demo_request 0) NoFile in
  cards_added (snd res) = 2%Z
  /\ calls (snd res) = 2%nat
  /\ usage_file (snd res) = Stored (JObj (usage_record (lit "2026-11") 2 50000)).
Proof. vm_compute. repeat split; reflexivity. Qed.




(** ** Further facts and instances *)

(** On a fact without citation marker the key is, in the words of the
    specification, the lower-cased text with whitespace normalized and the
    trailing period removed. *)
Lemma normalize_fact_without_citation (f : str) :
  has_citation f = false ->
  normalize_fact f = strip_trailing_period (lower (normalize_ws f)).
Proof.
  intros H. unfold normalize_fact, clean_text.
  rewrite (sub_citations_none _ H). reflexivity.
Qed.

Lemma has_citation_bracket (s : str) : has_citation s = true -> In LBRACKET s.
Proof.
  induction s as [|c r IH]; [discriminate|].
  cbn [has_citation]. destruct (match_citation (c :: r)) eqn:E.
  - intros _. unfold match_citation in E.
    destruct (N.eqb c LBRACKET) eqn:Ec; [|discriminate].
    apply N.eqb_eq in Ec. now left.
  - intros H. right. now apply IH.
Qed.

Lemma sub_citations_from_In (k : nat) (s : str) (x : N) :
  In x (sub_citations_from k s) -> In x s.
Proof.
  revert k. induction s as [|c r IH]; intros k; [simpl; tauto|].
  cbn [sub_citations_from]. destruct k as [|k].
  - destruct (match_citation (c :: r)).
    + intros H. right. eapply IH, H.
    + intros [H|H]; [now left | right; eapply IH, H].
  - intros H. right. eapply IH, H.
Qed.

Lemma join_In (ws : list str) (x : N) :
  In x (join ws) -> x = SPACE \/ exists w, In w ws /\ In x w.
Proof.
  induction ws as [|w ws IH]; [simpl; tauto|].
  rewrite join_cons. destruct ws as [|w' ws'].
  - intros H. right. exists w. split; [now left | assumption].
  - intros H. apply in_app_or in H. destruct H as [H|[H|H]].
    + right. exists w. split; [now left | assumption].
    + now left.
    + destruct (IH H) as [Hs|[v [Hv Hx]]]; [now left|].
      right. exists v. split; [now right | assumption].
Qed.

Lemma split_In (s w : str) (x : N) : In w (split s) -> In x w -> In x s.
Proof.
  revert w. induction s as [|c r IH]; intros w; [simpl; tauto|].
  cbn [split]. destruct (is_space c).
  - intros Hw Hx. right. eapply IH; eassumption.
  - destruct (starts_word r).
    + destruct (split r) as [|v vs] eqn:Es; simpl.
      * intros [<-|[]] [<-|[]]. now left.
      * intros [<-|Hw] Hx.
        -- destruct Hx as [<-|Hx]; [now left|].
           right. apply (IH v); [now left | assumption].
        -- right. apply (IH w); [now right | assumption].
    + intros [<-|Hw] Hx.
      * destruct Hx as [<-|[]]. now left.
      * right. eapply IH; eassumption.
Qed.

(** A text without opening bracket is normalized once and for all. *)
Lemma clean_text_idempotent_without_bracket (s : str) :
  ~ In LBRACKET s -> clean_text (clean_text s) = clean_text s.
Proof.
  intros Hn. apply clean_text_fixed_without_citation.
  destruct (has_citation (clean_text s)) eqn:E; [|reflexivity].
  exfalso. apply has_citation_bracket in E. rewrite clean_text_join in E.
  apply join_In in E. destruct E as [E|[w [Hw Hx]]]; [discriminate|].
  apply Hn. eapply sub_citations_from_In. eapply split_In; eassumption.
Qed.

(** Instances of the theorems at concrete inputs. *)
Lemma normalize_modes_spec_witness :
  normalize_modes [Some (lit "cloze"); None; Some (lit "Cloze ")]
  = first_occurrences
      (map canonical_mode [Some (lit "cloze"); None; Some (lit "Cloze ")]).
Proof.
  destruct (normalize_modes_spec [Some (lit "cloze"); None; Some (lit "Cloze ")])
    as [_ [_ [_ [_ [H _]]]]].
  apply H. discriminate.
Defined.

Lemma parse_json_array_spec_witness :
  parse_json_array (lit "Sure! [1, 2] done")
  = match json_loads (lit "[1, 2]") with
    | Some v => Ok v
    | None => Raise JSONDecodeError
    end.
Proof.
  apply (parse_json_array_spec (lit "Sure! [1, 2] done")).
  - vm_compute. reflexivity.
  - vm_compute. reflexivity.
Defined.


(** * The subscription table, the endpoints and the helpers *)

(** ** Addresses *)

Lemma lower_char_idempotent (c : N) : lower_char (lower_char c) = lower_char c.
Proof.
  unfold lower_char.
  destruct ((65 <=? c)%N && (c <=? 90)%N) eqn:A.
  - replace ((65 <=? c + 32)%N && (c + 32 <=? 90)%N) with false by lia.
    replace ((192 <=? c + 32)%N && (c + 32 <=? 222)%N && negb (c + 32 =? 215)%N)
      with false by lia.
    reflexivity.
  - destruct ((192 <=? c)%N && (c <=? 222)%N && negb (c =? 215)%N) eqn:B.
    + replace ((65 <=? c + 32)%N && (c + 32 <=? 90)%N) with false by lia.
      replace ((192 <=? c + 32)%N && (c + 32 <=? 222)%N && negb (c + 32 =? 215)%N)
        with false by lia.
      reflexivity.
    + rewrite A, B. reflexivity.
Qed.

Lemma is_space_lower_char (c : N) : is_space (lower_char c) = is_space c.
Proof.
  unfold lower_char.
  destruct ((65 <=? c)%N && (c <=? 90)%N) eqn:A.
  - unfold is_space. lia.
  - destruct ((192 <=? c)%N && (c <=? 222)%N && negb (c =? 215)%N) eqn:B.
    + unfold is_space. lia.
    + reflexivity.
Qed.

Lemma lower_idempotent (s : str) : lower (lower s) = lower s.
Proof.
  unfold lower. rewrite map_map. apply map_ext. apply lower_char_idempotent.
Qed.

Lemma lstrip_lower (s : str) : lstrip (lower s) = lower (lstrip s).
Proof.
  unfold lstrip. induction s as [|c r IH]; [reflexivity|].
  simpl. rewrite is_space_lower_char. destruct (is_space c); [exact IH | reflexivity].
Qed.

Lemma rstrip_lower (s : str) : rstrip (lower s) = lower (rstrip s).
Proof.
  induction s as [|c r IH]; [reflexivity|].
  simpl. fold (lower r). rewrite IH, is_space_lower_char.
  destruct (rstrip r); simpl; [destruct (is_space c)|]; reflexivity.
Qed.

Lemma strip_lower (s : str) : strip (lower s) = lower (strip s).
Proof. unfold strip. now rewrite rstrip_lower, lstrip_lower. Qed.

Lemma lstrip_starts_word (s : str) : starts_word s = true -> lstrip s = s.
Proof.
  destruct s as [|c r]; [discriminate|]. unfold lstrip. simpl.
  now destruct (is_space c).
Qed.

Lemma rstrip_idempotent (s : str) : rstrip (rstrip s) = rstrip s.
Proof.
  induction s as [|c r IH]; [reflexivity|].
  rewrite (rstrip_cons c r). destruct (rstrip r) as [|d r'] eqn:E.
  - destruct (is_space c) eqn:Ec; [reflexivity|]. simpl. now rewrite Ec.
  - rewrite (rstrip_cons c (d :: r')), IH. reflexivity.
Qed.

Lemma rstrip_drop_while (s : str) :
  rstrip (drop_while is_space s) = drop_while is_space (rstrip s).
Proof.
  induction s as [|c r IH]; [reflexivity|].
  rewrite (rstrip_cons c r). simpl drop_while at 1. destruct (is_space c) eqn:Ec.
  - rewrite IH. destruct (rstrip r) as [|d r'] eqn:E; simpl; rewrite ?Ec; reflexivity.
  - rewrite (rstrip_cons c r). destruct (rstrip r) as [|d r'] eqn:E; simpl; rewrite ?Ec; reflexivity.
Qed.

Lemma drop_while_idempotent (p : N -> bool) (s : str) :
  drop_while p (drop_while p s) = drop_while p s.
Proof.
  induction s as [|c r IH]; [reflexivity|].
  simpl. destruct (p c) eqn:E; [exact IH|]. simpl. now rewrite E.
Qed.

Lemma strip_idempotent (s : str) : strip (strip s) = strip s.
Proof.
  unfold strip, lstrip.
  rewrite rstrip_drop_while, rstrip_idempotent. apply drop_while_idempotent.
Qed.

Lemma normalize_email_idempotent (email : option str) :
  normalize_email (Some (normalize_email email)) = normalize_email email.
Proof.
  unfold normalize_email. simpl or_empty.
  now rewrite strip_lower, strip_idempotent, lower_idempotent.
Qed.

(** ** Subscription table *)

Lemma find_upsert_row_same (new : subscription) (db : table) :
  exists r,
    find (fun r => str_eqb (sub_email r) (sub_email new)) (upsert_row new db) = Some r
    /\ sub_email r = sub_email new
    /\ sub_state r = sub_state new
    /\ updated_at r = updated_at new
    /\ customer_id r
       = coalesce (customer_id new)
           (match find (fun r => str_eqb (sub_email r) (sub_email new)) db with
            | Some old => customer_id old
            | None => None
            end)
    /\ subscription_id r
       = coalesce (subscription_id new)
           (match find (fun r => str_eqb (sub_email r) (sub_email new)) db with
            | Some old => subscription_id old
            | None => None
            end).
Proof.
  induction db as [|old rest IH].
  - exists new. simpl. rewrite str_eqb_refl.
    repeat split; destruct new as [e s [c|] [i|] u]; reflexivity.
  - simpl. destruct (str_eqb (sub_email old) (sub_email new)) eqn:E.
    + eexists. simpl. rewrite E. split; [reflexivity|].
      simpl. apply str_eqb_eq in E. repeat split; assumption || reflexivity.
    + simpl. rewrite E. exact IH.
Qed.

Lemma find_upsert_row_other (new : subscription) (db : table) (e : str) :
  e <> sub_email new ->
  find (fun r => str_eqb (sub_email r) e) (upsert_row new db)
  = find (fun r => str_eqb (sub_email r) e) db.
Proof.
  intros Hne. induction db as [|old rest IH].
  - simpl. destruct (str_eqb (sub_email new) e) eqn:E; [|reflexivity].
    apply str_eqb_eq in E. congruence.
  - simpl. destruct (str_eqb (sub_email old) (sub_email new)) eqn:E.
    + simpl. destruct (str_eqb (sub_email old) e) eqn:E'; [|reflexivity].
      apply str_eqb_eq in E, E'. congruence.
    + simpl. now rewrite IH.
Qed.

Lemma upsert_row_keys (new : subscription) (db : table) :
  map sub_email (upsert_row new db)
  = if str_mem (sub_email new) (map sub_email db)
    then map sub_email db
    else map sub_email db ++ [sub_email new].
Proof.
  induction db as [|old rest IH]; [reflexivity|].
  simpl. rewrite (str_eqb_sym (sub_email new) (sub_email old)).
  destruct (str_eqb (sub_email old) (sub_email new)) eqn:E; [reflexivity|].
  simpl. rewrite IH. now destruct (str_mem _ _).
Qed.

Lemma get_subscription_row (now : Z) (email email' state : option str)
    (cpe : option Z) (cid sid : option str) (db : table) :
  normalize_email email' = normalize_email email ->
  exists r,
    get_subscription email' (upsert_subscription now email state cpe cid sid db) = Some r
    /\ sub_email r = normalize_email email
    /\ status (sub_state r) = Some (or_empty state)
    /\ current_period_end (sub_state r)
       = Some (match cpe with Some z => z | None => 0%Z end)
    /\ updated_at r = now
    /\ customer_id r
       = coalesce cid (match get_subscription email db with
                       | Some old => customer_id old
                       | None => None
                       end)
    /\ subscription_id r
       = coalesce sid (match get_subscription email db with
                       | Some old => subscription_id old
                       | None => None
                       end).
Proof.
  intros Hsame. unfold get_subscription, upsert_subscription. rewrite Hsame.
  match goal with |- context [upsert_row ?n db] => set (new := n) end.
  destruct (find_upsert_row_same new db) as [r [Hf [He [Hs [Hu [Hc Hi]]]]]].
  exists r. subst new. simpl in *.
  rewrite Hf, He, Hs, Hu, Hc, Hi. repeat split; reflexivity.
Qed.

(** X1.  Reading a subscription back: after [upsert_subscription] for an
    address, [get_subscription] for every address with the same
    normalized form (surrounding whitespace stripped, lower case) returns
    one row: its key is the normalized address, its status is the status
    written (the empty string for [None]), its period end the integer
    written (0 for [None]), its write time the time of the call, and each
    of the two Stripe identifiers is the one written or, when [None] was
    written, the one the address had before. *)
Theorem get_subscription_after_upsert (now : Z) (email email' state : option str)
    (cpe : option Z) (cid sid : option str) (db : table) :
  normalize_email email' = normalize_email email ->
  exists r,
    get_subscription email' (upsert_subscription now email state cpe cid sid db) = Some r
    /\ sub_email r = normalize_email email
    /\ status (sub_state r) = Some (or_empty state)
    /\ current_period_end (sub_state r)
       = Some (match cpe with Some z => z | None => 0%Z end)
    /\ updated_at r = now
    /\ customer_id r
       = coalesce cid (match get_subscription email db with
                       | Some old => customer_id old
                       | None => None
                       end)
    /\ subscription_id r
       = coalesce sid (match get_subscription email db with
                       | Some old => subscription_id old
                       | None => None
                       end).
Proof. apply get_subscription_row. Qed.

Lemma get_subscription_after_upsert_witness :
  exists r,
    get_subscription (Some (lit "  Ann@Example.org"))
      (upsert_subscription 7 (Some (lit "ann@example.ORG ")) (Some (lit "active"))
                           (Some 900%Z) None None [])
    = Some r
    /\ sub_email r = lit "ann@example.org"
    /\ status (sub_state r) = Some (lit "active").
Proof.
  destruct (@get_subscription_after_upsert 7 (Some (lit "ann@example.ORG "))
              (Some (lit "  Ann@Example.org")) (Some (lit "active")) (Some 900%Z)
              None None [] eq_refl) as [r [H1 [H2 [H3 _]]]].
  exists r. split; [exact H1 | split; [exact H2 | exact H3]].
Defined.

(** X2.  A write to one address leaves every other address as it was: for
    an address with another normalized form, [get_subscription] returns
    after [upsert_subscription] what it returned before.  The table keeps
    its keys in place: a known key leaves the list of keys unchanged, a new
    key is added at the end, so that keys that were pairwise distinct stay
    so. *)
Theorem upsert_subscription_frame (now : Z) (email email' state : option str)
    (cpe : option Z) (cid sid : option str) (db : table) :
  let db' := upsert_subscription now email state cpe cid sid db in
  (normalize_email email' <> normalize_email email ->
     get_subscription email' db' = get_subscription email' db)
  /\ map sub_email db'
     = (if str_mem (normalize_email email) (map sub_email db)
        then map sub_email db
        else map sub_email db ++ [normalize_email email])
  /\ (NoDup (map sub_email db) -> NoDup (map sub_email db')).
Proof.
  intros db'. subst db'. unfold get_subscription, upsert_subscription.
  match goal with |- context [upsert_row ?n db] => set (new := n) end.
  assert (Hk := upsert_row_keys new db). change (sub_email new) with (normalize_email email) in Hk.
  split; [|split].
  - intros Hne. now apply find_upsert_row_other.
  - exact Hk.
  - intros Hnd. rewrite Hk.
    destruct (str_mem (normalize_email email) (map sub_email db)) eqn:E; [exact Hnd|].
    apply str_mem_not_In in E.
    apply NoDup_app; [exact Hnd | repeat constructor; simpl; tauto |].
    intros x Hx [<-|[]]. contradiction.
Qed.

(** ** Active subscriptions *)

Lemma is_active_eq (now : Z) (r : sub_row) :
  is_active now (Some r)
  = str_mem (lower (or_empty (status r))) [lit "active"; lit "trialing"]
    && (match current_period_end r with Some z => z | None => 0%Z end >=? now)%Z.
Proof.
  unfold is_active.
  now destruct (str_mem (lower (or_empty (status r))) [lit "active"; lit "trialing"]).
Qed.

(** X3.  The passing of time never activates a subscription: a row that
    [is_active] accepts at some time is accepted at every earlier time,
    so a row refused at some time is refused ever after.  A missing row
    is refused, and so is, at every positive time, a row whose period end
    is NULL. *)
Theorem is_active_until_period_end (t t' : Z) (row : option sub_row) :
  (is_active t' row = true -> (t <= t')%Z -> is_active t row = true)
  /\ (is_active t row = false -> (t <= t')%Z -> is_active t' row = false)
  /\ is_active t None = false
  /\ (forall r, current_period_end r = None -> (0 < t)%Z -> is_active t (Some r) = false).
Proof.
  split; [|split; [|split]].
  - destruct row as [r|]; [|discriminate]. rewrite !is_active_eq. lia.
  - destruct row as [r|]; [|reflexivity]. rewrite !is_active_eq. lia.
  - reflexivity.
  - intros r Hr Ht. rewrite is_active_eq, Hr. lia.
Qed.

(** X4.  Writing and checking a subscription: after [upsert_subscription]
    with a status and a period end, the address (in any spelling with the
    same normalized form) is active at a time [t] exactly when the status
    is "active" or "trialing", compared without regard to case, and [t]
    is not after the period end, a period end of [None] counting as 0. *)
Theorem is_active_after_upsert (now t : Z) (email email' state : option str)
    (cpe : option Z) (cid sid : option str) (db : table) :
  normalize_email email' = normalize_email email ->
  is_active t (option_map sub_state
                 (get_subscription email'
                    (upsert_subscription now email state cpe cid sid db)))
  = str_mem (lower (or_empty state)) [lit "active"; lit "trialing"]
    && (match cpe with Some z => z | None => 0%Z end >=? t)%Z.
Proof.
  intros Hsame.
  destruct (@get_subscription_row now email email' state cpe cid sid db Hsame)
    as [r [-> [_ [Hs [Hc _]]]]].
  simpl option_map. rewrite is_active_eq, Hs, Hc. reflexivity.
Qed.

Lemma is_active_after_upsert_witness :
  is_active 100
    (option_map sub_state
       (get_subscription (Some (lit "Ann@Example.org "))
          (upsert_subscription 7 (Some (lit "ann@example.org")) (Some (lit "Trialing"))
                               (Some 900%Z) None None [])))
  = true.
Proof.
  rewrite (@is_active_after_upsert 7 100 (Some (lit "ann@example.org"))
             (Some (lit "Ann@Example.org ")) (Some (lit "Trialing")) (Some 900%Z)
             None None [] eq_refl).
  reflexivity.
Defined.

(** ** Checkout *)

Lemma lower_strip_fixed (s : str) :
  normalize_email (Some (lower (strip s))) = lower (strip s).
Proof. exact (normalize_email_idempotent (Some s)). Qed.

Lemma or_empty_strip_stripped (v : option json) (s : str) :
  or_empty_strip v = Ok s -> strip s = s.
Proof.
  destruct v as [v|]; simpl.
  - destruct (py_truthy v).
    + destruct v; try discriminate. intros H. injection H as <-. apply strip_idempotent.
    + intros H. now injection H as <-.
  - intros H. now injection H as <-.
Qed.

(** X5.  The three answers of [api_checkout].  A missing or blank address
    is answered with status 400 and the table is left as it was; so is
    an address for which the creation of the Stripe session raises.  When
    the session is created, the answer holds its URL and the table is
    changed in the row of the address only: the row gets the status
    "incomplete", the period end 0 and the time of the call, and keeps
    its Stripe identifiers, so that the address is not active at any time
    from then on, even if it was active before.  The table changes in no
    other case. *)
Theorem api_checkout_resets_subscription (now : Z) (create_session : str -> option json)
    (body : option json) (db : table) :
  (forall status why db',
      api_checkout now create_session body db = Ok (Refused status why, db') ->
      db' = db /\ status = 400%Z)
  /\ (forall sent db',
        api_checkout now create_session body db = Ok (Sent sent, db') ->
        exists e raw url,
          body_get (lit "email") body = Ok e
          /\ or_empty_strip e = Ok raw
          /\ raw <> []
          /\ create_session (lower raw) = Some url
          /\ sent = JObj [(lit "url", url)]
          /\ db' = upsert_subscription now (Some (lower raw)) (Some (lit "incomplete"))
                                       None None None db
          /\ (exists r,
                get_subscription (Some raw) db' = Some r
                /\ sub_email r = lower raw
                /\ status (sub_state r) = Some (lit "incomplete")
                /\ current_period_end (sub_state r) = Some 0%Z
                /\ updated_at r = now
                /\ customer_id r = match get_subscription (Some raw) db with
                                   | Some old => customer_id old
                                   | None => None
                                   end
                /\ subscription_id r = match get_subscription (Some raw) db with
                                       | Some old => subscription_id old
                                       | None => None
                                       end)
          /\ (forall t, is_active t (option_map sub_state
                                       (get_subscription (Some raw) db')) = false)
          /\ (forall other, normalize_email other <> normalize_email (Some raw) ->
                get_subscription other db' = get_subscription other db))
  /\ (forall e, body_get (lit "email") body = Ok e -> or_empty_strip e = Ok [] ->
        api_checkout now create_session body db = Ok (Refused 400 EmailMissing, db))
  /\ (forall e raw, body_get (lit "email") body = Ok e -> or_empty_strip e = Ok raw ->
        raw <> [] -> create_session (lower raw) = None ->
        api_checkout now create_session body db = Ok (Refused 400 CheckoutError, db))
  /\ (forall e raw url, body_get (lit "email") body = Ok e -> or_empty_strip e = Ok raw ->
        raw <> [] -> create_session (lower raw) = Some url ->
        api_checkout now create_session body db
        = Ok (Sent (JObj [(lit "url", url)]),
              upsert_subscription now (Some (lower raw)) (Some (lit "incomplete"))
                                  None None None db)).
Proof.
  unfold api_checkout.
  destruct (body_get (lit "email") body) as [e|x] eqn:Eb; cbn [rbind].
  2: { repeat (split; [intros; discriminate|]). intros; discriminate. }
  destruct (or_empty_strip e) as [raw|x] eqn:Er; cbn [rbind].
  2: { split; [intros; discriminate|]. split; [intros; discriminate|].
       split; [intros e' He' H; congruence|].
       split; intros e' raw' *; intros He' H; congruence. }
  assert (Hstrip : strip raw = raw) by (eapply or_empty_strip_stripped; eassumption).
  assert (Hnorm : normalize_email (Some (lower raw)) = normalize_email (Some raw)).
  { unfold normalize_email. simpl or_empty.
    now rewrite strip_lower, lower_idempotent. }
  assert (Hkey : normalize_email (Some (lower raw)) = lower raw).
  { rewrite Hnorm. unfold normalize_email. simpl or_empty. now rewrite Hstrip. }
  assert (Hempty : nonempty (lower raw) = nonempty raw) by (now destruct raw).
  rewrite Hempty.
  destruct raw as [|c raw'] eqn:Eraw; cbn [nonempty negb].
  - split; [|split; [|split; [|split]]].
    + intros status why db' H. injection H as <- _ <-. split; reflexivity.
    + discriminate.
    + intros e' He' _. reflexivity.
    + intros e' raw'' He' Hr' Hne'. congruence.
    + intros e' raw'' url He' Hr' Hne'. congruence.
  - assert (Hne : raw <> []) by (rewrite Eraw; discriminate).
    rewrite <- Eraw in *. clear Eraw.
    split; [|split; [|split; [|split]]].
    + intros status why db' H.
      destruct (create_session (lower raw)); [discriminate|].
      injection H as <- _ <-. split; reflexivity.
    + intros sent db' H.
      destruct (create_session (lower raw)) as [url|] eqn:Ec; [|discriminate].
      injection H as <- <-.
      exists e, raw, url.
      split; [reflexivity|]. split; [exact Er|].
      split; [exact Hne|].
      split; [exact Ec|]. split; [reflexivity|]. split; [reflexivity|].
      assert (Hsame : normalize_email (Some raw) = normalize_email (Some (lower raw)))
        by (symmetry; exact Hnorm).
      assert (Hold : get_subscription (Some (lower raw)) db = get_subscription (Some raw) db)
        by (unfold get_subscription; now rewrite Hnorm).
      destruct (@get_subscription_row now (Some (lower raw)) (Some raw)
                  (Some (lit "incomplete")) None None None db Hsame)
        as [r [Hget [Hmail [Hs [Hp [Ht [Hc Hi]]]]]]].
      split; [|split].
      * exists r. rewrite Hold in Hc, Hi. rewrite Hkey in Hmail.
        split; [exact Hget|]. split; [exact Hmail|]. split; [exact Hs|].
        split; [exact Hp|]. split; [exact Ht|]. split; [exact Hc | exact Hi].
      * intros t. rewrite Hget. simpl option_map. rewrite is_active_eq, Hs. reflexivity.
      * intros other Hother.
        unfold get_subscription, upsert_subscription.
        apply find_upsert_row_other. simpl sub_email. congruence.
    + intros e' He' Hb. exfalso. apply Hne. congruence.
    + intros e' raw'' He' Hr' _ Hc.
      injection He' as <-. rewrite Er in Hr'. injection Hr' as <-. now rewrite Hc.
    + intros e' raw'' url He' Hr' _ Hc.
      injection He' as <-. rewrite Er in Hr'. injection Hr' as <-. now rewrite Hc.
Qed.

(** A subscriber who is active until time 900 asks for a checkout at time
    7: the answer holds the URL, the row of the address has the status
    "incomplete", and the address is no longer active. *)
Lemma api_checkout_resets_subscription_witness :
  let db := upsert_subscription 1 (Some (lit "ann@example.org")) (Some (lit "active"))
                                (Some 900%Z) (Some (lit "cus_1")) None [] in
  let body := Some (JObj [(lit "email", JStr (lit " Ann@example.org"))]) in
  is_active 7 (option_map sub_state (get_subscription (Some (lit "ann@example.org")) db))
  = true
  /\ exists db',
       api_checkout 7 (fun _ => Some (JStr (lit "https://pay"))) body db
       = Ok (Sent (JObj [(lit "url", JStr (lit "https://pay"))]), db')
       /\ (exists r,
             get_subscription (Some (lit "Ann@example.org")) db' = Some r
             /\ status (sub_state r) = Some (lit "incomplete")
             /\ customer_id r = Some (lit "cus_1"))
       /\ is_active 7 (option_map sub_state
                         (get_subscription (Some (lit "Ann@example.org")) db'))
          = false.
Proof.
  intros db body. split; [reflexivity|].
  eexists. split; [reflexivity|].
  destruct (@api_checkout_resets_subscription 7 (fun _ => Some (JStr (lit "https://pay")))
              body db) as [_ [H _]].
  destruct (H _ _ eq_refl)
    as [e [raw [url [He [Hraw [_ [_ [_ [_ [[r [R1 [_ [R3 [_ [_ [R6 _]]]]]]] [Hact _]]]]]]]]]]].
  injection He as <-. injection Hraw as <-.
  split; [|exact (Hact 7%Z)].
  exists r. split; [exact R1|]. split; [exact R3 | exact R6].
Defined.

(** ** Usage ledger: stability *)

Section LedgerStability.

Variable DEFAULT_CAP : Z.
Variable current_month : str.

Local Abbreviation validate := (_validate_and_patch_usage DEFAULT_CAP current_month).
Local Abbreviation load := (load_usage DEFAULT_CAP current_month).
Local Abbreviation save := (save_usage DEFAULT_CAP current_month).
Local Abbreviation record := (usage_record current_month).

Lemma load_usage_stored_record (used cap : Z) :
  (0 <= used)%Z -> (0 <= cap)%Z ->
  load (Stored (JObj (record used cap)))
  = (record used cap, Stored (JObj (record used cap))).
Proof.
  intros Hu Hc. unfold load_usage.
  rewrite validate_usage_record by assumption.
  now rewrite py_eq_usage_record.
Qed.

Lemma load_usage_snd (file : file_state) :
  snd (load file) = file \/ snd (load file) = Stored (JObj (fst (load file))).
Proof.
  destruct file as [| |v]; unfold load_usage.
  - right. reflexivity.
  - destruct (negb _); [right | left]; reflexivity.
  - destruct (negb _); [right | left]; reflexivity.
Qed.

(** X6.  Whatever a usage file holds, an object in it is patched into a
    sound record: for a JSON object, [_validate_and_patch_usage] returns
    exactly the keys version, month, cards_used and cap, in this order,
    with the schema version, the current month and two non-negative
    integers, whatever the configured default cap.  With a non-negative
    default cap the same holds of every record that [load_usage] returns
    and of every record that [save_usage] persists. *)
Theorem usage_records_sound :
  (forall items, well_formed_usage current_month (validate (JObj items)))
  /\ ((0 <= DEFAULT_CAP)%Z ->
      (forall file, well_formed_usage current_month (fst (load file)))
      /\ (forall data file,
            exists d, save data file = Stored (JObj d)
                      /\ well_formed_usage current_month d)).
Proof.
  split; [apply validate_dict_well_formed|].
  intros Hd. split.
  - intros file. rewrite load_usage_fst. destruct file as [| |v].
    + exists 0%Z, DEFAULT_CAP. split; [lia | split; [assumption | reflexivity]].
    + now apply validate_well_formed.
    + now apply validate_well_formed.
  - intros data file. eexists. split; [reflexivity|]. now apply validate_well_formed.
Qed.

(** X7.  Loading is stable: with a non-negative default cap, loading
    again after [load_usage] returns the same record and leaves the file
    as the first load left it. *)
Theorem load_usage_twice (file : file_state) :
  (0 <= DEFAULT_CAP)%Z ->
  load (snd (load file)) = load file.
Proof.
  intros Hd.
  assert (Hwf : well_formed_usage current_month (fst (load file))).
  { rewrite load_usage_fst. destruct file as [| |v].
    - exists 0%Z, DEFAULT_CAP. split; [lia | split; [assumption | reflexivity]].
    - now apply validate_well_formed.
    - now apply validate_well_formed. }
  destruct Hwf as [u [c [Hu [Hc Hrec]]]].
  destruct (load_usage_snd file) as [Hs|Hs].
  - rewrite Hs. reflexivity.
  - destruct (load file) as [d f] eqn:E. simpl in *. subst f d.
    now apply load_usage_stored_record.
Qed.

(** X8.  Saving and loading: after [save_usage] of a sound record of the
    current month, [load_usage] returns that record and does not rewrite
    the file.  After [save_usage] of any value, with a non-negative
    default cap, [load_usage] returns the patched record that was
    persisted.  What the file held before the save plays no part. *)
Theorem load_usage_after_save (file : file_state) :
  (forall used cap, (0 <= used)%Z -> (0 <= cap)%Z ->
     load (save (JObj (record used cap)) file)
     = (record used cap, Stored (JObj (record used cap))))
  /\ ((0 <= DEFAULT_CAP)%Z ->
      forall data, load (save data file) = (validate data, save data file))
  /\ (forall data file', save data file = save data file').
Proof.
  split; [|split].
  - intros used cap Hu Hc. unfold save_usage, _save_usage_atomic.
    rewrite validate_usage_record by assumption.
    now apply load_usage_stored_record.
  - intros Hd data. unfold save_usage, _save_usage_atomic.
    destruct (@validate_well_formed DEFAULT_CAP current_month data Hd)
      as [u [c [Hu [Hc ->]]]].
    now apply load_usage_stored_record.
  - reflexivity.
Qed.

(** ** Usage endpoints *)

Local Abbreviation reset := (usage_reset DEFAULT_CAP current_month).

Lemma validate_defaults_with_cap (v : json) :
  validate (JObj (dict_set K_CAP v (_usage_defaults DEFAULT_CAP current_month)))
  = record 0 (Z.max 0 (int_or v DEFAULT_CAP)).
Proof.
  assert (Hm : merge_known (dict_set K_CAP v (_usage_defaults DEFAULT_CAP current_month))
                 (_usage_defaults DEFAULT_CAP current_month)
               = [(K_VERSION, JInt USAGE_SCHEMA_VERSION); (K_MONTH, JStr current_month);
                  (K_CARDS_USED, JInt 0); (K_CAP, v)]) by reflexivity.
  rewrite (@validate_of_merged _ _ _ _ _ _ _ Hm). unfold patched.
  assert (E : py_eq (JStr current_month) (JStr current_month) = true)
    by (apply py_eq_JStr; reflexivity).
  rewrite E. reflexivity.
Qed.

Lemma validate_defaults :
  validate (JObj (_usage_defaults DEFAULT_CAP current_month))
  = record 0 (Z.max 0 DEFAULT_CAP).
Proof.
  change (_usage_defaults DEFAULT_CAP current_month)
    with (dict_set K_CAP (JInt DEFAULT_CAP) (_usage_defaults DEFAULT_CAP current_month)) at 1.
  rewrite validate_defaults_with_cap. reflexivity.
Qed.

(** [body.get] raises exactly on a body that is truthy and no object. *)
Lemma body_get_raises (k : str) (body : option json) (e : exn) :
  body_get k body = Raise e
  <-> e = AttributeError
      /\ exists v, body = Some v /\ py_truthy v = true /\ forall d, v <> JObj d.
Proof.
  unfold body_get. split.
  - destruct body as [v|]; [|discriminate].
    destruct (py_truthy v) eqn:Et; [|discriminate].
    intros H. assert (Hx : e = AttributeError) by (destruct v; congruence).
    split; [exact Hx|]. exists v. split; [reflexivity|]. split; [exact Et|].
    intros d ->. discriminate.
  - intros [-> [v [-> [Ht Hd]]]]. rewrite Ht.
    destruct v; try reflexivity. now contradiction (Hd pairs).
Qed.

(** X9.  [usage_reset] sets the counter of the current month to 0,
    whatever the usage file held.  A body with a non-negative integer
    ["cap"] persists that cap and answers with the persisted record.  A
    body without ["cap"], with a negative one or with one that is neither
    an integer nor a boolean persists the configured default cap, raised
    to 0 if negative, while the answer shows the default cap as
    configured.  A boolean counts as an integer: [true] persists the cap
    1, [false] the cap 0.  The handler raises exactly on a JSON body that
    is truthy and no object, with [AttributeError] and before anything is
    written. *)
Theorem usage_reset_spec (body : option json) (file : file_state) :
  (forall c, body_get (lit "cap") body = Ok (Some (JInt c)) -> (0 <= c)%Z ->
     reset body file = Ok (record 0 c, Stored (JObj (record 0 c))))
  /\ (forall b, body_get (lit "cap") body = Ok (Some (JBool b)) ->
        exists shown,
          reset body file
          = Ok (shown, Stored (JObj (record 0 (if b then 1 else 0))))
          /\ dict_get K_CAP shown = Some (JBool b))
  /\ (forall cap, body_get (lit "cap") body = Ok cap ->
        (forall c, cap = Some (JInt c) -> (c < 0)%Z) ->
        (forall b, cap <> Some (JBool b)) ->
        reset body file
        = Ok (record 0 DEFAULT_CAP, Stored (JObj (record 0 (Z.max 0 DEFAULT_CAP)))))
  /\ (forall shown file', reset body file = Ok (shown, file') ->
        exists cap, (0 <= cap)%Z /\ file' = Stored (JObj (record 0 cap))
                    /\ load file' = (record 0 cap, file'))
  /\ (forall e, reset body file = Raise e <->
        e = AttributeError /\ exists v, body = Some v /\ py_truthy v = true
                                        /\ forall d, v <> JObj d).
Proof.
  unfold usage_reset, save_usage, _save_usage_atomic.
  pose proof (body_get_raises (lit "cap") body) as Hraise.
  destruct (body_get (lit "cap") body) as [cap|x] eqn:Eb; cbn [rbind].
  - assert (Hcases :
      (exists c, cap = Some (JInt c) /\ (0 <= c)%Z)
      \/ (exists b, cap = Some (JBool b))
      \/ ((forall c, cap = Some (JInt c) -> (c < 0)%Z) /\ (forall b, cap <> Some (JBool b)))).
    { destruct cap as [[| b | c | | | |]|];
        try (right; right; split; [intros; discriminate | discriminate]).
      - right. left. eauto.
      - destruct (Z_le_gt_dec 0 c).
        + left. eauto.
        + right. right. split; [|discriminate]. intros c' H. injection H as <-. lia. }
    destruct Hcases as [[c [-> Hc]]|[[b ->]|[Hneg Hnb]]].
    + replace (c >=? 0)%Z with true by lia.
      rewrite validate_defaults_with_cap, int_or_JInt, Z.max_r by lia.
      change (dict_set K_CAP (JInt c) (_usage_defaults DEFAULT_CAP current_month))
        with (record 0 c).
      split; [|split; [|split; [|split]]].
      * intros c' H _. now injection H as <-.
      * discriminate.
      * intros cap H Hn _. injection H as <-. specialize (Hn c eq_refl). lia.
      * intros shown file' H. injection H as <- <-. exists c.
        split; [assumption|]. split; [reflexivity|].
        apply load_usage_stored_record; lia.
      * intros e. split; [discriminate|]. intros H. apply Hraise in H. discriminate.
    + rewrite validate_defaults_with_cap.
      replace (Z.max 0 (int_or (JBool b) DEFAULT_CAP)) with (if b then 1 else 0)%Z
        by (now destruct b).
      split; [|split; [|split; [|split]]].
      * discriminate.
      * intros b' H. injection H as <-. eexists. split; [reflexivity|].
        apply dict_get_set_same.
      * intros cap H _ Hn. injection H as <-. now contradiction (Hn b).
      * intros shown file' H. injection H as <- <-. exists (if b then 1 else 0)%Z.
        split; [now destruct b|]. split; [reflexivity|].
        apply load_usage_stored_record; [lia | now destruct b].
      * intros e. split; [discriminate|]. intros H. apply Hraise in H. discriminate.
    + assert (Hdata :
        match cap with
        | Some (JInt c) =>
            if (c >=? 0)%Z
            then dict_set K_CAP (JInt c) (_usage_defaults DEFAULT_CAP current_month)
            else _usage_defaults DEFAULT_CAP current_month
        | Some (JBool b) =>
            dict_set K_CAP (JBool b) (_usage_defaults DEFAULT_CAP current_month)
        | _ => _usage_defaults DEFAULT_CAP current_month
        end = _usage_defaults DEFAULT_CAP current_month).
      { destruct cap as [[| b | c | | | |]|]; try reflexivity.
        - now contradiction (Hnb b).
        - specialize (Hneg c eq_refl). now replace (c >=? 0)%Z with false by lia. }
      rewrite Hdata, validate_defaults.
      split; [|split; [|split; [|split]]].
      * intros c H Hc. injection H as ->. specialize (Hneg c eq_refl). lia.
      * intros b H. injection H as ->. now contradiction (Hnb b).
      * intros cap' _ _ _. reflexivity.
      * intros shown file' H. injection H as <- <-. exists (Z.max 0 DEFAULT_CAP).
        split; [lia|]. split; [reflexivity|].
        apply load_usage_stored_record; lia.
      * intros e. split; [discriminate|]. intros H. apply Hraise in H. discriminate.
  - split; [|split; [|split; [|split]]]; try (intros; discriminate).
    intros e. rewrite <- Hraise. split; congruence.
Qed.

End LedgerStability.

(** Instances: an unreadable file, a missing file, and a save over an
    unreadable file. *)
Lemma usage_records_sound_witness :
  well_formed_usage (lit "2026-11") (fst (load_usage 50000 (lit "2026-11") Unreadable)).
Proof.
  destruct (@usage_records_sound 50000 (lit "2026-11")) as [_ H].
  destruct H as [H _]; [lia|]. apply H.
Defined.

Lemma load_usage_twice_witness :
  load_usage 50000 (lit "2026-11") (snd (load_usage 50000 (lit "2026-11") NoFile))
  = load_usage 50000 (lit "2026-11") NoFile.
Proof. apply load_usage_twice. lia. Defined.

Lemma load_usage_after_save_witness :
  load_usage 50000 (lit "2026-11")
    (save_usage 50000 (lit "2026-11") (JObj (usage_record (lit "2026-11") 3 10)) Unreadable)
  = (usage_record (lit "2026-11") 3 10, Stored (JObj (usage_record (lit "2026-11") 3 10))).
Proof.
  destruct (@load_usage_after_save 50000 (lit "2026-11") Unreadable) as [H _].
  apply H; lia.
Defined.


(** A reset to the cap 25 over a file that counted 9 cards. *)
Lemma usage_reset_spec_witness :
  usage_reset 50000 (lit "2026-11") (Some (JObj [(lit "cap", JInt 25)]))
              (Stored (JObj (usage_record (lit "2026-11") 9 10)))
  = Ok (usage_record (lit "2026-11") 0 25,
        Stored (JObj (usage_record (lit "2026-11") 0 25))).
Proof.
  destruct (@usage_reset_spec 50000 (lit "2026-11")
              (Some (JObj [(lit "cap", JInt 25)]))
              (Stored (JObj (usage_record (lit "2026-11") 9 10)))) as [H _].
  apply H; [reflexivity | lia].
Defined.

(** ** Text normalizer: the shape of the result *)

Lemma rstrip_join (ws : list str) : Forall is_word ws -> rstrip (join ws) = join ws.
Proof.
  induction ws as [|w ws IH]; intros H; [reflexivity|].
  inversion H as [|? ? [Hne Hw] Hws]; subst.
  assert (Hkeep : forall (u v : str),
            Forall (fun c => is_space c = false) u -> rstrip v = v -> v <> [] ->
            rstrip (u ++ v) = u ++ v).
  { intros u v Hu Hv Hn. induction u as [|c u IHu]; [exact Hv|].
    inversion Hu; subst. simpl app. rewrite rstrip_cons, IHu by assumption.
    destruct (u ++ v) eqn:E; [|reflexivity].
    apply app_eq_nil in E. destruct E as [_ E]. contradiction. }
  assert (Hword : rstrip w = w).
  { clear - Hne Hw. induction w as [|c w IHw]; [reflexivity|].
    inversion Hw; subst. rewrite rstrip_cons.
    destruct w as [|d w'].
    - simpl. now rewrite H1.
    - rewrite IHw by (assumption || discriminate). reflexivity. }
  rewrite join_cons. destruct ws as [|w' ws']; [exact Hword|].
  apply Hkeep; [assumption| |discriminate].
  rewrite rstrip_cons, (IH Hws).
  destruct (join (w' :: ws')) eqn:E; [|reflexivity].
  exfalso. inversion Hws as [|? ? [Hne' _] _]; subst.
  now apply (join_nonempty ws' Hne').
Qed.

Lemma strip_join (ws : list str) : Forall is_word ws -> strip (join ws) = join ws.
Proof.
  intros H. unfold strip. rewrite rstrip_join by assumption. now apply lstrip_join.
Qed.

Lemma split_nil_spaces (s : str) : split s = [] -> Forall (fun c => is_space c = true) s.
Proof.
  induction s as [|c r IH]; [constructor|].
  cbn [split]. destruct (is_space c) eqn:Ec.
  - intros H. constructor; [assumption | now apply IH].
  - destruct (starts_word r); [|discriminate].
    destruct (split r); discriminate.
Qed.

Lemma sub_citations_spaces (s : str) :
  Forall (fun c => is_space c = true) s -> sub_citations s = s.
Proof.
  intros H. apply sub_citations_none.
  induction H as [|c r Hc _ IH]; [reflexivity|].
  cbn [has_citation match_citation].
  destruct (N.eqb c LBRACKET) eqn:E; [|exact IH].
  apply N.eqb_eq in E. subst c. discriminate.
Qed.

(** X10.  The text that [clean_text] returns is the list of its words
    joined by single spaces: it has no whitespace at either end, every
    whitespace character in it is a plain space that separates two words,
    and it is never longer than the input.  A text without a word (empty,
    or whitespace only) is normalized to the empty string. *)
Theorem clean_text_shape (s : str) :
  clean_text s = join (split (clean_text s))
  /\ strip (clean_text s) = clean_text s
  /\ (forall c, In c (clean_text s) -> is_space c = true -> c = SPACE)
  /\ (length (clean_text s) <= length s)%nat
  /\ (split s = [] -> clean_text s = []).
Proof.
  assert (Hj : clean_text s = join (split (clean_text s))).
  { rewrite split_clean_text. apply clean_text_join. }
  split; [exact Hj|]. split; [|split; [|split]].
  - rewrite Hj at 1 2. apply strip_join, split_words.
  - intros c Hin Hc. rewrite Hj in Hin.
    destruct (join_In _ _ Hin) as [->|[w [Hw Hx]]]; [reflexivity|].
    pose proof (split_words (clean_text s)) as Hws.
    rewrite Forall_forall in Hws. destruct (Hws w Hw) as [_ Hns].
    rewrite Forall_forall in Hns. rewrite (Hns c Hx) in Hc. discriminate.
  - change (clean_text s) with (normalize_ws (sub_citations s)).
    pose proof (normalize_ws_length (sub_citations s)).
    pose proof (sub_citations_from_length 0 s). unfold sub_citations in *. lia.
  - intros Hs. rewrite clean_text_join.
    rewrite (sub_citations_spaces (split_nil_spaces s Hs)), Hs. reflexivity.
Qed.

(** ** Chunker: any overlap *)

(** X11.  For a target of at least one word and any overlap, also one
    that is negative or not below the target: [chunk_by_words] returns no
    chunk exactly when the normalized text has no word; otherwise the
    chunks are the windows that start at the multiples of
    [max(1, T - O)] below the number [n] of words, so there are
    [ceil(n / max(1, T - O))] of them; every chunk holds at least one and
    at most [T] words and splits back into its words; with an overlap
    that is not below the target a chunk starts at every word. *)
Theorem chunk_by_words_any_overlap (text : str) (T O : Z) :
  (1 <= T)%Z ->
  let words := split (clean_text text) in
  let n := Z.of_nat (length words) in
  exists m : nat,
    chunk_by_words text T O = map (fun k => join (window words T O k)) (seq 0 m)
    /\ length (chunk_by_words text T O) = m
    /\ ((Z.of_nat m - 1) * chunk_step T O < n <= Z.of_nat m * chunk_step T O)%Z
    /\ (chunk_by_words text T O = [] <-> words = [])
    /\ (forall k, (k < m)%nat ->
          split (join (window words T O k)) = window words T O k
          /\ (1 <= Z.of_nat (length (window words T O k)) <= T)%Z
          /\ window words T O k
             = firstn (Z.to_nat T) (skipn (k * Z.to_nat (chunk_step T O)) words))
    /\ ((T <= O)%Z -> Z.of_nat m = n).
Proof.
  intros HT. cbv zeta. unfold chunk_by_words.
  generalize (split_words (clean_text text)).
  generalize (split (clean_text text)). intros words Hw.
  set (n := Z.of_nat (length words)).
  assert (Hs : (1 <= chunk_step T O)%Z) by (unfold chunk_step; lia).
  destruct (@chunk_loop_spec words T O Hw HT (length words) 0%Z)
    as [m [Hm [Hz Hb]]]; [lia | lia |].
  fold n in Hz, Hb.
  assert (Hbound : ((Z.of_nat m - 1) * chunk_step T O < n <= Z.of_nat m * chunk_step T O)%Z).
  { destruct (Z_lt_dec 0 n) as [Hn|Hn]; [specialize (Hb Hn); lia|].
    rewrite Hz by lia. lia. }
  assert (Hmap : match words with
                 | [] => []
                 | _ :: _ => chunk_loop (length words) words T O 0
                 end = map (fun k => join (window words T O k)) (seq 0 m)).
  { destruct words as [|w0 ws].
    - assert (m = 0%nat) by (apply Hz; subst n; simpl; lia). subst m. reflexivity.
    - rewrite Hm. apply map_ext. intros k. unfold window. do 2 f_equal; lia. }
  exists m. rewrite Hmap.
  split; [reflexivity|]. split; [now rewrite length_map, length_seq|].
  split; [exact Hbound|]. split; [|split].
  - split.
    + intros H. apply (f_equal (@length _)) in H.
      rewrite length_map, length_seq in H. simpl in H. subst m.
      destruct words; [reflexivity | subst n; simpl length in Hbound; lia].
    + intros ->. subst n. simpl in Hbound.
      assert (m = 0%nat) by nia. now subst m.
  - intros k Hk.
    assert (Hlo : (0 <= Z.of_nat k * chunk_step T O < n)%Z) by nia.
    assert (Hwin : window words T O k
                   = firstn (Z.to_nat T) (skipn (k * Z.to_nat (chunk_step T O)) words)).
    { unfold window. rewrite py_slice_nonneg by lia.
      f_equal; [f_equal; lia | f_equal; nia]. }
    split; [|split; [|exact Hwin]].
    + apply split_join. unfold window, py_slice.
      now apply Forall_firstn_keep, Forall_skipn_keep.
    + rewrite Hwin, length_firstn, length_skipn. subst n. nia.
  - intros HO. assert (chunk_step T O = 1%Z) by (unfold chunk_step; lia). lia.
Qed.

(** With the target 2 and the overlap 5 a chunk starts at every word. *)
Lemma chunk_by_words_any_overlap_witness :
  exists m : nat,
    chunk_by_words (lit "a b c") 2 5
    = map (fun k => join (window (split (clean_text (lit "a b c"))) 2 5 k)) (seq 0 m)
    /\ length (chunk_by_words (lit "a b c") 2 5) = m.
Proof.
  destruct (@chunk_by_words_any_overlap (lit "a b c") 2 5 ltac:(lia))
    as [m [H1 [H2 _]]].
  exists m. split; [exact H1 | exact H2].
Defined.

Example chunk_by_words_overlap_ex :
  chunk_by_words (lit "a b c") 2 5 = [lit "a b"; lit "b c"; lit "c"]
  /\ chunk_by_words (lit "a b c d e") 2 (-1) = [lit "a b"; lit "d e"]
  /\ chunk_by_words (lit "  [3]  ") 2 0 = [].
Proof. vm_compute. repeat split; reflexivity. Qed.

(** ** Yield model: density and targets *)

Lemma clamp01_low (y : Q) : (y <= 0)%Q -> clamp01 y = 0%Q.
Proof.
  intros H. unfold clamp01, py_maxQ, py_minQ.
  replace (Qltb y 1) with true by (symmetry; apply Qltb_true; lra).
  now replace (Qltb 0 y) with false by (symmetry; apply Qltb_false; lra).
Qed.

Lemma clamp01_high (y : Q) : (1 <= y)%Q -> clamp01 y = 1%Q.
Proof.
  intros H. unfold clamp01, py_maxQ, py_minQ.
  now replace (Qltb y 1) with false by (symmetry; apply Qltb_false; lra).
Qed.

Lemma clamp01_mid (y : Q) : (0 < y < 1)%Q -> clamp01 y = y.
Proof.
  intros H. unfold clamp01, py_maxQ, py_minQ.
  replace (Qltb y 1) with true by (symmetry; apply Qltb_true; lra).
  now replace (Qltb 0 y) with true by (symmetry; apply Qltb_true; lra).
Qed.

Lemma clamp01_monotone (y y' : Q) : (y <= y')%Q -> (clamp01 y <= clamp01 y')%Q.
Proof.
  intros H.
  destruct (Qlt_le_dec 0 y) as [H0|H0]; destruct (Qlt_le_dec y 1) as [H1|H1];
    destruct (Qlt_le_dec 0 y') as [H0'|H0']; destruct (Qlt_le_dec y' 1) as [H1'|H1'];
    rewrite ?(clamp01_low H0), ?(clamp01_low H0'), ?(clamp01_high H1),
      ?(clamp01_high H1'), ?(clamp01_mid (conj H0 H1)), ?(clamp01_mid (conj H0' H1'));
    lra.
Qed.

Lemma Qmult_le_left (c a b : Q) : (0 <= c)%Q -> (a <= b)%Q -> (c * a <= c * b)%Q.
Proof. intros Hc Hab. nra. Qed.

Ltac compare_to_order :=
  repeat match goal with
         | H : Qcompare _ _ = Eq |- _ => apply Qeq_alt in H
         | H : Qcompare _ _ = Lt |- _ => apply Qlt_alt in H
         | H : Qcompare _ _ = Gt |- _ => apply Qgt_alt in H
         end.

Lemma py_round_monotone (x y : Q) : (x <= y)%Q -> (py_round x <= py_round y)%Z.
Proof.
  intros H.
  pose proof (Qfloor_resp_le _ _ H) as Hfl.
  unfold py_round.
  destruct (Z_lt_le_dec (Qfloor x) (Qfloor y)) as [Hlt|Hge].
  - destruct (Qcompare (x - inject_Z (Qfloor x)) (1 # 2));
      destruct (Qcompare (y - inject_Z (Qfloor y)) (1 # 2));
      destruct (Z.even (Qfloor x)); destruct (Z.even (Qfloor y)); lia.
  - assert (Heq : Qfloor x = Qfloor y) by lia. rewrite <- Heq in *.
    destruct (Qcompare (x - inject_Z (Qfloor x)) (1 # 2)) eqn:Ex;
      destruct (Qcompare (y - inject_Z (Qfloor x)) (1 # 2)) eqn:Ey;
      try (destruct (Z.even (Qfloor x)); lia);
      exfalso; compare_to_order; lra.
Qed.

(** X12.  The density [cards_per_1000_words] lies between 6 and 18 cards
    per thousand words; it is 18 for every yield level at or below 0 and
    6 for every yield level at or above 1, and it never grows when the
    yield level grows. *)
Theorem cards_per_1000_words_profile (y y' : Q) :
  (6 <= cards_per_1000_words y <= 18)%Q
  /\ ((y <= 0)%Q -> cards_per_1000_words y == 18)
  /\ ((1 <= y)%Q -> cards_per_1000_words y == 6)
  /\ ((y <= y')%Q -> (cards_per_1000_words y' <= cards_per_1000_words y)%Q).
Proof.
  split; [apply cards_per_1000_words_range|].
  unfold cards_per_1000_words. split; [|split].
  - intros H. rewrite (clamp01_low H). reflexivity.
  - intros H. rewrite (clamp01_high H). reflexivity.
  - intros H. pose proof (clamp01_monotone H). lra.
Qed.

(** X13.  The target [estimate_total_cards] is the larger of the
    requested number and the automatic estimate, the word count times the
    density per thousand words rounded to the nearest integer: it is
    never below the requested number, never negative, not below the
    estimate at 6 and not above the larger of the requested number and
    the estimate at 18 cards per thousand words, and it never grows when
    the yield level grows.  A text without words gets the requested
    number, or 0 if that is negative. *)
Theorem estimate_total_cards_bounds (raw_text : str) (approx_cards : Z) (y y' : Q) :
  let w := inject_Z (word_count raw_text) in
  (approx_cards <= estimate_total_cards raw_text approx_cards y)%Z
  /\ (0 <= estimate_total_cards raw_text approx_cards y)%Z
  /\ (py_round (w / 1000 * 6) <= estimate_total_cards raw_text approx_cards y)%Z
  /\ (estimate_total_cards raw_text approx_cards y
      <= Z.max approx_cards (py_round (w / 1000 * 18)))%Z
  /\ ((y <= y')%Q ->
      (estimate_total_cards raw_text approx_cards y'
       <= estimate_total_cards raw_text approx_cards y)%Z)
  /\ (split (clean_text raw_text) = [] ->
      estimate_total_cards raw_text approx_cards y = Z.max approx_cards 0).
Proof.
  cbv zeta.
  assert (Hw : (0 <= inject_Z (word_count raw_text) / 1000)%Q).
  { unfold Qdiv. apply Qmult_le_0_compat; [|easy].
    unfold word_count. change 0%Q with (inject_Z 0). rewrite <- Zle_Qle. lia. }
  pose proof (cards_per_1000_words_range y) as Hd.
  split; [unfold estimate_total_cards; lia|].
  split; [apply estimate_total_cards_nonneg|].
  split; [|split; [|split]].
  - unfold estimate_total_cards.
    assert (py_round (inject_Z (word_count raw_text) / 1000 * 6)
            <= py_round (inject_Z (word_count raw_text) / 1000 * cards_per_1000_words y))%Z;
      [|lia].
    apply py_round_monotone. apply Qmult_le_left; [exact Hw | apply Hd].
  - unfold estimate_total_cards.
    assert (py_round (inject_Z (word_count raw_text) / 1000 * cards_per_1000_words y)
            <= py_round (inject_Z (word_count raw_text) / 1000 * 18))%Z; [|lia].
    apply py_round_monotone. apply Qmult_le_left; [exact Hw | apply Hd].
  - intros H. unfold estimate_total_cards.
    assert (py_round (inject_Z (word_count raw_text) / 1000 * cards_per_1000_words y')
            <= py_round (inject_Z (word_count raw_text) / 1000 * cards_per_1000_words y))%Z;
      [|lia].
    apply py_round_monotone. apply Qmult_le_left; [exact Hw|].
    unfold cards_per_1000_words. pose proof (clamp01_monotone H). lra.
  - intros H. unfold estimate_total_cards, word_count. rewrite H. reflexivity.
Qed.

(** ** Reading the answers of the completion service *)

(** A card as the three readers hand it on: both sides non-empty and
    without whitespace at either end, the mode one of the canonical
    names. *)
Definition well_formed_card (c : card) : Prop :=
  front c <> [] /\ back c <> []
  /\ strip (front c) = front c /\ strip (back c) = back c
  /\ In (mode c) CANONICAL_MODES.

Definition sides (c : card) : str * str := (front c, back c).

Lemma nonempty_true (A : Type) (l : list A) : nonempty l = true <-> l <> [].
Proof. destruct l; simpl; split; congruence. Qed.

Lemma first_mode_canonical (m : option str) :
  In (first_mode (normalize_modes [m])) CANONICAL_MODES.
Proof.
  change (first_mode (normalize_modes [m])) with (canonical_mode m).
  apply canonical_mode_canonical.
Qed.

Lemma pair_mem_In (f b : str) (seen : list (str * str)) :
  pair_mem (f, b) seen = true <-> In (f, b) seen.
Proof.
  unfold pair_mem. rewrite existsb_exists. simpl. split.
  - intros [[f' b'] [Hin H]]. simpl in H. apply andb_true_iff in H.
    destruct H as [H1 H2]. apply str_eqb_eq in H1, H2. now subst.
  - intros H. exists (f, b). split; [assumption|]. simpl. now rewrite !str_eqb_refl.
Qed.

Lemma Forall_snoc (A : Type) (P : A -> Prop) (l : list A) (x : A) :
  Forall P l -> P x -> Forall P (l ++ [x]).
Proof. intros Hl Hx. apply Forall_app. split; [assumption | now constructor]. Qed.

Lemma batch_from_items_spec (items : list json) (n_cards : Z)
    (seen_pairs : list (str * str)) (cleaned out : list card) :
  Forall well_formed_card cleaned ->
  NoDup (map sides cleaned) ->
  (forall p, In p (map sides cleaned) -> In p seen_pairs) ->
  (Z.of_nat (length cleaned) < n_cards)%Z \/ cleaned = [] ->
  batch_from_items items n_cards seen_pairs cleaned = Ok out ->
  Forall well_formed_card out
  /\ NoDup (map sides out)
  /\ (Z.of_nat (length out) <= Z.max 1 n_cards)%Z.
Proof.
  revert seen_pairs cleaned.
  induction items as [|c rest IH]; intros seen cleaned Hwf Hnd Hseen Hlen H.
  - simpl in H. injection H as <-. split; [assumption|]. split; [assumption|].
    destruct Hlen as [Hlen| ->]; simpl; lia.
  - cbn [batch_from_items] in H.
    destruct c as [| | | | | |d]; try (now apply (IH seen cleaned)).
    destruct (or_empty_strip (dict_get (lit "front") d)) as [f|] eqn:Ef;
      cbn [rbind] in H; [|discriminate].
    destruct (or_empty_strip (dict_get (lit "back") d)) as [b|] eqn:Eb;
      cbn [rbind] in H; [|discriminate].
    destruct (or_empty_strip (dict_get (lit "mode") d)) as [m|] eqn:Em;
      cbn [rbind] in H; [|discriminate].
    destruct (nonempty f) eqn:Hf; cbn [negb orb] in H;
      [|now apply (IH seen cleaned)].
    destruct (nonempty b) eqn:Hb; cbn [negb orb] in H;
      [|now apply (IH seen cleaned)].
    destruct (pair_mem (f, b) seen) eqn:Hp; [now apply (IH seen cleaned)|].
    set (new := {| front := f; back := b;
                   mode := first_mode (normalize_modes [Some m]) |}) in *.
    assert (Hnew : well_formed_card new).
    { unfold well_formed_card, new. simpl.
      apply nonempty_true in Hf, Hb.
      split; [assumption|]. split; [assumption|].
      split; [eapply or_empty_strip_stripped; eassumption|].
      split; [eapply or_empty_strip_stripped; eassumption|].
      apply first_mode_canonical. }
    assert (Hfresh : ~ In (f, b) (map sides cleaned)).
    { intros Hin. apply Hseen in Hin. apply pair_mem_In in Hin. congruence. }
    assert (Hnd' : NoDup (map sides (cleaned ++ [new]))).
    { rewrite map_app. apply NoDup_app; [assumption | repeat constructor; simpl; tauto |].
      intros x Hx [<-|[]]. contradiction. }
    assert (Hwf' : Forall well_formed_card (cleaned ++ [new]))
      by (now apply Forall_snoc).
    destruct (Z.of_nat (length (cleaned ++ [new])) >=? n_cards)%Z eqn:Hn.
    + injection H as <-. split; [assumption|]. split; [assumption|].
      rewrite length_app in *. simpl length in *.
      destruct Hlen as [Hlen| ->]; simpl; lia.
    + apply (IH ((f, b) :: seen) (cleaned ++ [new])); try assumption.
      * intros p Hin. rewrite map_app in Hin. apply in_app_or in Hin.
        destruct Hin as [Hin|[<-|[]]]; [right; now apply Hseen | now left].
      * left. lia.
Qed.

Lemma cards_from_items_spec (items : list json) (cleaned out : list card) :
  Forall well_formed_card cleaned ->
  cards_from_items items cleaned = Ok out ->
  Forall well_formed_card out.
Proof.
  revert cleaned. induction items as [|it rest IH]; intros cleaned Hwf H.
  - simpl in H. now injection H as <-.
  - cbn [cards_from_items] in H.
    destruct it as [| | | | | |d]; try (now apply (IH cleaned)).
    destruct (or_empty_strip (dict_get (lit "front") d)) as [f|] eqn:Ef;
      cbn [rbind] in H; [|discriminate].
    destruct (or_empty_strip (dict_get (lit "back") d)) as [b|] eqn:Eb;
      cbn [rbind] in H; [|discriminate].
    destruct (mode_entry _) as [m|] eqn:Em; cbn [rbind] in H; [|discriminate].
    destruct (nonempty f) eqn:Hf; cbn [andb] in H; [|now apply (IH cleaned)].
    destruct (nonempty b) eqn:Hb; [|now apply (IH cleaned)].
    apply (IH (cleaned ++ [{| front := f; back := b;
                               mode := first_mode (normalize_modes [m]) |}]));
      [|exact H].
    apply Forall_snoc; [assumption|].
    unfold well_formed_card. simpl. apply nonempty_true in Hf, Hb.
    split; [assumption|]. split; [assumption|].
    split; [eapply or_empty_strip_stripped; eassumption|].
    split; [eapply or_empty_strip_stripped; eassumption|].
    apply first_mode_canonical.
Qed.

Lemma extract_fact_items_spec (items : list json) (facts out : list str) :
  Forall (fun f => f <> [] /\ strip f = f) facts ->
  extract_fact_items items facts = Ok out ->
  Forall (fun f => f <> [] /\ strip f = f) out
  /\ (length out <= length facts + length items)%nat.
Proof.
  revert facts. induction items as [|it rest IH]; intros facts Hwf H.
  - simpl in H. injection H as <-. split; [assumption | simpl; lia].
  - cbn [extract_fact_items] in H.
    destruct (match it with
              | JObj d => or_empty_strip (dict_get (lit "fact") d)
              | JStr s => Ok (strip s)
              | _ => Ok []
              end) as [fact|] eqn:Ef; cbn [rbind] in H; [|discriminate].
    assert (Hs : strip fact = fact).
    { destruct it; try (injection Ef as <-; reflexivity).
      - injection Ef as <-. apply strip_idempotent.
      - eapply or_empty_strip_stripped; eassumption. }
    destruct (nonempty fact) eqn:Hn.
    + apply nonempty_true in Hn.
      assert (Hwf' : Forall (fun f => f <> [] /\ strip f = f) (facts ++ [fact]))
        by (apply Forall_snoc; [assumption | now split]).
      destruct (IH (facts ++ [fact]) Hwf' H) as [H1 H2].
      split; [assumption|]. rewrite length_app in H2. simpl in *. lia.
    + destruct (IH facts Hwf H) as [H1 H2]. split; [assumption | simpl; lia].
Qed.

Section Readers.

Variable OPENAI_API_KEY : str.
Variable completion : nat -> option str.

(** X14.  [ai_generate_batch] without a configured key raises
    [RuntimeError] and sends nothing; with a key it sends exactly one
    request, whatever the answer.  The cards it returns have non-empty,
    stripped fronts and backs and a canonical mode, no two of them have
    the same front and back, and there are at most [n_cards] of them, or
    one when [n_cards] is below 1. *)
Theorem ai_generate_batch_cards (chunk_text : str) (n_cards : Z) (modes : list str)
    (yield_level : Q) (st : run) :
  let res := ai_generate_batch OPENAI_API_KEY completion chunk_text n_cards modes
                               yield_level st in
  (OPENAI_API_KEY = [] -> res = (Raise RuntimeError, st))
  /\ (OPENAI_API_KEY <> [] -> snd res = called st)
  /\ (forall cards, fst res = Ok cards ->
        Forall well_formed_card cards
        /\ NoDup (map sides cards)
        /\ (Z.of_nat (length cards) <= Z.max 1 n_cards)%Z).
Proof.
  cbv zeta. unfold ai_generate_batch.
  destruct OPENAI_API_KEY as [|k key'] eqn:Ek; cbn [nonempty negb].
  - split; [reflexivity|]. split; [congruence | discriminate].
  - split; [discriminate|]. split.
    + intros _. rewrite <- (post_completion_state completion st).
      now destruct (post_completion completion st).
    + intros cards. destruct (post_completion completion st) as [r st'].
      cbn [fst]. destruct r as [content|]; cbn [rbind]; [|discriminate].
      destruct (parse_json_array content) as [v|]; cbn [rbind]; [|discriminate].
      destruct (py_iter v) as [items|]; cbn [rbind]; [|discriminate].
      intros H.
      apply (@batch_from_items_spec items n_cards [] [] cards);
        [constructor | constructor | intros p [] | now right | exact H].
Qed.

(** X15.  [ai_cards_from_facts] with an empty list of facts returns no
    card and sends nothing, with or without a key; with facts and without
    a key it raises [RuntimeError] and sends nothing; with facts and a
    key it sends exactly one request.  The cards it returns have
    non-empty, stripped fronts and backs and a canonical mode. *)
Theorem ai_cards_from_facts_cards (facts modes : list str) (st : run) :
  let res := ai_cards_from_facts OPENAI_API_KEY completion facts modes st in
  (facts = [] -> res = (Ok [], st))
  /\ (facts <> [] -> OPENAI_API_KEY = [] -> res = (Raise RuntimeError, st))
  /\ (facts <> [] -> OPENAI_API_KEY <> [] -> snd res = called st)
  /\ (forall cards, fst res = Ok cards -> Forall well_formed_card cards).
Proof.
  cbv zeta. unfold ai_cards_from_facts.
  destruct facts as [|f facts']; cbn [nonempty negb].
  - split; [reflexivity|]. split; [congruence|]. split; [congruence|].
    intros cards H. injection H as <-. constructor.
  - split; [discriminate|].
    destruct OPENAI_API_KEY as [|k key'] eqn:Ek; cbn [nonempty negb].
    + split; [reflexivity|]. split; [congruence | discriminate].
    + split; [discriminate|]. split.
      * intros _ _. rewrite <- (post_completion_state completion st).
        now destruct (post_completion completion st).
      * intros cards. destruct (post_completion completion st) as [r st'].
        cbn [fst]. destruct r as [content|]; cbn [rbind]; [|discriminate].
        destruct (parse_json_array content) as [v|]; cbn [rbind]; [|discriminate].
        destruct (py_iter v) as [items|]; cbn [rbind]; [|discriminate].
        apply cards_from_items_spec. constructor.
Qed.

(** X16.  [ai_extract_facts] without a configured key raises
    [RuntimeError] and sends nothing; with a key it sends exactly one
    request.  Every fact it returns is non-empty and has no whitespace at
    either end.  When the answer is a JSON array there are at most as
    many facts as the array has items. *)
Theorem ai_extract_facts_facts (chunk_text : str) (max_facts : Z) (st : run) :
  let res := ai_extract_facts OPENAI_API_KEY completion chunk_text max_facts st in
  (OPENAI_API_KEY = [] -> res = (Raise RuntimeError, st))
  /\ (OPENAI_API_KEY <> [] -> snd res = called st)
  /\ (forall facts, fst res = Ok facts ->
        Forall (fun f => f <> [] /\ strip f = f) facts
        /\ forall content items,
             completion (calls st) = Some content ->
             parse_json_array content = Ok (JArr items) ->
             (length facts <= length items)%nat).
Proof.
  cbv zeta. unfold ai_extract_facts.
  destruct OPENAI_API_KEY as [|k key'] eqn:Ek; cbn [nonempty negb].
  - split; [reflexivity|]. split; [congruence | discriminate].
  - split; [discriminate|]. split.
    + intros _. rewrite <- (post_completion_state completion st).
      now destruct (post_completion completion st).
    + intros facts. unfold post_completion.
      destruct (completion (calls st)) as [content|]; cbn [fst rbind]; [|discriminate].
      destruct (parse_json_array content) as [v|] eqn:Ev; cbn [rbind]; [|discriminate].
      destruct (py_iter v) as [items|] eqn:Ei; cbn [rbind]; [|discriminate].
      intros H. destruct (extract_fact_items_spec items (Forall_nil _) H) as [H1 H2].
      split; [assumption|].
      intros content' items' Hc Hp. injection Hc as <-.
      rewrite Ev in Hp. injection Hp as ->.
      simpl in Ei. injection Ei as <-. simpl in H2. exact H2.
Qed.

End Readers.

(** The list of facts is not cut to [max_facts], and an answer that is an
    object is read as the list of its keys. *)
Example ai_extract_facts_ex :
  fst (ai_extract_facts (lit "key")
         (fun _ => Some (json_text "[{'fact': ' a '}, 'b', {'fact': ''}, 7]"))
         (lit "text") 1 (new_run NoFile))
  = Ok [lit "a"; lit "b"]
  /\ fst (ai_extract_facts (lit "key")
            (fun _ => Some (json_text "{'fact': 'a'}"))
            (lit "text") 40 (new_run NoFile))
     = Ok [lit "fact"].
Proof. vm_compute. split; reflexivity. Qed.

(** A request for no card still returns one. *)
Example ai_generate_batch_ex :
  fst (ai_generate_batch (lit "key")
         (fun _ => Some (json_text "[{'front':'q','back':'a'},{'front':'r','back':'b'}]"))
         (lit "text") 0 [BASIC_RECALL] (1 # 2) (new_run NoFile))
  = Ok [{| front := lit "q"; back := lit "a"; mode := BASIC_RECALL |}].
Proof. vm_compute. reflexivity. Qed.

(** ** Modes: canonical names are fixed *)

Lemma canonical_mode_fixed (c : str) :
  In c CANONICAL_MODES -> canonical_mode (Some c) = c.
Proof.
  intros [<-|[<-|[<-|[<-|[]]]]]; vm_compute; reflexivity.
Qed.

Lemma filter_all (A : Type) (p : A -> bool) (l : list A) :
  (forall x, In x l -> p x = true) -> filter p l = l.
Proof.
  induction l as [|a l IH]; intros H; [reflexivity|].
  simpl. rewrite (H a) by now left. f_equal. apply IH. intros x Hx. apply H. now right.
Qed.

Lemma first_occurrences_fixed (l : list str) : NoDup l -> first_occurrences l = l.
Proof.
  induction 1 as [|x l Hx Hnd IH]; [reflexivity|].
  simpl. rewrite IH. f_equal. apply filter_all.
  intros y Hy. apply negb_true_iff. apply str_eqb_neq. congruence.
Qed.

Lemma normalize_modes_canonical (modes_in : list (option str)) :
  NoDup (normalize_modes modes_in)
  /\ (forall m, In m (normalize_modes modes_in) -> In m CANONICAL_MODES).
Proof.
  destruct modes_in as [|m rest].
  - split; [repeat constructor; simpl; tauto|].
    intros m [<-|[]]. now left.
  - rewrite normalize_modes_nonempty_eq by discriminate.
    split; [apply first_occurrences_NoDup|].
    intros c Hc. rewrite first_occurrences_In in Hc. apply in_map_iff in Hc.
    destruct Hc as [e [<- _]]. apply canonical_mode_canonical.
Qed.

(** X17.  The canonical mode names are fixed points of [normalize_modes]:
    a list of one canonical name is returned as it is, normalizing the
    result of [normalize_modes] again changes nothing, and no result has
    more than four entries. *)
Theorem normalize_modes_idempotent (modes_in : list (option str)) :
  normalize_modes (map Some (normalize_modes modes_in)) = normalize_modes modes_in
  /\ (forall c, In c CANONICAL_MODES -> normalize_modes [Some c] = [c])
  /\ (length (normalize_modes modes_in) <= 4)%nat.
Proof.
  destruct (normalize_modes_canonical modes_in) as [Hnd Hcan].
  split; [|split].
  - assert (Hne : map Some (normalize_modes modes_in) <> []).
    { destruct modes_in as [|m rest]; [discriminate|].
      rewrite normalize_modes_nonempty_eq by discriminate. discriminate. }
    rewrite normalize_modes_nonempty_eq by assumption.
    rewrite map_map.
    rewrite (map_ext_in _ (fun c => c)), map_id.
    + now apply first_occurrences_fixed.
    + intros c Hc. apply canonical_mode_fixed. now apply Hcan.
  - intros c Hc. change (normalize_modes [Some c]) with [canonical_mode (Some c)].
    now rewrite canonical_mode_fixed.
  - change 4%nat with (length CANONICAL_MODES).
    apply NoDup_incl_length; [assumption|]. intros m. apply Hcan.
Qed.

(** ** Identifiers of the deck and its note types *)

(** X18.  Whatever the digest of the deck title, the identifier of the
    basic note type lies in [0, 10^8), the identifier of the cloze note
    type is the next integer, the deck identifier is the fifth integer
    after it (the reduction modulo 10^10 never applies), and the three
    are pairwise distinct.  Titles whose digests agree modulo 10^8 get
    the same identifiers. *)
Theorem deck_identifiers (digest digest' : Z) :
  (0 <= model_id_base digest < 10 ^ 8)%Z
  /\ cloze_model_id digest = (model_id_base digest + 1)%Z
  /\ deck_id digest = (model_id_base digest + 5)%Z
  /\ model_id_base digest <> cloze_model_id digest
  /\ model_id_base digest <> deck_id digest
  /\ cloze_model_id digest <> deck_id digest
  /\ ((digest mod 10 ^ 8 = digest' mod 10 ^ 8)%Z ->
      model_id_base digest = model_id_base digest'
      /\ deck_id digest = deck_id digest').
Proof.
  unfold deck_id, cloze_model_id, model_id_base.
  assert (H : (0 <= digest mod 10 ^ 8 < 10 ^ 8)%Z) by (apply Z.mod_pos_bound; lia).
  assert (H5 : ((digest mod 10 ^ 8 + 5) mod 10 ^ 10 = digest mod 10 ^ 8 + 5)%Z)
    by (apply Z.mod_small; lia).
  rewrite H5.
  split; [exact H|]. split; [reflexivity|]. split; [reflexivity|].
  split; [lia|]. split; [lia|]. split; [lia|].
  intros E. rewrite <- E. split; [reflexivity|]. now rewrite H5.
Qed.

(** ** The run of [build_apkg]: what every step keeps *)

(** A card that one of the two readers of cards reads from the answer to
    the [i]-th request: the answer parses to a value whose items
    [ai_cards_from_facts] or [ai_generate_batch] turns into a list that
    holds the card. *)
Definition card_of_answer (completion : nat -> option str) (i : nat) (c : card) : Prop :=
  exists content v items,
    completion i = Some content
    /\ parse_json_array content = Ok v
    /\ py_iter v = Ok items
    /\ ((exists cards, cards_from_items items [] = Ok cards /\ In c cards)
        \/ (exists n_cards cards,
              batch_from_items items n_cards [] [] = Ok cards /\ In c cards)).

(** A well-formed card read from one of the first [k] answers. *)
Definition card_read (completion : nat -> option str) (k : nat) (c : card) : Prop :=
  well_formed_card c /\ exists i, (i < k)%nat /\ card_of_answer completion i c.

Lemma ai_generate_batch_well_formed (key : str) (completion : nat -> option str)
    (chunk : str) (n : Z) (modes : list str) (y : Q) (st : run) (cards : list card) :
  fst (ai_generate_batch key completion chunk n modes y st) = Ok cards ->
  Forall well_formed_card cards.
Proof.
  unfold ai_generate_batch. destruct (negb (nonempty key)); [discriminate|].
  destruct (post_completion completion st) as [r st'].
  cbn [fst]. destruct r as [content|]; cbn [rbind]; [|discriminate].
  destruct (parse_json_array content) as [v|]; cbn [rbind]; [|discriminate].
  destruct (py_iter v) as [items|]; cbn [rbind]; [|discriminate].
  intros H.
  apply (@batch_from_items_spec items n [] [] cards);
    [constructor | constructor | intros p [] | now right | exact H].
Qed.

Lemma ai_cards_from_facts_well_formed (key : str) (completion : nat -> option str)
    (facts modes : list str) (st : run) (cards : list card) :
  fst (ai_cards_from_facts key completion facts modes st) = Ok cards ->
  Forall well_formed_card cards.
Proof.
  unfold ai_cards_from_facts. destruct (negb (nonempty facts)).
  { intros H. injection H as <-. constructor. }
  destruct (negb (nonempty key)); [discriminate|].
  destruct (post_completion completion st) as [r st'].
  cbn [fst]. destruct r as [content|]; cbn [rbind]; [|discriminate].
  destruct (parse_json_array content) as [v|]; cbn [rbind]; [|discriminate].
  destruct (py_iter v) as [items|]; cbn [rbind]; [|discriminate].
  intros H. apply (@cards_from_items_spec items [] cards); [constructor | exact H].
Qed.

(** The cards that a reader returns are read from the answer to the
    request that the call has sent. *)
Lemma ai_generate_batch_read (key : str) (completion : nat -> option str)
    (chunk : str) (n : Z) (modes : list str) (y : Q) (st : run) (cards : list card) :
  fst (ai_generate_batch key completion chunk n modes y st) = Ok cards ->
  Forall (card_read completion
            (calls (snd (ai_generate_batch key completion chunk n modes y st)))) cards.
Proof.
  intros H. pose proof (ai_generate_batch_well_formed _ _ _ _ _ _ _ H) as Hwf.
  revert H. unfold ai_generate_batch. destruct (negb (nonempty key)); [discriminate|].
  unfold post_completion.
  destruct (completion (calls st)) as [content|] eqn:Ec; cbn [fst snd rbind calls];
    [|discriminate].
  destruct (parse_json_array content) as [v|] eqn:Ev; cbn [rbind]; [|discriminate].
  destruct (py_iter v) as [items|] eqn:Ei; cbn [rbind]; [|discriminate].
  intros H. rewrite Forall_forall in *. intros c Hc.
  split; [now apply Hwf|]. exists (calls st). split; [lia|].
  exists content, v, items. repeat split; try assumption.
  right. now exists n, cards.
Qed.

Lemma ai_cards_from_facts_read (key : str) (completion : nat -> option str)
    (facts modes : list str) (st : run) (cards : list card) :
  fst (ai_cards_from_facts key completion facts modes st) = Ok cards ->
  Forall (card_read completion
            (calls (snd (ai_cards_from_facts key completion facts modes st)))) cards.
Proof.
  intros H. pose proof (ai_cards_from_facts_well_formed _ _ _ _ _ H) as Hwf.
  revert H. unfold ai_cards_from_facts. destruct (negb (nonempty facts)).
  { intros H. injection H as <-. constructor. }
  destruct (negb (nonempty key)); [discriminate|].
  unfold post_completion.
  destruct (completion (calls st)) as [content|] eqn:Ec; cbn [fst snd rbind calls];
    [|discriminate].
  destruct (parse_json_array content) as [v|] eqn:Ev; cbn [rbind]; [|discriminate].
  destruct (py_iter v) as [items|] eqn:Ei; cbn [rbind]; [|discriminate].
  intros H. rewrite Forall_forall in *. intros c Hc.
  split; [now apply Hwf|]. exists (calls st). split; [lia|].
  exists content, v, items. repeat split; try assumption.
  left. now exists cards.
Qed.

Section Keeps.

Variable OPENAI_API_KEY : str.
Variable DEFAULT_CAP : Z.
Variable saving_month : nat -> str.
Variable completion : nat -> option str.

(** A property [R] of the state that a request to the service, the
    addition of a note made from a card read from an answer received so
    far and a save of the usage record keep, and a set [P] of outcomes
    that holds the exceptions no handler catches and the exhaustion of
    the fuel. *)
Variable R : run -> Prop.
Variable P : outcome -> Prop.

Hypothesis R_called : forall st, R st -> R (called st).
Hypothesis R_added :
  forall c st, card_read completion (calls st) c -> R st -> R (add_note (make_note c) st).
Hypothesis R_saved :
  forall st file used e, R st ->
    R {| calls := calls st; usage_file := file; deck := deck st;
         cards_added := cards_added st; usage := used; trace := e :: trace st |}.
Hypothesis P_unhandled : forall e, P (Unhandled e).
Hypothesis P_fuel : P OutOfFuel.

(** The step [m] keeps [R], goes on with a value in [Q] only and leaves
    the handler with an outcome in [P] only. *)
Definition keeps (A : Type) (m : M A) (Q : A -> Prop) : Prop :=
  forall st, R st ->
    match m st with
    | (Next a, st') => R st' /\ Q a
    | (Stop o, st') => R st' /\ P o
    end.

Lemma keeps_bind (A B : Type) (m : M A) (k : A -> M B) (Q : A -> Prop) (Q' : B -> Prop) :
  keeps m Q -> (forall a, Q a -> keeps (k a) Q') -> keeps (bind m k) Q'.
Proof.
  intros Hm Hk st HR. unfold bind. specialize (Hm st HR).
  destruct (m st) as [[a|o] st1]; [|exact Hm].
  destruct Hm as [HR1 HQ]. exact (Hk a HQ st1 HR1).
Qed.

Lemma keeps_at (A : Type) (m : M A) (Q : A -> Prop) (st : run) :
  keeps m Q -> R st ->
  match m st with
  | (Next a, st') => R st' /\ Q a
  | (Stop o, st') => R st' /\ P o
  end.
Proof. intros H HR. exact (H st HR). Qed.

Lemma keeps_ret (A : Type) (a : A) (Q : A -> Prop) : Q a -> keeps (ret a) Q.
Proof. intros HQ st HR. now split. Qed.

Lemma keeps_stop (A : Type) (o : outcome) (Q : A -> Prop) : P o -> keeps (stop o) Q.
Proof. intros HP st HR. now split. Qed.

Lemma keeps_try_ai (A : Type) (call : run -> result A * run) (why : exn -> failure)
    (Q : A -> Prop) :
  one_request call ->
  (forall st a, fst (call st) = Ok a -> Q a) ->
  (forall e, P (Failure 500 (why e))) ->
  keeps (try_ai call why) Q.
Proof.
  intros Hreq HQ HP st HR. unfold try_ai.
  assert (HR' : R (snd (call st))).
  { destruct (Hreq st) as [E|E]; rewrite E; [assumption | now apply R_called]. }
  specialize (HQ st).
  destruct (call st) as [[a|e] st1]; simpl in *.
  - split; [assumption | now apply HQ].
  - split; [assumption | apply HP].
Qed.

Lemma accept_cards_calls (cards : list card) (limit a : Z) (st : run) :
  calls (snd (accept_cards cards limit a st)) = calls st.
Proof.
  revert a st. induction cards as [|c rest IH]; intros a st; [reflexivity|].
  cbn [accept_cards]. destruct (cards_added st >=? limit)%Z; [reflexivity|].
  destruct (negb (nonempty (front c)) || negb (nonempty (back c))); [apply IH|].
  rewrite IH. reflexivity.
Qed.

Lemma accept_cards_keeps (cards : list card) (limit a : Z) (st : run) :
  Forall (card_read completion (calls st)) cards -> R st ->
  R (snd (accept_cards cards limit a st)).
Proof.
  revert a st. induction cards as [|c rest IH]; intros a st Hread HR.
  - exact HR.
  - apply Forall_cons_iff in Hread. destruct Hread as [Hc Hrest].
    cbn [accept_cards]. destruct (cards_added st >=? limit)%Z; [exact HR|].
    destruct (negb (nonempty (front c)) || negb (nonempty (back c))).
    + now apply IH.
    + apply IH; [exact Hrest | now apply R_added].
Qed.

Lemma keeps_debit (k : Z) :
  keeps (debit DEFAULT_CAP saving_month k) (fun _ => True).
Proof.
  intros st HR. unfold debit.
  destruct (dict_get K_CARDS_USED (usage st)) as [[| | u | | | |]|];
    try (split; [assumption | apply P_unhandled]).
  split; [|exact I]. now apply R_saved.
Qed.

(** One batch of a pipeline: the call, the accepted cards, then [rest]. *)
Lemma keeps_batch (A : Type) (call : run -> result (list card) * run)
    (why : exn -> failure) (limit : Z) (rest : Z -> M A) (Q : A -> Prop) :
  one_request call ->
  (forall st cards, fst (call st) = Ok cards ->
                    Forall (card_read completion (calls (snd (call st)))) cards) ->
  (forall e, P (Failure 500 (why e))) ->
  (forall k, keeps (rest k) Q) ->
  keeps (cards <- try_ai call why ;; k <- accept cards limit ;; rest k) Q.
Proof.
  intros Hreq Hread HP Hrest st HR. unfold bind at 1. unfold try_ai.
  assert (HR' : R (snd (call st))).
  { destruct (Hreq st) as [E|E]; rewrite E; [assumption | now apply R_called]. }
  specialize (Hread st).
  destruct (call st) as [[cards|e] st1]; cbn [fst snd] in *.
  - unfold bind, accept.
    pose proof (@accept_cards_keeps cards limit 0%Z st1 (Hread cards eq_refl) HR') as H.
    destruct (accept_cards cards limit 0 st1) as [n st2]. exact (Hrest n st2 H).
  - split; [assumption | apply HP].
Qed.

Lemma keeps_extract_loop (chunks normed all : list str) :
  (forall e, P (Failure 500 (AIExtractionError e))) ->
  keeps (extract_loop OPENAI_API_KEY completion chunks normed all) (fun _ => True).
Proof.
  intros HP. revert normed all.
  induction chunks as [|ch rest IH]; intros normed all.
  - now apply keeps_ret.
  - cbn [extract_loop].
    eapply keeps_bind with (Q := fun _ => True).
    + apply keeps_try_ai; [apply ai_extract_facts_request | trivial | exact HP].
    + intros facts _. destruct (merge_facts facts normed all) as [n1 a1]. apply IH.
Qed.

Lemma keeps_cardize_loop (fuel : nat) (all_facts modes : list str) (allowed i : Z) :
  (forall e, P (Failure 500 (AICardizationError e))) ->
  keeps (cardize_loop OPENAI_API_KEY DEFAULT_CAP saving_month completion fuel
                      all_facts modes allowed i) (fun _ => True).
Proof.
  intros HP. revert i. induction fuel as [|fuel IH]; intros i.
  - now apply keeps_stop.
  - cbn [cardize_loop]. destruct (i <? allowed)%Z; [|now apply keeps_ret].
    apply keeps_batch;
      [apply ai_cards_from_facts_request
      | intros st cards; apply ai_cards_from_facts_read | exact HP |].
    intros k. eapply keeps_bind with (Q := fun _ => True); [|intros _ _; apply IH].
    unfold debit_if_any. destruct (k >? 0)%Z; [apply keeps_debit | now apply keeps_ret].
Qed.

Lemma keeps_exhaustive (raw_text : str) (modes : list str) (words_chunk remaining : Z) :
  (forall e, P (Failure 500 (AIExtractionError e))) ->
  (forall e, P (Failure 500 (AICardizationError e))) ->
  P (Failure 422 NoExtractableFacts) ->
  P (Failure 422 NoCardsFromFacts) ->
  keeps (exhaustive OPENAI_API_KEY DEFAULT_CAP saving_month completion
                    raw_text modes words_chunk remaining) (fun _ => True).
Proof.
  intros H1 H2 H3 H4. unfold exhaustive.
  eapply keeps_bind; [now apply keeps_extract_loop|].
  intros all _. destruct (negb (nonempty all)); [now apply keeps_stop|].
  eapply keeps_bind; [now apply keeps_cardize_loop|].
  intros _ _ st HR. destruct (cards_added st =? 0)%Z; now split.
Qed.

Lemma keeps_chunk_calls (fuel : nat) (chunk : str) (modes : list str) (y : Q)
    (target produced total : Z) :
  (forall e, P (Failure 500 (AIGenerationError e))) ->
  keeps (chunk_calls OPENAI_API_KEY DEFAULT_CAP saving_month completion fuel
                     chunk modes y target produced total) (fun _ => True).
Proof.
  intros HP. revert produced. induction fuel as [|fuel IH]; intros produced.
  - now apply keeps_stop.
  - intros st HR. cbn [chunk_calls].
    destruct ((produced <? target)%Z && (cards_added st <? total)%Z); [|now split].
    apply keeps_at; [|exact HR].
    apply keeps_batch;
      [apply ai_generate_batch_request
      | intros st0 cards; apply ai_generate_batch_read | exact HP |].
    intros k. destruct (k >? 0)%Z; [|now apply keeps_ret].
    eapply keeps_bind; [apply keeps_debit|]. intros _ _. apply IH.
Qed.

Lemma keeps_chunks_loop (chunks : list (str * Z)) (modes : list str) (y : Q) (total : Z) :
  (forall e, P (Failure 500 (AIGenerationError e))) ->
  keeps (chunks_loop OPENAI_API_KEY DEFAULT_CAP saving_month completion
                     chunks modes y total) (fun _ => True).
Proof.
  intros HP. induction chunks as [|[chunk target] rest IH].
  - now apply keeps_ret.
  - cbn [chunks_loop]. eapply keeps_bind; [now apply keeps_chunk_calls|].
    intros _ _. exact IH.
Qed.

Lemma keeps_sweep_pass (chunks : list str) (modes : list str) (y : Q) (total : Z)
    (made_progress : bool) :
  (forall e, P (Failure 500 (AIGenerationError e))) ->
  keeps (sweep_pass OPENAI_API_KEY DEFAULT_CAP saving_month completion
                    chunks modes y total made_progress) (fun _ => True).
Proof.
  intros HP. revert made_progress.
  induction chunks as [|chunk rest IH]; intros made_progress.
  - now apply keeps_ret.
  - intros st HR. cbn [sweep_pass].
    destruct (cards_added st >=? total)%Z; [now split|].
    apply keeps_at; [|exact HR].
    apply keeps_batch;
      [apply ai_generate_batch_request
      | intros st0 cards; apply ai_generate_batch_read | exact HP |].
    intros k. destruct (k >? 0)%Z; [|apply IH].
    eapply keeps_bind; [apply keeps_debit|]. intros _ _. apply IH.
Qed.

Lemma keeps_sweep (fuel : nat) (chunks : list str) (modes : list str) (y : Q)
    (total : Z) :
  (forall e, P (Failure 500 (AIGenerationError e))) ->
  keeps (sweep OPENAI_API_KEY DEFAULT_CAP saving_month completion fuel
               chunks modes y total) (fun _ => True).
Proof.
  intros HP. induction fuel as [|fuel IH].
  - now apply keeps_stop.
  - intros st HR. cbn [sweep].
    destruct (cards_added st <? total)%Z; [|now split].
    apply keeps_at; [|exact HR].
    eapply keeps_bind; [now apply keeps_sweep_pass|].
    intros b _. destruct b; [exact IH | now apply keeps_ret].
Qed.

Lemma keeps_balanced (raw_text : str) (modes : list str) (y : Q)
    (approx words_chunk remaining : Z) :
  (forall e, P (Failure 500 (AIGenerationError e))) ->
  ((Z.min (estimate_total_cards raw_text approx y) remaining <= 0)%Z ->
   P (Failure 402 NoRemainingQuota)) ->
  P (Failure 422 NoCardsGenerated) ->
  keeps (balanced OPENAI_API_KEY DEFAULT_CAP saving_month completion
                  raw_text modes y approx words_chunk remaining) (fun _ => True).
Proof.
  intros H1 H2 H3. unfold balanced.
  destruct (Z.min (estimate_total_cards raw_text approx y) remaining <=? 0)%Z eqn:E.
  - apply keeps_stop. apply H2. lia.
  - eapply keeps_bind; [now apply keeps_chunks_loop|].
    intros _ _. eapply keeps_bind; [now apply keeps_sweep|].
    intros _ _ st HR. destruct (cards_added st =? 0)%Z; now split.
Qed.

End Keeps.

(** ** The answers of [build_apkg] *)

(** A note made from a card read from one of the first [k] answers. *)
Definition note_read (completion : nat -> option str) (k : nat) (n : note) : Prop :=
  exists c, card_read completion k c /\ n = make_note c.

(** The outcomes with which the exhaustive and the balanced pipeline may
    leave the handler, with their status. *)
Definition exhaustive_stop (o : outcome) : Prop :=
  match o with
  | Failure s why =>
      match why with
      | AIExtractionError _ | AICardizationError _ => s = 500%Z
      | NoExtractableFacts | NoCardsFromFacts => s = 422%Z
      | _ => False
      end
  | Apkg _ => False
  | Unhandled _ | OutOfFuel => True
  end.

Definition balanced_stop (target : Z) (o : outcome) : Prop :=
  match o with
  | Failure s why =>
      match why with
      | AIGenerationError _ => s = 500%Z
      | NoRemainingQuota => s = 402%Z /\ (target <= 0)%Z
      | NoCardsGenerated => s = 422%Z
      | _ => False
      end
  | Apkg _ => False
  | Unhandled _ | OutOfFuel => True
  end.

Lemma py_round_small (x : Q) : (0 <= x)%Q -> (x < 1 # 2)%Q -> py_round x = 0%Z.
Proof.
  intros H0 H1. unfold py_round.
  assert (Hf : Qfloor x = 0%Z).
  { pose proof (Qfloor_le x) as Hle. pose proof (Qlt_floor x) as Hlt.
    assert (A : (0 <= Qfloor x)%Z).
    { change 0%Z with (Qfloor 0). now apply Qfloor_resp_le. }
    assert (B : (Qfloor x < 1)%Z).
    { rewrite Zlt_Qlt. change (inject_Z 1) with 1%Q. lra. }
    lia. }
  rewrite Hf. change (inject_Z 0) with 0%Q.
  destruct (Qcompare (x - 0) (1 # 2)) eqn:E; compare_to_order; [lra | reflexivity | lra].
Qed.

Section Answers.

Variable OPENAI_API_KEY : str.
Variable DEFAULT_CAP : Z.
Variable current_month : str.
Variable saving_month : nat -> str.
Variable now : Z.
Variable lookup : str -> option sub_row.
Variable completion : nat -> option str.

Local Abbreviation handler :=
  (build_apkg OPENAI_API_KEY DEFAULT_CAP current_month saving_month now lookup completion).
Local Abbreviation remaining := (remaining_cap_at_start DEFAULT_CAP current_month).
Local Abbreviation start := (start_state DEFAULT_CAP current_month).

(** The address of a request, and the three checks that precede the
    loading of the usage record. *)
Definition address (req : request) : str := lower (strip (email req)).

Definition cleared (req : request) : Prop :=
  address req <> []
  /\ is_active now (lookup (address req)) = true
  /\ OPENAI_API_KEY <> [].

Definition estimate (req : request) : Z :=
  estimate_total_cards (text req) (approx_cards req) (yield_level req).

(** Every note of the deck was made from a card read from an answer that
    the run has received. *)
Definition notes_read (st : run) : Prop :=
  Forall (note_read completion (calls st)) (deck st).

Lemma notes_called (st : run) : notes_read st -> notes_read (called st).
Proof.
  unfold notes_read. cbn [called calls deck]. apply Forall_impl.
  intros n [c [[Hwf [i [Hi Hc]]] ->]]. exists c. split; [|reflexivity].
  split; [assumption|]. exists i. split; [lia | assumption].
Qed.

Lemma notes_added (c : card) (st : run) :
  card_read completion (calls st) c -> notes_read st ->
  notes_read (add_note (make_note c) st).
Proof.
  intros Hc Hd. unfold notes_read. cbn [add_note calls deck].
  apply Forall_snoc; [assumption|]. now exists c.
Qed.

Lemma notes_saved (st : run) (file : file_state) (used : dict) (e : event) :
  notes_read st ->
  notes_read {| calls := calls st; usage_file := file; deck := deck st;
                cards_added := cards_added st; usage := used; trace := e :: trace st |}.
Proof. intros H. exact H. Qed.

(** A run that passes the checks and finds quota left. *)
Lemma pipeline_run (req : request) (file : file_state) :
  cleared req -> (0 < remaining file)%Z ->
  notes_read (snd (handler req file))
  /\ match fst (handler req file) with
     | Apkg notes =>
         notes = deck (snd (handler req file))
         /\ (0 < cards_added (snd (handler req file)))%Z
         /\ Z.of_nat (length notes) = cards_added (snd (handler req file))
     | Failure s why =>
         if is_exhaustive (yield_level req)
         then exhaustive_stop (Failure s why)
         else balanced_stop (Z.min (estimate req) (remaining file)) (Failure s why)
     | Unhandled _ | OutOfFuel => False
     end.
Proof.
  intros [Ha [Hs Hk]] Hrem. rewrite build_apkg_unfold. fold (address req).
  apply nonempty_true in Ha, Hk. rewrite Ha, Hs, Hk. cbn [negb].
  replace (remaining file <=? 0)%Z with false by lia.
  destruct (loaded_usage_record DEFAULT_CAP current_month file) as [Hrec Hused].
  assert (Hcap : (0 <= cap_at_start DEFAULT_CAP current_month file)%Z)
    by (unfold remaining_cap_at_start in Hrem; lia).
  assert (Hstart : inv current_month saving_month
                       (snd (load_usage DEFAULT_CAP current_month file))
                       (used_at_start DEFAULT_CAP current_month file)
                       (cap_at_start DEFAULT_CAP current_month file) 0%Z (start file)).
  { unfold inv, start_state. simpl. rewrite Z.add_0_r.
    split; [assumption|]. split; [lia|]. split; [reflexivity|]. split; [reflexivity|].
    split; [lia|]. split; [reflexivity | now left]. }
  assert (Hnotes : notes_read (start file)) by constructor.
  destruct (is_exhaustive (yield_level req)).
  - pose proof (@exhaustive_final OPENAI_API_KEY DEFAULT_CAP current_month saving_month
                  completion _ _ _ Hused Hcap (text req)
                  (normalize_modes (match modes req with
                                    | [] => [Some BASIC_RECALL]
                                    | l => l
                                    end))
                  (words_chunk_of req) (remaining file) (start file) Hstart
                  ltac:(lia)) as Hfin.
    cbv zeta in Hfin.
    pose proof (@keeps_exhaustive OPENAI_API_KEY DEFAULT_CAP saving_month completion
                  notes_read exhaustive_stop
                  notes_called notes_added notes_saved
                  ltac:(intros; exact I) I (text req)
                  (normalize_modes (match modes req with
                                    | [] => [Some BASIC_RECALL]
                                    | l => l
                                    end))
                  (words_chunk_of req) (remaining file)
                  ltac:(intros; reflexivity) ltac:(intros; reflexivity)
                  eq_refl eq_refl (start file) Hnotes) as Hkeep.
    destruct (exhaustive _ _ _ _ _ _ _ _ (start file)) as [[u|o] st'];
      unfold post in Hfin; simpl fst; simpl snd.
    + destruct Hkeep as [HR _]. destruct Hfin as [[_ [_ [Hd _]]] Hpos].
      now repeat split.
    + destruct Hkeep as [HR HP]. destruct Hfin as [_ [s [w ->]]]. now split.
  - pose proof (@balanced_final OPENAI_API_KEY DEFAULT_CAP current_month saving_month
                  completion _ _ _ Hused Hcap (text req)
                  (normalize_modes (match modes req with
                                    | [] => [Some BASIC_RECALL]
                                    | l => l
                                    end))
                  (yield_level req) (approx_cards req)
                  (words_chunk_of req) (remaining file) (start file) Hstart
                  ltac:(lia)) as Hfin.
    cbv zeta in Hfin.
    pose proof (@keeps_balanced OPENAI_API_KEY DEFAULT_CAP saving_month completion
                  notes_read
                  (balanced_stop (Z.min (estimate req) (remaining file)))
                  notes_called notes_added notes_saved
                  ltac:(intros; exact I) I (text req)
                  (normalize_modes (match modes req with
                                    | [] => [Some BASIC_RECALL]
                                    | l => l
                                    end))
                  (yield_level req) (approx_cards req)
                  (words_chunk_of req) (remaining file)
                  ltac:(intros; reflexivity)
                  ltac:(intros H; split; [reflexivity | exact H])
                  eq_refl (start file) Hnotes) as Hkeep.
    destruct (balanced _ _ _ _ _ _ _ _ _ _ (start file)) as [[u|o] st'];
      unfold post in Hfin; simpl fst; simpl snd.
    + destruct Hkeep as [HR _]. destruct Hfin as [[_ [_ [Hd _]]] Hpos].
      now repeat split.
    + destruct Hkeep as [HR HP]. destruct Hfin as [_ [s [w ->]]]. now split.
Qed.

(** The checks in the order of the handler. *)
Lemma build_apkg_checks (req : request) (file : file_state) :
  (address req = [] /\ handler req file = (Failure 400 EmailRequired, new_run file))
  \/ (address req <> [] /\ is_active now (lookup (address req)) = false
      /\ handler req file = (Failure 402 SubscriptionInactive, new_run file))
  \/ (address req <> [] /\ is_active now (lookup (address req)) = true
      /\ OPENAI_API_KEY = []
      /\ handler req file = (Failure 500 MissingApiKey, new_run file))
  \/ (cleared req /\ (remaining file <= 0)%Z
      /\ handler req file = (Failure 402 MonthlyLimitReached, start file))
  \/ (cleared req /\ (0 < remaining file)%Z).
Proof.
  rewrite build_apkg_unfold. fold (address req). unfold cleared.
  destruct (address req) as [|c a] eqn:Ea; [left; now split|].
  right. cbn [nonempty negb].
  destruct (is_active now (lookup (c :: a))) eqn:Es; cbn [negb];
    [|left; repeat split; congruence].
  right. destruct OPENAI_API_KEY as [|k key] eqn:Ek; cbn [nonempty negb];
    [left; repeat split; congruence|].
  right. destruct (remaining file <=? 0)%Z eqn:Er.
  - left. repeat split; try congruence. lia.
  - right. repeat split; try congruence. lia.
Qed.

(** X19.  The error answers of [build_apkg] and the package, cause by
    cause, for a request whose fields the handler could read.  Status
    400: the address is missing or blank.  Status 402: the subscription
    is not active; or the monthly cap is used up; or, in the balanced
    pipeline, the target of the run is not positive.  Status 500: no key
    is configured; or a request to the completion service or the reading
    of its answer raised.  Status 422: no fact or no card came out.  The
    checks come in this order: address, subscription, key, cap; the three
    first leave the usage file untouched and the state as it was created.
    The errors of extraction and card-making belong to the exhaustive
    pipeline, the errors of generation to the balanced one.  A package is
    sent only with at least one note, and no loop of the model runs out
    of fuel.  Nothing is said of an exception that leaves the handler. *)
Theorem build_apkg_responses (req : request) (file : file_state) :
  let res := handler req file in
  match fst res with
  | Failure s why =>
      match why with
      | EmailRequired => s = 400%Z /\ address req = [] /\ snd res = new_run file
      | SubscriptionInactive =>
          s = 402%Z /\ address req <> []
          /\ is_active now (lookup (address req)) = false
          /\ snd res = new_run file
      | MissingApiKey =>
          s = 500%Z /\ address req <> []
          /\ is_active now (lookup (address req)) = true
          /\ OPENAI_API_KEY = [] /\ snd res = new_run file
      | MonthlyLimitReached =>
          s = 402%Z /\ cleared req /\ (remaining file <= 0)%Z /\ snd res = start file
      | AIExtractionError _ | AICardizationError _ =>
          s = 500%Z /\ cleared req /\ (0 < remaining file)%Z
          /\ is_exhaustive (yield_level req) = true
      | NoExtractableFacts | NoCardsFromFacts =>
          s = 422%Z /\ cleared req /\ (0 < remaining file)%Z
          /\ is_exhaustive (yield_level req) = true
      | AIGenerationError _ =>
          s = 500%Z /\ cleared req /\ (0 < remaining file)%Z
          /\ is_exhaustive (yield_level req) = false
      | NoRemainingQuota =>
          s = 402%Z /\ cleared req /\ (0 < remaining file)%Z
          /\ is_exhaustive (yield_level req) = false
          /\ (estimate req <= 0)%Z
      | NoCardsGenerated =>
          s = 422%Z /\ cleared req /\ (0 < remaining file)%Z
          /\ is_exhaustive (yield_level req) = false
      end
  | Apkg notes =>
      cleared req /\ (0 < remaining file)%Z
      /\ notes = deck (snd res) /\ notes <> []
      /\ Z.of_nat (length notes) = cards_added (snd res)
  | Unhandled _ => True
  | OutOfFuel => False
  end.
Proof.
  cbv zeta.
  destruct (build_apkg_checks req file)
    as [[Ha ->]|[[Ha [Hs ->]]|[[Ha [Hs [Hk ->]]]|[[Hadm [Hr ->]]|[Hadm Hr]]]]];
    simpl fst; simpl snd.
  - now repeat split.
  - now repeat split.
  - now repeat split.
  - split; [reflexivity|]. split; [assumption|]. now split.
  - destruct (pipeline_run file Hadm Hr) as [_ H].
    destruct (fst (handler req file)) as [s why|notes|e|] eqn:E;
      [| |exact I|exact H].
    + destruct (is_exhaustive (yield_level req)); simpl in H;
        destruct why; try contradiction;
        try (split; [exact H | split; [exact Hadm | split; [exact Hr | reflexivity]]]).
      destruct H as [H1 H2]. split; [exact H1|]. split; [exact Hadm|].
      split; [exact Hr|]. split; [reflexivity|]. lia.
    + destruct H as [-> [Hpos Hlen]]. split; [assumption|]. split; [assumption|].
      split; [reflexivity|]. split; [|exact Hlen].
      intros Hnil. rewrite Hnil in Hlen. simpl in Hlen. lia.
Qed.

(** X20.  Every note of the deck of a run, whatever its answer, was made
    from a card that [ai_cards_from_facts] or [ai_generate_batch] read
    from the answer to one of the requests of the run: the note is
    [make_note] of that card, so that its two fields are the front and
    the back of the card, both non-empty and without whitespace at either
    end, and its note type is the cloze type exactly when the mode of the
    card, a canonical one, is "Fill in the Blank". *)
Theorem build_apkg_notes (req : request) (file : file_state) :
  forall n, In n (deck (snd (handler req file))) ->
    exists c i,
      (i < calls (snd (handler req file)))%nat
      /\ card_of_answer completion i c
      /\ n = make_note c
      /\ fields n = (front c, back c)
      /\ front c <> [] /\ back c <> []
      /\ strip (front c) = front c /\ strip (back c) = back c
      /\ In (mode c) CANONICAL_MODES
      /\ (model n = cloze_model <-> mode c = FILL_IN_THE_BLANK).
Proof.
  assert (H : notes_read (snd (handler req file))).
  { destruct (build_apkg_checks req file)
      as [[Ha ->]|[[Ha [Hs ->]]|[[Ha [Hs [Hk ->]]]|[[Hadm [Hr ->]]|[Hadm Hr]]]]];
      try constructor.
    now destruct (pipeline_run file Hadm Hr). }
  intros n Hn. unfold notes_read in H. rewrite Forall_forall in H.
  destruct (H n Hn) as [c [[[H1 [H2 [H3 [H4 H5]]]] [i [Hi Hc]]] ->]].
  exists c, i. split; [exact Hi|]. split; [exact Hc|]. split; [reflexivity|].
  unfold make_note.
  destruct (str_eqb (mode c) FILL_IN_THE_BLANK) eqn:E; simpl;
    (split; [reflexivity|]); (split; [assumption|]); (split; [assumption|]);
    (split; [assumption|]); (split; [assumption|]); (split; [assumption|]).
  - apply str_eqb_eq in E. now split.
  - apply str_eqb_neq in E. split; [discriminate | contradiction].
Qed.

(** X21.  The answer "No remaining card quota" does not come from the
    cap: in a balanced run that passed the checks with quota left, it is
    given exactly when the estimated total is not positive, that is when
    the requested number of cards is not positive and the automatic
    estimate rounds to 0, as it does for every text of at most 27 words.
    Then no request is sent and the state is the one the checks left. *)
Theorem build_apkg_estimate_not_positive (req : request) (file : file_state) :
  cleared req -> (0 < remaining file)%Z -> is_exhaustive (yield_level req) = false ->
  ((estimate req <= 0)%Z
   <-> handler req file = (Failure 402 NoRemainingQuota, start file))
  /\ ((estimate req <= 0)%Z
      <-> (approx_cards req <= 0)%Z
          /\ py_round (inject_Z (word_count (text req)) / 1000
                       * cards_per_1000_words (yield_level req)) = 0%Z)
  /\ ((approx_cards req <= 0)%Z -> (word_count (text req) <= 27)%Z ->
      (estimate req <= 0)%Z).
Proof.
  intros Hadm Hr Hy.
  assert (Hauto : (0 <= py_round (inject_Z (word_count (text req)) / 1000
                                  * cards_per_1000_words (yield_level req)))%Z).
  { pose proof (estimate_total_cards_nonneg (text req)
                  (py_round (inject_Z (word_count (text req)) / 1000
                             * cards_per_1000_words (yield_level req)))
                  (yield_level req)) as H.
    unfold estimate_total_cards in H. lia. }
  split; [|split].
  - split.
    + intros He. rewrite build_apkg_unfold. fold (address req).
      destruct Hadm as [Ha [Hs Hk]]. apply nonempty_true in Ha, Hk.
      rewrite Ha, Hs, Hk, Hy. cbn [negb].
      replace (remaining file <=? 0)%Z with false by lia.
      unfold balanced. fold (estimate req).
      replace (Z.min (estimate req) (remaining file) <=? 0)%Z with true by lia.
      reflexivity.
    + intros H. destruct (pipeline_run file Hadm Hr) as [_ Hp].
      rewrite H, Hy in Hp. simpl in Hp. lia.
  - unfold estimate, estimate_total_cards. lia.
  - intros Ha Hw. unfold estimate, estimate_total_cards.
    rewrite py_round_small; [lia| |].
    + pose proof (cards_per_1000_words_range (yield_level req)) as Hd.
      apply Qmult_le_0_compat; [|lra].
      unfold Qdiv. apply Qmult_le_0_compat; [|easy].
      unfold word_count. change 0%Q with (inject_Z 0). rewrite <- Zle_Qle. lia.
    + pose proof (cards_per_1000_words_range (yield_level req)) as Hd.
      assert (Hq : (0 <= inject_Z (word_count (text req)) <= 27)%Q).
      { split.
        - unfold word_count. change 0%Q with (inject_Z 0). rewrite <- Zle_Qle. lia.
        - change 27%Q with (inject_Z 27). now rewrite <- Zle_Qle. }
      assert (Hp : (inject_Z (word_count (text req))
                    * cards_per_1000_words (yield_level req) <= 486)%Q) by nra.
      setoid_replace (inject_Z (word_count (text req)) / 1000
                      * cards_per_1000_words (yield_level req))%Q
        with (inject_Z (word_count (text req))
              * cards_per_1000_words (yield_level req) / 1000)%Q by field.
      set (p := (inject_Z (word_count (text req))
                 * cards_per_1000_words (yield_level req))%Q) in *.
      clearbody p. apply Qlt_shift_div_r; [reflexivity|]. lra.
Qed.

End Answers.

(** A request for no particular number of cards on a text of two words. *)
Definition small_request : request :=
  {| email := lit "a@b.c";
     deck_title := lit "Demo";
     text := lit "alpha beta";
     yield_level := 1 # 2;
     modes := [];
     approx_cards := 0;
     words_per_chunk := 700 |}.

Lemma build_apkg_estimate_not_positive_witness :
  build_apkg (lit "key") 50000 (lit "2026-11") (fun _ => lit "2026-11") 100 always_active
             (fun _ => None) small_request NoFile
  = (Failure 402 NoRemainingQuota, start_state 50000 (lit "2026-11") NoFile).
Proof.
  destruct (@build_apkg_estimate_not_positive (lit "key") 50000 (lit "2026-11")
              (fun _ => lit "2026-11") 100 always_active (fun _ => None)
              small_request NoFile)
    as [H1 [_ H3]].
  - split; [vm_compute; discriminate|]. split; [reflexivity | discriminate].
  - vm_compute. reflexivity.
  - reflexivity.
  - apply H1. apply H3; vm_compute; discriminate.
Defined.

(** The first note of the balanced run on [card_answers]. *)
Lemma build_apkg_notes_witness :
  exists c i,
    (i < 2)%nat
    /\ card_of_answer card_answers i c
    /\ {| model := cloze_model; fields := (lit "q1", lit "a") |} = make_note c.
Proof.
  destruct (@build_apkg_notes (lit "key") 50000 (lit "2026-11") (fun _ => lit "2026-11")
              100 always_active card_answers (demo_request (1 # 2)) NoFile
              {| model := cloze_model; fields := (lit "q1", lit "a") |})
    as [c [i [H1 [H2 [H3 _]]]]].
  - vm_compute. left. reflexivity.
  - exists c, i. split; [exact H1 | split; [exact H2 | exact H3]].
Defined.

(** ** The subscription check of [build_apkg] on the table *)

(** [sub = get_subscription(email)] as [is_active] reads it. *)
Definition table_lookup (db : table) (e : str) : option sub_row :=
  option_map sub_state (get_subscription (Some e) db).

Lemma api_checkout_sent (t : Z) (create_session : str -> option json)
    (body : option json) (db db' : table) (sent : json) :
  api_checkout t create_session body db = Ok (Sent sent, db') ->
  exists e raw,
    body_get (lit "email") body = Ok e
    /\ or_empty_strip e = Ok raw
    /\ raw <> []
    /\ db' = upsert_subscription t (Some (lower raw)) (Some (lit "incomplete"))
                                 None None None db.
Proof.
  unfold api_checkout.
  destruct (body_get (lit "email") body) as [e|x] eqn:Eb; cbn [rbind]; [|discriminate].
  destruct (or_empty_strip e) as [raw|x] eqn:Er; cbn [rbind]; [|discriminate].
  destruct (negb (nonempty (lower raw))) eqn:En; [discriminate|].
  destruct (create_session (lower raw)); [|discriminate].
  intros H. injection H as _ <-. exists e, raw.
  split; [reflexivity|]. split; [exact Er|]. split; [|reflexivity].
  intros ->. discriminate.
Qed.

Lemma table_lookup_after_upsert (t : Z) (email state : option str) (cpe : option Z)
    (cid sid : option str) (db : table) (now : Z) (e : str) :
  normalize_email (Some e) = normalize_email email ->
  is_active now (table_lookup (upsert_subscription t email state cpe cid sid db) e)
  = str_mem (lower (or_empty state)) [lit "active"; lit "trialing"]
    && (match cpe with Some z => z | None => 0%Z end >=? now)%Z.
Proof.
  intros Hsame. unfold table_lookup.
  destruct (@get_subscription_row t email (Some e) state cpe cid sid db Hsame)
    as [r [-> [_ [Hs [Hc _]]]]].
  simpl option_map. rewrite is_active_eq, Hs, Hc. reflexivity.
Qed.

Section Gate.

Variable OPENAI_API_KEY : str.
Variable DEFAULT_CAP : Z.
Variable current_month : str.
Variable saving_month : nat -> str.
Variable now : Z.
Variable completion : nat -> option str.

Local Abbreviation handler_on db :=
  (build_apkg OPENAI_API_KEY DEFAULT_CAP current_month saving_month now (table_lookup db) completion).

(** X22.  The subscription check on the table.  After a checkout that
    answered with a URL, a request for the same address is refused with
    status 402, and nothing is read or written, until the table is
    written again.  After [upsert_subscription] for the address of the
    request, the request is refused with status 402 when the status
    written is not "active" or "trialing" or the period end written is
    before the current time; otherwise it passes the subscription check:
    the answer is neither "Email is required" nor "Subscription
    inactive". *)
Theorem build_apkg_subscription_check (req : request) (file : file_state) (db : table) :
  (forall t create_session body sent db' e raw,
      api_checkout t create_session body db = Ok (Sent sent, db') ->
      body_get (lit "email") body = Ok e ->
      or_empty_strip e = Ok raw ->
      address req = lower raw ->
      handler_on db' req file = (Failure 402 SubscriptionInactive, new_run file))
  /\ (forall t email state cpe cid sid,
        normalize_email email = address req ->
        address req <> [] ->
        let db' := upsert_subscription t email state cpe cid sid db in
        let good :=
          str_mem (lower (or_empty state)) [lit "active"; lit "trialing"]
          && (match cpe with Some z => z | None => 0%Z end >=? now)%Z in
        (good = false ->
         handler_on db' req file = (Failure 402 SubscriptionInactive, new_run file))
        /\ (good = true ->
            forall s, fst (handler_on db' req file) <> Failure s EmailRequired
                      /\ fst (handler_on db' req file) <> Failure s SubscriptionInactive)).
Proof.
  assert (Hfix : normalize_email (Some (address req)) = address req)
    by (apply lower_strip_fixed).
  split.
  - intros t create_session body sent db' e raw Hc He Hraw Haddr.
    destruct (api_checkout_sent _ _ _ _ Hc) as [e' [raw' [He' [Hraw' [Hne ->]]]]].
    rewrite He in He'. injection He' as <-.
    rewrite Hraw in Hraw'. injection Hraw' as <-.
    assert (Hact : is_active now
                     (table_lookup
                        (upsert_subscription t (Some (lower raw)) (Some (lit "incomplete"))
                                             None None None db) (address req)) = false).
    { rewrite table_lookup_after_upsert; [reflexivity|].
      rewrite Hfix, Haddr. unfold normalize_email. simpl or_empty.
      rewrite <- Haddr. unfold address. now rewrite strip_lower, strip_idempotent,
                                          lower_idempotent. }
    rewrite build_apkg_unfold. fold (address req). rewrite Hact.
    assert (Ha : nonempty (address req) = true).
    { rewrite Haddr. destruct raw; [congruence | reflexivity]. }
    rewrite Ha. reflexivity.
  - intros t email state cpe cid sid Hsame Hne. cbv zeta.
    assert (Hact := @table_lookup_after_upsert t email state cpe cid sid db now
                      (address req) ltac:(now rewrite Hfix)).
    apply nonempty_true in Hne.
    split.
    + intros Hgood. rewrite build_apkg_unfold. fold (address req).
      now rewrite Hne, Hact, Hgood.
    + intros Hgood s.
      destruct (@build_apkg_checks OPENAI_API_KEY DEFAULT_CAP current_month saving_month now
                  (table_lookup (upsert_subscription t email state cpe cid sid db))
                  completion req file)
        as [[Ha _]|[[_ [Hs _]]|[[_ [_ [_ ->]]]|[[_ [_ ->]]|[Hadm Hr]]]]].
      * apply nonempty_true in Hne. contradiction.
      * rewrite Hact, Hgood in Hs. discriminate.
      * split; discriminate.
      * split; discriminate.
      * destruct (@pipeline_run OPENAI_API_KEY DEFAULT_CAP current_month saving_month now _
                    completion req file Hadm Hr) as [_ H].
        destruct (fst (build_apkg _ _ _ _ _ _ _ req file)) as [s' why|notes| |];
          [|split; discriminate|contradiction|contradiction].
        destruct (is_exhaustive (yield_level req)); simpl in H;
          destruct why; try contradiction; split; discriminate.
Qed.

End Gate.

(** The subscriber of the checkout example asks for a deck after the
    checkout: the request is refused, and no usage file is created. *)
Lemma build_apkg_subscription_check_witness :
  let db := upsert_subscription 1 (Some (lit "a@b.c")) (Some (lit "active"))
                                (Some 900%Z) (Some (lit "cus_1")) None [] in
  let body := Some (JObj [(lit "email", JStr (lit " A@b.c"))]) in
  exists db',
    api_checkout 7 (fun _ => Some (JStr (lit "https://pay"))) body db
    = Ok (Sent (JObj [(lit "url", JStr (lit "https://pay"))]), db')
    /\ build_apkg (lit "key") 50000 (lit "2026-11") (fun _ => lit "2026-11") 100
                  (table_lookup db') card_answers (demo_request (1 # 2)) NoFile
       = (Failure 402 SubscriptionInactive, new_run NoFile).
Proof.
  intros db body. eexists. split; [reflexivity|].
  destruct (@build_apkg_subscription_check (lit "key") 50000 (lit "2026-11")
              (fun _ => lit "2026-11") 100 card_answers (demo_request (1 # 2)) NoFile db)
    as [H _].
  apply (H 7%Z (fun _ => Some (JStr (lit "https://pay"))) body
           (JObj [(lit "url", JStr (lit "https://pay"))]) _
           (Some (JStr (lit " A@b.c"))) (lit "A@b.c"));
    reflexivity.
Defined.

(** ** Fact keys: case and layout *)

Lemma lower_char_keeps (c : N) :
  is_digit (lower_char c) = is_digit c
  /\ N.eqb (lower_char c) LBRACKET = N.eqb c LBRACKET
  /\ N.eqb (lower_char c) RBRACKET = N.eqb c RBRACKET
  /\ N.eqb (lower_char c) NBSP = N.eqb c NBSP
  /\ N.eqb (lower_char c) PERIOD = N.eqb c PERIOD.
Proof.
  unfold lower_char, is_digit, LBRACKET, RBRACKET, NBSP, PERIOD.
  destruct ((65 <=? c)%N && (c <=? 90)%N) eqn:A;
    [|destruct ((192 <=? c)%N && (c <=? 222)%N && negb (c =? 215)%N) eqn:B];
    repeat split; lia.
Qed.

Lemma take_while_lower (p : N -> bool) (s : str) :
  (forall c, p (lower_char c) = p c) ->
  take_while p (lower s) = lower (take_while p s).
Proof.
  intros Hp. induction s as [|c r IH]; [reflexivity|].
  simpl. rewrite Hp. destruct (p c); [|reflexivity].
  simpl. f_equal. exact IH.
Qed.

Lemma drop_while_lower (p : N -> bool) (s : str) :
  (forall c, p (lower_char c) = p c) ->
  drop_while p (lower s) = lower (drop_while p s).
Proof.
  intros Hp. induction s as [|c r IH]; [reflexivity|].
  simpl. rewrite Hp. destruct (p c); [exact IH | reflexivity].
Qed.

Lemma match_citation_lower (s : str) : match_citation (lower s) = match_citation s.
Proof.
  destruct s as [|c r]; [reflexivity|].
  unfold match_citation. cbn [lower map]. fold (lower r).
  destruct (lower_char_keeps c) as [_ [Hl _]]. rewrite Hl.
  destruct (N.eqb c LBRACKET); [|reflexivity].
  assert (Hsp : forall c, is_space (lower_char c) = is_space c)
    by apply is_space_lower_char.
  assert (Hdg : forall c, is_digit (lower_char c) = is_digit c)
    by (intros d; apply lower_char_keeps).
  rewrite !(drop_while_lower _ r Hsp), !(take_while_lower _ r Hsp).
  rewrite !(drop_while_lower _ _ Hdg), !(take_while_lower _ _ Hdg).
  rewrite !(drop_while_lower _ _ Hsp), !(take_while_lower _ _ Hsp).
  unfold lower. rewrite !length_map.
  destruct (take_while is_digit (drop_while is_space r)) as [|d ds]; [reflexivity|].
  cbn [map].
  destruct (drop_while is_space (drop_while is_digit (drop_while is_space r)))
    as [|e r3]; [reflexivity|].
  cbn [map]. destruct (lower_char_keeps e) as [_ [_ [Hr _]]]. now rewrite Hr.
Qed.

Lemma sub_citations_from_lower (k : nat) (s : str) :
  sub_citations_from k (lower s) = lower (sub_citations_from k s).
Proof.
  revert k. induction s as [|c r IH]; intros k; [reflexivity|].
  change (lower (c :: r)) with (lower_char c :: lower r).
  cbn [sub_citations_from]. destruct k as [|k]; [|apply IH].
  change (lower_char c :: lower r) with (lower (c :: r)).
  rewrite match_citation_lower.
  destruct (match_citation (c :: r)); [apply IH|].
  cbn [lower map]. f_equal. apply IH.
Qed.

Lemma replace_nbsp_lower (s : str) : replace_nbsp (lower s) = lower (replace_nbsp s).
Proof.
  unfold replace_nbsp, lower. rewrite !map_map. apply map_ext. intros c.
  destruct (lower_char_keeps c) as [_ [_ [_ [Hn _]]]]. rewrite Hn.
  now destruct (N.eqb c NBSP).
Qed.

Lemma collapse_from_lower (b : bool) (s : str) :
  collapse_from b (lower s) = lower (collapse_from b s).
Proof.
  revert b. induction s as [|c r IH]; intros b; [reflexivity|].
  cbn [lower map collapse_from]. fold (lower r). rewrite is_space_lower_char.
  destruct (is_space c).
  - destruct b; [apply IH|]. cbn [lower map]. f_equal. apply IH.
  - cbn [lower map]. f_equal. apply IH.
Qed.

Lemma clean_text_lower (s : str) : clean_text (lower s) = lower (clean_text s).
Proof.
  unfold clean_text, sub_citations, collapse_ws.
  now rewrite sub_citations_from_lower, replace_nbsp_lower, collapse_from_lower,
    strip_lower.
Qed.

Lemma strip_trailing_period_lower (s : str) :
  lower s = s -> lower (strip_trailing_period s) = strip_trailing_period s.
Proof.
  induction s as [|c r IH]; intros H; [reflexivity|].
  cbn [strip_trailing_period]. destruct (is_period_tail (c :: r)); [reflexivity|].
  cbn [lower map] in *. injection H as Hc Hr. fold (lower r) in Hr.
  fold (lower (strip_trailing_period r)). now rewrite Hc, IH.
Qed.

(** A string of code points below 256 (Latin-1): on such strings [lower]
    is [str.lower] and [is_digit] the class [\d] of the source. *)
Definition latin1 (s : str) : bool := forallb (fun c => (c <? 256)%N) s.

(** X23.  On facts of Latin-1 characters the key of a fact takes no
    account of case: a fact and its lower-case form have the same key, so
    two facts that differ in case only are duplicates of each other, and
    the key itself is in lower case.  In facts without citation marker
    the key takes no account of the layout either: two facts with the
    same words have the same key. *)
Theorem normalize_fact_ignores_case (f g : str) :
  latin1 f = true -> latin1 g = true ->
  normalize_fact (lower f) = normalize_fact f
  /\ (lower f = lower g -> normalize_fact f = normalize_fact g)
  /\ lower (normalize_fact f) = normalize_fact f
  /\ (has_citation f = false -> has_citation g = false -> split f = split g ->
      normalize_fact f = normalize_fact g).
Proof.
  intros _ _.
  assert (H1 : forall h, normalize_fact (lower h) = normalize_fact h).
  { intros h. unfold normalize_fact. now rewrite clean_text_lower, lower_idempotent. }
  split; [apply H1|]. split; [|split].
  - intros H. rewrite <- (H1 f), <- (H1 g). now rewrite H.
  - unfold normalize_fact. apply strip_trailing_period_lower, lower_idempotent.
  - intros Hf Hg Hs. unfold normalize_fact.
    rewrite (clean_text_join f), (clean_text_join g).
    now rewrite (sub_citations_none _ Hf), (sub_citations_none _ Hg), Hs.
Qed.

(** Two spellings of one fact. *)
Lemma normalize_fact_ignores_case_witness :
  normalize_fact (lit "The SKY [1] is Blue.") = normalize_fact (lit "the sky [1] IS blue.").
Proof.
  destruct (@normalize_fact_ignores_case (lit "The SKY [1] is Blue.")
              (lit "the sky [1] IS blue.") eq_refl eq_refl) as [_ [H _]].
  apply H. reflexivity.
Defined.

Example normalize_fact_case_ex :
  normalize_fact (lit "  The  SKY is Blue. ") = lit "the sky is blue"
  /\ normalize_fact (lit "the sky is blue") = lit "the sky is blue"
  /\ normalize_fact (lit "a..") = lit "a.".
Proof. vm_compute. repeat split; reflexivity. Qed.

(** ** The number of requests of a run *)

Definition requests (st : run) : Z := Z.of_nat (calls st).

Section Cost.

Variable OPENAI_API_KEY : str.
Variable DEFAULT_CAP : Z.
Variable current_month : str.
Variable saving_month : nat -> str.
Variable completion : nat -> option str.

Lemma one_request_cost (A : Type) (call : run -> result A * run) (st : run) :
  one_request call ->
  (requests (snd (call st)) <= requests st + 1)%Z
  /\ cards_added (snd (call st)) = cards_added st.
Proof.
  intros H. unfold requests. destruct (H st) as [-> | ->]; simpl; split; lia.
Qed.

Lemma accept_cards_cost (cards : list card) (limit a : Z) (st : run) :
  calls (snd (accept_cards cards limit a st)) = calls st
  /\ cards_added (snd (accept_cards cards limit a st))
     = (cards_added st + (fst (accept_cards cards limit a st) - a))%Z
  /\ (a <= fst (accept_cards cards limit a st))%Z.
Proof.
  revert a st. induction cards as [|c rest IH]; intros a st.
  - simpl. repeat split; lia.
  - cbn [accept_cards]. destruct (cards_added st >=? limit)%Z.
    + simpl. repeat split; lia.
    + destruct (negb (nonempty (front c)) || negb (nonempty (back c))); [apply IH|].
      destruct (IH (a + 1)%Z (add_note (make_note c) st)) as [H1 [H2 H3]].
      rewrite H1, H2. simpl. repeat split; lia.
Qed.

(** One batch: either the call fails, at the cost of at most one request
    and without a card, or the run goes on with [rest k] after at most
    one request and [k] cards. *)
Lemma batch_cost (A : Type) (call : run -> result (list card) * run)
    (why : exn -> failure) (limit : Z) (rest : Z -> M A) (st : run) :
  one_request call ->
  let r := (cards <- try_ai call why ;; k <- accept cards limit ;; rest k) st in
  (exists st1 k,
      (requests st1 <= requests st + 1)%Z
      /\ cards_added st1 = (cards_added st + k)%Z /\ (0 <= k)%Z
      /\ r = rest k st1)
  \/ ((requests (snd r) <= requests st + 1)%Z
      /\ cards_added (snd r) = cards_added st
      /\ exists o, fst r = Stop o).
Proof.
  intros Hreq r. subst r. unfold bind, try_ai.
  destruct (one_request_cost st Hreq) as [Hc Ha].
  destruct (call st) as [[cards|e] st0]; simpl in Hc, Ha.
  - left. unfold accept.
    destruct (accept_cards_cost cards limit 0 st0) as [H1 [H2 H3]].
    destruct (accept_cards cards limit 0 st0) as [k st1]. simpl in *.
    exists st1, k. unfold requests in *. repeat split; try lia.
  - right. simpl. repeat split; try assumption. now exists (Failure 500 (why e)).
Qed.

(** A debit costs no request and adds no card, also when it fails. *)
Lemma debit_cost (A : Type) (k : Z) (next : M A) (st : run) :
  let r := (_ <- debit DEFAULT_CAP saving_month k ;; next) st in
  (exists st2, calls st2 = calls st /\ cards_added st2 = cards_added st /\ r = next st2)
  \/ (snd r = st /\ exists o, fst r = Stop o).
Proof.
  cbv zeta. unfold bind, debit.
  destruct (dict_get K_CARDS_USED (usage st)) as [[| | u | | | |]|];
    try (right; split; [reflexivity | eexists; reflexivity]).
  left. eexists. split; [|split; [|reflexivity]]; reflexivity.
Qed.

Lemma extract_loop_cost (chunks normed all : list str) (st : run) :
  let st' := snd (extract_loop OPENAI_API_KEY completion chunks normed all st) in
  (requests st' <= requests st + Z.of_nat (length chunks))%Z
  /\ cards_added st' = cards_added st.
Proof.
  revert normed all st. induction chunks as [|ch rest IH]; intros normed all st.
  - simpl. split; lia.
  - cbn [extract_loop]. unfold bind, try_ai.
    destruct (one_request_cost st
                (@ai_extract_facts_request OPENAI_API_KEY completion ch (max_facts_for ch)))
      as [Hc Ha].
    destruct (ai_extract_facts OPENAI_API_KEY completion ch (max_facts_for ch) st)
      as [[facts|e] st1]; simpl in Hc, Ha.
    + destruct (merge_facts facts normed all) as [n1 a1].
      destruct (IH n1 a1 st1) as [H1 H2]. cbv zeta in *.
      rewrite H2. simpl length. split; lia.
    + simpl. simpl length. split; lia.
Qed.

(** The rounds of [cardize_loop] that remain at the index [i]. *)
Definition rounds (allowed i : Z) : Z := Z.max 0 ((allowed - i + 49) / 50).

Lemma rounds_step (allowed i : Z) :
  (i < allowed)%Z -> rounds allowed i = (1 + rounds allowed (i + 50))%Z.
Proof.
  intros H. unfold rounds.
  replace (allowed - i + 49)%Z with (1 * 50 + (allowed - (i + 50) + 49))%Z by lia.
  rewrite Z.div_add_l by lia.
  assert (-1 <= (allowed - (i + 50) + 49) / 50)%Z.
  { apply Z.div_le_lower_bound; lia. }
  assert (0 <= (allowed - (i + 50) + 49) / 50)%Z.
  { apply Z.div_pos; lia. }
  lia.
Qed.

Lemma cardize_loop_cost (fuel : nat) (all_facts modes : list str) (allowed i : Z)
    (st : run) :
  let st' := snd (cardize_loop OPENAI_API_KEY DEFAULT_CAP saving_month completion fuel
                               all_facts modes allowed i st) in
  (requests st' <= requests st + rounds allowed i)%Z.
Proof.
  revert i st. induction fuel as [|fuel IH]; intros i st; cbv zeta.
  - simpl. unfold rounds. lia.
  - cbn [cardize_loop]. destruct (i <? allowed)%Z eqn:Ei.
    + rewrite (@rounds_step allowed i) by lia.
      match goal with
      | |- context [bind (try_ai ?call ?why)
                         (fun cards => bind (accept cards ?limit) ?rest) ?s] =>
          destruct (@batch_cost _ call why limit rest s
                      (@ai_cards_from_facts_request OPENAI_API_KEY completion _ _))
            as [[st1 [k [Hc [Ha [Hk ->]]]]]|[Hc _]]
      end.
      * unfold debit_if_any. destruct (k >? 0)%Z.
        -- destruct (@debit_cost _ k
                       (cardize_loop OPENAI_API_KEY DEFAULT_CAP saving_month completion
                                     fuel all_facts modes allowed (i + 50)) st1)
             as [[st2 [H1 [H2 ->]]]|[-> _]].
           ++ specialize (IH (i + 50)%Z st2). cbv zeta in IH.
              unfold requests in *. lia.
           ++ pose proof (Z.le_max_l 0 ((allowed - (i + 50) + 49) / 50)).
              unfold rounds. lia.
        -- unfold bind, ret. specialize (IH (i + 50)%Z st1). cbv zeta in IH. lia.
      * pose proof (Z.le_max_l 0 ((allowed - (i + 50) + 49) / 50)).
        unfold rounds. lia.
    + simpl. unfold rounds. lia.
Qed.

Lemma chunk_calls_cost (fuel : nat) (chunk : str) (modes : list str) (y : Q)
    (target produced total : Z) (st : run) :
  let st' := snd (chunk_calls OPENAI_API_KEY DEFAULT_CAP saving_month completion fuel
                              chunk modes y target produced total st) in
  (requests st' <= requests st + (cards_added st' - cards_added st) + 1)%Z
  /\ (cards_added st <= cards_added st')%Z.
Proof.
  revert produced st. induction fuel as [|fuel IH]; intros produced st; cbv zeta.
  - simpl. split; lia.
  - cbn [chunk_calls].
    destruct ((produced <? target)%Z && (cards_added st <? total)%Z); [|simpl; split; lia].
    match goal with
    | |- context [bind (try_ai ?call ?why)
                       (fun cards => bind (accept cards ?limit) ?rest) ?s] =>
        destruct (@batch_cost _ call why limit rest s
                    (@ai_generate_batch_request OPENAI_API_KEY completion _ _ _ _))
          as [[st1 [k [Hc [Ha [Hk ->]]]]]|[Hc [Ha _]]]
    end.
    + destruct (k >? 0)%Z eqn:Ek.
      * destruct (@debit_cost _ k
                    (chunk_calls OPENAI_API_KEY DEFAULT_CAP saving_month completion
                                 fuel chunk modes y target (produced + k) total) st1)
          as [[st2 [H1 [H2 ->]]]|[-> _]].
        -- destruct (IH (produced + k)%Z st2) as [I1 I2].
           unfold requests in *. split; lia.
        -- split; lia.
      * unfold ret. simpl. split; lia.
    + split; lia.
Qed.

Lemma chunks_loop_cost (chunks : list (str * Z)) (modes : list str) (y : Q)
    (total : Z) (st : run) :
  let st' := snd (chunks_loop OPENAI_API_KEY DEFAULT_CAP saving_month completion
                              chunks modes y total st) in
  (requests st' <= requests st + (cards_added st' - cards_added st)
                   + Z.of_nat (length chunks))%Z
  /\ (cards_added st <= cards_added st')%Z.
Proof.
  revert st. induction chunks as [|[chunk target] rest IH]; intros st; cbv zeta.
  - simpl. split; lia.
  - cbn [chunks_loop]. unfold bind.
    destruct (@chunk_calls_cost (S (Z.to_nat target)) chunk modes y target 0 total st)
      as [H1 H2].
    destruct (chunk_calls _ _ _ _ _ _ _ _ _ _ _ st) as [[u|o] st1]; simpl in H1, H2.
    + destruct (IH st1) as [I1 I2]. simpl length. split; lia.
    + simpl. simpl length. split; lia.
Qed.

Lemma sweep_pass_cost (chunks : list str) (modes : list str) (y : Q) (total : Z)
    (made_progress : bool) (st : run) :
  let r := sweep_pass OPENAI_API_KEY DEFAULT_CAP saving_month completion
                      chunks modes y total made_progress st in
  (requests (snd r) <= requests st + Z.of_nat (length chunks))%Z
  /\ (cards_added st <= cards_added (snd r))%Z
  /\ (fst r = Next true ->
      made_progress = true \/ (cards_added st < cards_added (snd r))%Z).
Proof.
  revert made_progress st.
  induction chunks as [|chunk rest IH]; intros made_progress st; cbv zeta.
  - simpl. repeat split; try lia. intros H. injection H as ->. now left.
  - cbn [sweep_pass]. simpl length.
    destruct (cards_added st >=? total)%Z.
    { simpl. repeat split; try lia. intros H. injection H as ->. now left. }
    match goal with
    | |- context [bind (try_ai ?call ?why)
                       (fun cards => bind (accept cards ?limit) ?rest) ?s] =>
        destruct (@batch_cost _ call why limit rest s
                    (@ai_generate_batch_request OPENAI_API_KEY completion _ _ _ _))
          as [[st1 [k [Hc [Ha [Hk ->]]]]]|[Hc [Ha [o Ho]]]]
    end.
    + destruct (k >? 0)%Z eqn:Ek.
      * destruct (@debit_cost _ k
                    (sweep_pass OPENAI_API_KEY DEFAULT_CAP saving_month completion
                                rest modes y total true) st1)
          as [[st2 [H1 [H2 ->]]]|[Hs [o Ho]]].
        -- destruct (IH true st2) as [I1 [I2 I3]]. unfold requests in *.
           split; [lia|]. split; [lia|]. intros _. right. lia.
        -- rewrite Hs, Ho. split; [lia|]. split; [lia | discriminate].
      * destruct (IH made_progress st1) as [I1 [I2 I3]].
        split; [lia|]. split; [lia|].
        intros H. destruct (I3 H) as [?|?]; [now left | right; lia].
    + rewrite Ho. split; [lia|]. split; [lia | discriminate].
Qed.

Lemma sweep_cost (fuel : nat) (chunks : list str) (modes : list str) (y : Q)
    (total : Z) (st : run) :
  let st' := snd (sweep OPENAI_API_KEY DEFAULT_CAP saving_month completion fuel
                        chunks modes y total st) in
  (requests st' <= requests st
                   + Z.of_nat (length chunks) * (cards_added st' - cards_added st + 1))%Z
  /\ (cards_added st <= cards_added st')%Z.
Proof.
  revert st. induction fuel as [|fuel IH]; intros st; cbv zeta.
  - simpl. split; nia.
  - cbn [sweep]. destruct (cards_added st <? total)%Z; [|simpl; split; nia].
    unfold bind.
    destruct (@sweep_pass_cost chunks modes y total false st) as [H1 [H2 H3]].
    destruct (sweep_pass _ _ _ _ _ _ _ _ _ st) as [[b|o] st1]; simpl in H1, H2, H3.
    + destruct b.
      * destruct (H3 eq_refl) as [?|Hlt]; [discriminate|].
        destruct (IH st1) as [I1 I2]. split; nia.
      * unfold ret. simpl. split; nia.
    + simpl. split; nia.
Qed.

End Cost.

Section RunCost.

Variable OPENAI_API_KEY : str.
Variable DEFAULT_CAP : Z.
Variable current_month : str.
Variable saving_month : nat -> str.
Variable now : Z.
Variable lookup : str -> option sub_row.
Variable completion : nat -> option str.

Local Abbreviation handler :=
  (build_apkg OPENAI_API_KEY DEFAULT_CAP current_month saving_month now lookup completion).
Local Abbreviation remaining := (remaining_cap_at_start DEFAULT_CAP current_month).
Local Abbreviation start := (start_state DEFAULT_CAP current_month).
Local Abbreviation target :=
  (run_target OPENAI_API_KEY DEFAULT_CAP current_month completion).

Lemma start_inv (file : file_state) :
  (0 < remaining file)%Z ->
  (0 <= used_at_start DEFAULT_CAP current_month file)%Z
  /\ (0 <= cap_at_start DEFAULT_CAP current_month file)%Z
  /\ inv current_month saving_month (snd (load_usage DEFAULT_CAP current_month file))
         (used_at_start DEFAULT_CAP current_month file)
         (cap_at_start DEFAULT_CAP current_month file) 0%Z (start file).
Proof.
  intros Hrem.
  destruct (loaded_usage_record DEFAULT_CAP current_month file) as [Hrec Hused].
  split; [exact Hused|].
  split; [unfold remaining_cap_at_start in Hrem; lia|].
  unfold inv, start_state. simpl. rewrite Z.add_0_r.
  repeat split; try assumption; try reflexivity; lia.
Qed.

(** The cards of a balanced run stay within its target. *)
Lemma balanced_cards_range (req : request) (file : file_state) :
  (0 < remaining file)%Z -> is_exhaustive (yield_level req) = false ->
  let st' :=
    snd (balanced OPENAI_API_KEY DEFAULT_CAP saving_month completion (text req)
           (normalize_modes (match modes req with
                             | [] => [Some BASIC_RECALL]
                             | l => l
                             end))
           (yield_level req) (approx_cards req) (words_chunk_of req) (remaining file)
           (start file)) in
  (0 <= cards_added st' <= target req file)%Z.
Proof.
  intros Hrem Hy. destruct (start_inv file Hrem) as [Hused [Hcap Hstart]].
  pose proof (@balanced_final OPENAI_API_KEY DEFAULT_CAP current_month saving_month completion
                _ _ _ Hused Hcap (text req)
                (normalize_modes (match modes req with
                                  | [] => [Some BASIC_RECALL]
                                  | l => l
                                  end))
                (yield_level req) (approx_cards req)
                (words_chunk_of req) (remaining file) (start file) Hstart
                ltac:(lia)) as Hfin.
  cbv zeta in *. unfold run_target. rewrite Hy.
  destruct (balanced _ _ _ _ _ _ _ _ _ _ (start file)) as [[u|o] st'];
    unfold post in Hfin; destruct Hfin as [Hinv _]; simpl snd;
    exact (inv_cards_range Hinv).
Qed.

(** X24.  The requests of one run of [build_apkg] to the completion
    service are bounded before the run starts.  For the [c] chunks of the
    text and the target [t] of the run (the number of deduplicated facts,
    or the estimated total, capped by the cap that remained): an
    exhaustive run sends at most [c + ceil(t / 50)] requests, one per
    chunk and one per batch of 50 facts; a balanced run sends at most
    [(c + 1) (a + 2)] requests when it adds [a] cards, hence at most
    [(c + 1) (t + 2)].  A request that is refused by one of the checks
    sends none. *)
Theorem build_apkg_requests (req : request) (file : file_state) :
  let res := handler req file in
  let c := Z.of_nat (length (chunk_by_words (text req) (words_chunk_of req) 120)) in
  (is_exhaustive (yield_level req) = true ->
   (requests (snd res) <= c + (target req file + 49) / 50)%Z)
  /\ (is_exhaustive (yield_level req) = false ->
      (requests (snd res) <= (c + 1) * (cards_added (snd res) + 2))%Z
      /\ (requests (snd res) <= (c + 1) * (target req file + 2))%Z)
  /\ (forall s why,
        fst res = Failure s why ->
        why = EmailRequired \/ why = SubscriptionInactive \/ why = MissingApiKey
        \/ why = MonthlyLimitReached ->
        requests (snd res) = 0%Z).
Proof.
  cbv zeta.
  set (c := Z.of_nat (length (chunk_by_words (text req) (words_chunk_of req) 120))).
  assert (Hc : (0 <= c)%Z) by (subst c; lia).
  pose proof (run_target_range OPENAI_API_KEY DEFAULT_CAP current_month completion
                req file) as Ht.
  assert (Hdiv : (0 <= (target req file + 49) / 50)%Z) by (apply Z.div_pos; lia).
  assert (Hearly : forall o st, calls st = 0%nat -> cards_added st = 0%Z ->
            (is_exhaustive (yield_level req) = true ->
             (requests st <= c + (target req file + 49) / 50)%Z)
            /\ (is_exhaustive (yield_level req) = false ->
                (requests st <= (c + 1) * (cards_added st + 2))%Z
                /\ (requests st <= (c + 1) * (target req file + 2))%Z)
            /\ (forall s why,
                  o = Failure s why ->
                  why = EmailRequired \/ why = SubscriptionInactive
                  \/ why = MissingApiKey \/ why = MonthlyLimitReached ->
                  requests st = 0%Z)).
  { intros o st H0 H1. unfold requests. rewrite H0, H1.
    split; [intros _; simpl; lia|]. split; [intros _; split; simpl; nia|]. reflexivity. }
  destruct (@build_apkg_checks OPENAI_API_KEY DEFAULT_CAP current_month saving_month now lookup
              completion req file)
    as [[_ ->]|[[_ [_ ->]]|[[_ [_ [_ ->]]]|[[_ [_ ->]]|[Hclear Hrem]]]]];
    try (simpl fst; simpl snd; now apply Hearly).
  clear Hearly. rewrite build_apkg_unfold.
  destruct Hclear as [Ha [Hs Hk]]. unfold address in Ha, Hs.
  apply nonempty_true in Ha, Hk. rewrite Ha, Hs, Hk. cbn [negb].
  replace (remaining file <=? 0)%Z with false by lia.
  destruct (is_exhaustive (yield_level req)) eqn:Hy.
  - split; [intros _|split; [discriminate|]].
    + unfold run_target in *. rewrite Hy in *. unfold gathered_facts in *.
      unfold exhaustive, bind. fold c.
      pose proof (@extract_loop_cost OPENAI_API_KEY completion
                    (chunk_by_words (text req) (words_chunk_of req) 120) [] []
                    (start file)) as He.
      cbv zeta in He. fold c in He.
      destruct (extract_loop OPENAI_API_KEY completion _ [] [] (start file))
        as [[all|o] st1]; simpl snd in He; destruct He as [He1 He2].
      * change (requests (start file)) with 0%Z in He1.
        destruct (negb (nonempty all)).
        { unfold stop. cbn [snd]. lia. }
        set (allowed := Z.min (Z.of_nat (length all)) (remaining file)) in *.
        pose proof (@cardize_loop_cost OPENAI_API_KEY DEFAULT_CAP saving_month
                      completion (S (Z.to_nat allowed)) all
                      (normalize_modes (match modes req with
                                        | [] => [Some BASIC_RECALL]
                                        | l => l
                                        end))
                      allowed 0%Z st1) as Hcz.
        cbv zeta in Hcz. unfold rounds in Hcz. rewrite Z.sub_0_r in Hcz.
        rewrite Z.max_r in Hcz by assumption.
        destruct (cardize_loop _ _ _ _ _ _ _ _ _ st1) as [[u|o] st2];
          simpl snd in Hcz.
        -- destruct (cards_added st2 =? 0)%Z; cbn [snd]; lia.
        -- cbn [snd]. lia.
      * change (requests (start file)) with 0%Z in He1. cbn [snd]. lia.
    + intros s why H Hw.
      destruct (@pipeline_run OPENAI_API_KEY DEFAULT_CAP current_month saving_month now lookup
                  completion req file) as [_ Hp].
      { unfold cleared, address. apply nonempty_true in Ha, Hk. now repeat split. }
      { exact Hrem. }
      rewrite build_apkg_unfold, Ha, Hs, Hk in Hp. cbn [negb] in Hp.
      replace (remaining file <=? 0)%Z with false in Hp by lia.
      rewrite Hy in *. rewrite H in Hp. simpl in Hp.
      destruct Hw as [-> | [-> | [-> | ->]]]; contradiction.
  - split; [discriminate|]. split.
    + intros _.
      pose proof (balanced_cards_range req file Hrem Hy) as Hrange. cbv zeta in Hrange.
      assert (Hcost :
        (requests (snd (balanced OPENAI_API_KEY DEFAULT_CAP saving_month completion
                          (text req)
                          (normalize_modes (match modes req with
                                            | [] => [Some BASIC_RECALL]
                                            | l => l
                                            end))
                          (yield_level req) (approx_cards req) (words_chunk_of req)
                          (remaining file) (start file)))
         <= (c + 1) * (cards_added
                         (snd (balanced OPENAI_API_KEY DEFAULT_CAP saving_month completion
                                 (text req)
                                 (normalize_modes (match modes req with
                                                   | [] => [Some BASIC_RECALL]
                                                   | l => l
                                                   end))
                                 (yield_level req) (approx_cards req) (words_chunk_of req)
                                 (remaining file) (start file))) + 2))%Z).
      { unfold balanced.
        destruct (Z.min _ (remaining file) <=? 0)%Z.
        { unfold stop. simpl. change (requests (start file)) with 0%Z. lia. }
        unfold bind. fold c.
        set (chunks := chunk_by_words (text req) (words_chunk_of req) 120) in *.
        pose proof (@chunks_loop_cost OPENAI_API_KEY DEFAULT_CAP saving_month completion
                      (combine chunks (map (chunk_target (yield_level req)) chunks))
                      (normalize_modes (match modes req with
                                        | [] => [Some BASIC_RECALL]
                                        | l => l
                                        end))
                      (yield_level req)
                      (Z.min (estimate_total_cards (text req) (approx_cards req)
                                                   (yield_level req)) (remaining file))
                      (start file)) as H1.
        cbv zeta in H1. rewrite length_combine, length_map, Nat.min_id in H1.
        fold c in H1. change (requests (start file)) with 0%Z in H1.
        change (cards_added (start file)) with 0%Z in H1.
        destruct (chunks_loop _ _ _ _ _ _ _ _ (start file)) as [[u|o] st1];
          simpl snd in H1; destruct H1 as [H1 H1'].
        - pose proof (@sweep_cost OPENAI_API_KEY DEFAULT_CAP saving_month completion
                        (S (Z.to_nat (Z.min (estimate_total_cards (text req)
                                               (approx_cards req) (yield_level req))
                                            (remaining file))))
                        chunks
                        (normalize_modes (match modes req with
                                          | [] => [Some BASIC_RECALL]
                                          | l => l
                                          end))
                        (yield_level req)
                        (Z.min (estimate_total_cards (text req) (approx_cards req)
                                                     (yield_level req)) (remaining file))
                        st1) as H2.
          cbv zeta in H2. fold c in H2.
          destruct (sweep _ _ _ _ _ _ _ _ _ st1) as [[u2|o2] st2];
            simpl snd in H2; destruct H2 as [H2 H2'].
          + destruct (cards_added st2 =? 0)%Z; simpl; nia.
          + simpl. nia.
        - simpl. nia. }
      destruct (balanced _ _ _ _ _ _ _ _ _ _ (start file)) as [[u|o] st'];
        simpl snd in *; split; try assumption; nia.
    + intros s why H Hw.
      destruct (@pipeline_run OPENAI_API_KEY DEFAULT_CAP current_month saving_month now lookup
                  completion req file) as [_ Hp].
      { unfold cleared, address. apply nonempty_true in Ha, Hk. now repeat split. }
      { exact Hrem. }
      rewrite build_apkg_unfold, Ha, Hs, Hk in Hp. cbn [negb] in Hp.
      replace (remaining file <=? 0)%Z with false in Hp by lia.
      rewrite Hy in *. rewrite H in Hp. simpl in Hp.
      destruct Hw as [-> | [-> | [-> | ->]]]; try contradiction; tauto.
Qed.

End RunCost.
